(** * Noms value codec and Struct values: a shallow embedding

    The development follows the Go sources of the [types] package:
    - [value_decoder.go]: the value and type decoder ([readValue],
      [skipValue], [readTypeInner], [readMetaSequence], ...);
    - [list_lazy_leaf_sequence.go]: random access into a lazily decoded
      list leaf ([getItem]);
    - [struct.go]: the buffer-backed [Struct] value ([NewStruct],
      [MaybeGet], [Set], [Delete], [Diff]) and the field-name helpers
      ([IsValidStructFieldName], [EscapeStructField]).

    A decoder is one mutable cursor over one immutable byte span; it is
    modelled as a function from the span and the cursor position to a
    result and the new position.  A Go panic is the result [Panic]. *)

From Stdlib Require Import NArith ZArith List Strings.String Strings.Ascii Strings.Byte Lia Bool Arith.
From stdpp Require Import gmap strings list sorting.
Import ListNotations.

Set Warnings "-register-all".

Local Open Scope nat_scope.
Local Open Scope list_scope.

#[global] Instance byte_eq_dec : EqDecision byte := Byte.byte_eq_dec.

(** ** Results and the decoder monad *)

(** The outcome of running a piece of decoder code.  [OutOfFuel] is an
    artefact of the embedding (recursion of the decoder is bounded by a
    fuel argument); Go has no such outcome, and [entry_points_fuel_enough]
    below shows that the entry points of the decoder never produce it. *)
Inductive result (A : Type) : Type :=
| Ok (a : A)
| Panic
| OutOfFuel.
Arguments Ok {A} a.
Arguments Panic {A}.
Arguments OutOfFuel {A}.

(** [Dec A]: code that reads from the byte span [b] starting at cursor
    position [p], and either yields an [A] with the new cursor or panics. *)
Definition Dec (A : Type) : Type := list byte -> nat -> result (A * nat).

Definition ret {A} (a : A) : Dec A := fun _ p => Ok (a, p).

Definition bind {A B} (m : Dec A) (k : A -> Dec B) : Dec B :=
  fun b p =>
    match m b p with
    | Ok (a, q) => k a b q
    | Panic => Panic
    | OutOfFuel => OutOfFuel
    end.

Definition panic {A} : Dec A := fun _ _ => Panic.

Notation "'let*' x ':=' m 'in' k" := (bind m (fun x => k))
  (at level 10, x name, m at level 100, k at level 200).
Notation "'let*' ' pat ':=' m 'in' k" :=
  (bind m (fun x => match x with pat => k end))
  (at level 10, pat pattern, m at level 100, k at level 200).
Notation "m ;;; k" := (bind m (fun _ => k))
  (at level 100, right associativity).

(** Modelled from the spec: [r.pos()], the cursor of the byte-span reader. *)
Definition pos : Dec nat := fun _ p => Ok (p, p).

(** Modelled from the spec: [r.setPos(q)] moves the cursor; nothing is
    checked until the next read. *)
Definition setPos (q : nat) : Dec unit := fun _ _ => Ok (tt, q).

(** [d.PanicIfFalse(c)] and [d.PanicIfTrue(c)] *)
Definition PanicIfFalse (c : bool) : Dec unit := if c then ret tt else panic.
Definition PanicIfTrue (c : bool) : Dec unit := if c then panic else ret tt.

(** A counted loop [for i := 0; i < n; i++ { x := body(); data = append(data, x) }]. *)
Fixpoint repeatM {A} (n : nat) (body : Dec A) : Dec (list A) :=
  match n with
  | 0 => ret []
  | S n' => let* x := body in let* xs := repeatM n' body in ret (x :: xs)
  end.

(** A counted loop whose body yields nothing. *)
Fixpoint timesM (n : nat) (body : Dec unit) : Dec unit :=
  match n with
  | 0 => ret tt
  | S n' => body ;;; timesM n' body
  end.

(** ** Primitive codec *)

(** [b.buff[start:end]] *)
Definition byteSlice (b : list byte) (s e : nat) : list byte :=
  firstn (e - s) (skipn s b).

(** Modelled from the spec: the byte-span reader ([nomsReader]) is a
    collaborator whose source is not part of the files at hand.  Section 6
    fixes the wire format: a tag is one byte. An index past the end of the
    span is a Go run-time panic. *)
Definition readUint8 : Dec byte :=
  fun b p =>
    match nth_error b p with
    | Some c => Ok (c, S p)
    | None => Panic
    end.

(** Modelled from the spec: "Variable-length counts: unsigned LEB-style
    varint."  Seven payload bits per byte, least significant group first,
    the high bit set on every byte but the last; at most ten bytes, and the
    tenth may only carry the top bit of a 64-bit count. *)
Fixpoint readUvarint (n : nat) (shift acc : N) : Dec N :=
  fun b p =>
    match n with
    | 0 => Panic
    | S n' =>
        match nth_error b p with
        | None => Panic
        | Some c =>
            let v := Byte.to_N c in
            if (v <? 128)%N
            then if Nat.eqb n' 0 && (1 <? v)%N
                 then Panic
                 else Ok ((acc + v * 2 ^ shift)%N, S p)
            else readUvarint n' (shift + 7) (acc + (v - 128) * 2 ^ shift)%N b (S p)
        end
    end.

Definition MaxVarintLen64 : nat := 10.

(** Modelled from the spec: [r.readCount()] is one varint, a [uint64]. *)
Definition readCount : Dec N := readUvarint MaxVarintLen64 0 0.

(** Modelled from the spec: "Strings: length-prefixed UTF-8 bytes." *)
Definition readString : Dec string :=
  let* n := readCount in
  fun b p =>
    let e := p + N.to_nat n in
    if e <=? length b
    then Ok (string_of_list_byte (byteSlice b p e), e)
    else Panic.

(** Modelled from the spec: "Skip variants advance the cursor without
    allocating."  The cursor is moved past the payload; a cursor left
    beyond the span makes the next read panic. *)
Definition skipString : Dec unit :=
  let* n := readCount in
  fun _ p => Ok (tt, p + N.to_nat n).

(** Modelled from the spec: a boolean is one byte, true when it is 1. *)
Definition readBool : Dec bool :=
  let* c := readUint8 in ret (Byte.to_N c =? 1)%N.

(** Modelled from the spec: the spec lists numbers among the primitives
    without fixing their layout.  The model takes a self-delimiting layout
    of two varints (mantissa and exponent) and keeps the decoded number as
    that pair; no floating-point value is computed. *)
Definition Number : Type := (N * N)%type.

(** Modelled from the spec: [r.readNumber()] in the layout chosen above. *)
Definition readNumber : Dec Number :=
  let* i := readCount in let* e := readCount in ret (i, e).

(** Modelled from the spec: "fixed-width hash"; the digest is 20 bytes. *)
Definition hashByteLen : nat := 20.

Definition Hash : Type := list byte.

(** Modelled from the spec: [r.readHash()] takes the digest bytes and
    panics when the span is too short. *)
Definition readHash : Dec Hash :=
  fun b p =>
    let e := p + hashByteLen in
    if e <=? length b then Ok (byteSlice b p e, e) else Panic.

(** Modelled from the spec: [r.skipHash()] moves the cursor past the
    digest. *)
Definition skipHash : Dec unit :=
  fun _ p => Ok (tt, p + hashByteLen).

(** Modelled from the spec: "raw byte span", length-prefixed like a string;
    the width of the length is 32 bits. *)
Definition readBytes : Dec (list byte) :=
  let* n := readCount in
  fun b p =>
    let e := p + N.to_nat (n mod 2 ^ 32) in
    if e <=? length b then Ok (byteSlice b p e, e) else Panic.

(** Modelled from the spec: [r.skipBytes()] reads the length and moves the
    cursor past the payload. *)
Definition skipBytes : Dec unit :=
  let* n := readCount in
  fun _ p => Ok (tt, p + N.to_nat (n mod 2 ^ 32)).

(** ** Kinds *)

(** Modelled from the spec: the kind enumeration ([NomsKind]) is declared
    outside the files at hand; the tags are numbered in declaration order. *)
Inductive NomsKind : Type :=
| BoolKind | NumberKind | StringKind | BlobKind | ValueKind
| ListKind | MapKind | RefKind | SetKind
| StructKind | CycleKind | TypeKind | UnionKind.

(** Modelled from the spec: the tag byte of a kind. *)
Definition kindTag (k : NomsKind) : N :=
  match k with
  | BoolKind => 0 | NumberKind => 1 | StringKind => 2 | BlobKind => 3
  | ValueKind => 4 | ListKind => 5 | MapKind => 6 | RefKind => 7
  | SetKind => 8 | StructKind => 9 | CycleKind => 10 | TypeKind => 11
  | UnionKind => 12
  end%N.

(** Modelled from the spec: the kind of a tag byte, when there is one. *)
Definition kindOfTag (n : N) : option NomsKind :=
  match n with
  | 0 => Some BoolKind | 1 => Some NumberKind | 2 => Some StringKind
  | 3 => Some BlobKind | 4 => Some ValueKind | 5 => Some ListKind
  | 6 => Some MapKind | 7 => Some RefKind | 8 => Some SetKind
  | 9 => Some StructKind | 10 => Some CycleKind | 11 => Some TypeKind
  | 12 => Some UnionKind
  | _ => None
  end%N.

(** Modelled from the spec: the primitive kinds are those whose type
    descriptor is the tag alone. *)
Definition IsPrimitiveKind (k : NomsKind) : bool :=
  match k with
  | BoolKind | NumberKind | StringKind | BlobKind | ValueKind | TypeKind => true
  | _ => false
  end.

(** [readKind] is [NomsKind(r.readUint8())]; a tag outside the enumeration
    is kept as [None] and reaches the default branch of every switch. *)
Definition readKind : Dec (option NomsKind) :=
  let* c := readUint8 in ret (kindOfTag (Byte.to_N c)).

(** Modelled from the spec: [r.skipKind()] moves the cursor past the tag
    byte. *)
Definition skipKind : Dec unit := fun _ p => Ok (tt, S p).

(** A counted loop whose body also updates a state shared by the
    iterations (a Go map passed by reference). *)
Fixpoint repeatS {S A} (n : nat) (body : S -> Dec (A * S)) (s : S)
  : Dec (list A * S) :=
  match n with
  | 0 => ret ([], s)
  | S n' =>
      let* '(x, s1) := body s in
      let* '(xs, s2) := repeatS n' body s1 in
      ret (x :: xs, s2)
  end.

Definition outOfFuel {A} : Dec A := fun _ _ => OutOfFuel.

(** ** Type descriptors *)

(** A [*Type].  Struct types are heap objects that a Cycle reference points
    back to; the identity of such an object is the number [id] it received
    when [newType] allocated it, and [TypeRef id] is the pointer to it. *)
Inductive NomsType : Type :=
| PrimitiveType (k : NomsKind)
| CompoundType (k : NomsKind) (elemTypes : list NomsType)
| StructType (id : nat) (name : string)
             (fields : list (string * NomsType * bool))
| TypeRef (id : nat).

(** Modelled from the spec: [MakePrimitiveType] builds the descriptor of a
    primitive kind. *)
Definition MakePrimitiveType (k : NomsKind) : NomsType := PrimitiveType k.

(** Modelled from the spec: [makeCompoundType] builds the descriptor of a
    kind with element types. *)
Definition makeCompoundType (k : NomsKind) (ts : list NomsType) : NomsType :=
  CompoundType k ts.

(** The [seenStructs map[string]*Type] that [readTypeInner] threads through
    its recursive calls, together with the allocation counter of
    [newType]. *)
Record typeState : Type := mkTypeState {
  seenStructs : gmap string nat;
  nextId : nat
}.

Definition emptySeen : typeState := mkTypeState ∅ 0.

(** [StructField{Name, Type, Optional}] for the three passes of
    [readStructType]. *)
Definition makeFields (names : list string) (types : list NomsType)
  (optional : list bool) : list (string * NomsType * bool) :=
  combine (combine names types) optional.

(** ** Values *)

(** Modelled from the spec: an ordered key is built either from a hash
    ([orderedKeyFromHash]) or from a value ([newOrderedKey], "the true
    ordering key" of that value); the two constructors keep which. *)
Inductive Value : Type :=
| VBool (b : bool)
| VNumber (n : Number)
| VString (s : string)
| VBlob (seq : sequence)
| VList (seq : sequence)
| VMap (seq : sequence)
| VSet (seq : sequence)
| VRef (target : Hash) (targetType : NomsType) (height : N)
| VStruct (name : string) (fieldNames : list string) (values : list Value)
| VType (t : NomsType)
with sequence : Type :=
| blobLeafSequence (data : list byte)
| listLazyLeafSequence (offsets : list nat) (end_ : nat)
| setLeafSequence (data : list Value)
| mapLeafSequence (data : list (Value * Value))
| metaSequence (k : NomsKind) (level : N) (tuples : list metaTuple)
with metaTuple : Type :=
| newMetaTuple (ref : Value) (key : orderedKey) (numLeaves : N)
with orderedKey : Type :=
| orderedKeyFromHash (h : Hash)
| newOrderedKey (v : Value).

(** Modelled from the spec: [constructRef] keeps the target hash, the
    target type and the height. *)
Definition constructRef (h : Hash) (t : NomsType) (height : N) : Value :=
  VRef h t height.

(** The type assertion [v.(Ref)]: the target hash when [v] is a Ref. *)
Definition asRef (v : Value) : option Hash :=
  match v with
  | VRef h _ _ => Some h
  | _ => None
  end.

(** ** Field names *)

Definition inRange (lo hi : N) (c : ascii) : bool :=
  ((lo <=? N_of_ascii c) && (N_of_ascii c <=? hi))%N.

(** The character classes [[a-zA-Z]] and [[a-zA-Z0-9_]]. *)
Definition headFieldNamePattern (c : ascii) : bool :=
  inRange 97 122 c || inRange 65 90 c.

Definition tailFieldNamePattern (c : ascii) : bool :=
  inRange 97 122 c || inRange 65 90 c || inRange 48 57 c
  || (N_of_ascii c =? 95)%N.

Fixpoint allChars (p : ascii -> bool) (s : string) : bool :=
  match s with
  | EmptyString => true
  | String c s' => p c && allChars p s'
  end.

Fixpoint anyChar (p : ascii -> bool) (s : string) : bool :=
  match s with
  | EmptyString => false
  | String c s' => p c || anyChar p s'
  end.

(** [IsValidStructFieldName]: [fieldNameRe] is
    [^[a-zA-Z][a-zA-Z0-9_]*$], matched against the whole name. *)
Definition IsValidStructFieldName (name : string) : bool :=
  match name with
  | EmptyString => false
  | String c rest => headFieldNamePattern c && allChars tailFieldNamePattern rest
  end.

(** ** Escaping field names *)

(** [escapeChar] and [escapeRegex] *)
Definition escapeChar : string := "Q".

Definition escapeRegex (c : ascii) : bool := (N_of_ascii c =? 81)%N.

(** [p.MatchString(s)] for a pattern that is one character class: some
    character of [s] is in the class. *)
Definition MatchString (p : ascii -> bool) (s : string) : bool := anyChar p s.

(** [string([]rune{utf8.RuneError})] *)
Definition runeError : string :=
  String (ascii_of_N 239) (String (ascii_of_N 191) (String (ascii_of_N 189) "")).

(** One step of Go's [for _, ch := range input]: the string of the rune
    that starts with the byte [c0], and the input left after it.  A byte
    sequence that is not the UTF-8 form of a rune yields [utf8.RuneError]
    and consumes one byte. *)
Definition nextRune (c0 : ascii) (rest : string) : string * string :=
  let x := N_of_ascii c0 in
  if (x <? 128)%N then (String c0 "", rest)
  else if (x <? 194)%N then (runeError, rest)
  else if (x <? 224)%N then
    match rest with
    | String c1 r1 =>
        if inRange 128 191 c1 then (String c0 (String c1 ""), r1)
        else (runeError, rest)
    | _ => (runeError, rest)
    end
  else if (x <? 240)%N then
    let lo := if (x =? 224)%N then 160%N else 128%N in
    let hi := if (x =? 237)%N then 159%N else 191%N in
    match rest with
    | String c1 (String c2 r2) =>
        if inRange lo hi c1 && inRange 128 191 c2
        then (String c0 (String c1 (String c2 "")), r2)
        else (runeError, rest)
    | _ => (runeError, rest)
    end
  else if (x <? 245)%N then
    let lo := if (x =? 240)%N then 144%N else 128%N in
    let hi := if (x =? 244)%N then 143%N else 191%N in
    match rest with
    | String c1 (String c2 (String c3 r3)) =>
        if inRange lo hi c1 && inRange 128 191 c2 && inRange 128 191 c3
        then (String c0 (String c1 (String c2 (String c3 ""))), r3)
        else (runeError, rest)
    | _ => (runeError, rest)
    end
  else (runeError, rest).

Definition encodingFunc : Type := string -> (ascii -> bool) -> string.

(** The loop of [escapeField]; every rune consumes at least one byte. *)
Fixpoint escapeFieldLoop (fuel : nat) (encode : encodingFunc)
  (pattern : ascii -> bool) (input : string) : string :=
  match fuel with
  | 0 => ""
  | S f =>
      match input with
      | EmptyString => ""
      | String c0 rest =>
          let '(s1, rest') := nextRune c0 rest in
          (encode s1 pattern ++ escapeFieldLoop f encode tailFieldNamePattern rest')%string
      end
  end.

(** [escapeField] *)
Definition escapeField (input : string) (encode : encodingFunc) : string :=
  escapeFieldLoop (String.length input) encode headFieldNamePattern input.

Definition hexDigit (n : N) : ascii :=
  if (n <? 10)%N then ascii_of_N (48 + n) else ascii_of_N (55 + n).

(** [fmt.Sprintf("%X", s)]: two upper-case hexadecimal digits per byte. *)
Fixpoint hexUpper (s : string) : string :=
  match s with
  | EmptyString => EmptyString
  | String c s' =>
      String (hexDigit (N_of_ascii c / 16))
        (String (hexDigit (N_of_ascii c mod 16)) (hexUpper s'))
  end.

(** The [encode] closure of [EscapeStructField]. *)
Definition escapeEncode : encodingFunc :=
  fun s1 p =>
    if MatchString p s1 && negb (String.eqb s1 escapeChar) then s1
    else
      let hs := hexUpper s1 in
      (escapeChar ++ (if Nat.eqb (String.length hs) 1 then "0" else "") ++ hs)%string.

(** [EscapeStructField] *)
Definition EscapeStructField (input : string) : string :=
  if negb (MatchString escapeRegex input) && IsValidStructFieldName input
  then input
  else escapeField input escapeEncode.

Section Codec.

(** [validateType] is declared outside the files at hand; it panics on a
    type it rejects.  It is a parameter: [true] means the type passes. *)
Variable validateType : NomsType -> bool.

Section Decoder.

(** The [validating] field of the [valueDecoder]. *)
Variable validating : bool.

(** [readStructType], over the reader for the field types. *)
Definition readStructType
  (readTypeInner : typeState -> Dec (NomsType * typeState))
  (seen : typeState) : Dec (NomsType * typeState) :=
  let* name := readString in
  let* count := readCount in
  let id := nextId seen in
  let seen1 := mkTypeState (<[name := id]> (seenStructs seen)) (S id) in
  let* names := repeatM (N.to_nat count) readString in
  let* '(types, seen2) := repeatS (N.to_nat count) readTypeInner seen1 in
  let* optional := repeatM (N.to_nat count) readBool in
  ret (StructType id name (makeFields names types optional), seen2).

(** [readUnionType] *)
Definition readUnionType
  (readTypeInner : typeState -> Dec (NomsType * typeState))
  (seen : typeState) : Dec (NomsType * typeState) :=
  let* l := readCount in
  let* '(ts, seen1) := repeatS (N.to_nat l) readTypeInner seen in
  ret (makeCompoundType UnionKind ts, seen1).

(** [readTypeInner] *)
Fixpoint readTypeInnerF (fuel : nat) (seen : typeState)
  : Dec (NomsType * typeState) :=
  match fuel with
  | 0 => outOfFuel
  | S f =>
      let* k := readKind in
      match k with
      | Some ListKind =>
          let* '(t, seen1) := readTypeInnerF f seen in
          ret (makeCompoundType ListKind [t], seen1)
      | Some MapKind =>
          let* '(t1, seen1) := readTypeInnerF f seen in
          let* '(t2, seen2) := readTypeInnerF f seen1 in
          ret (makeCompoundType MapKind [t1; t2], seen2)
      | Some RefKind =>
          let* '(t, seen1) := readTypeInnerF f seen in
          ret (makeCompoundType RefKind [t], seen1)
      | Some SetKind =>
          let* '(t, seen1) := readTypeInnerF f seen in
          ret (makeCompoundType SetKind [t], seen1)
      | Some StructKind => readStructType (readTypeInnerF f) seen
      | Some UnionKind => readUnionType (readTypeInnerF f) seen
      | Some CycleKind =>
          let* name := readString in
          PanicIfTrue (String.eqb name "") ;;;
          match seenStructs seen !! name with
          | Some id => ret (TypeRef id, seen)
          | None => panic
          end
      | Some k' =>
          PanicIfFalse (IsPrimitiveKind k') ;;;
          ret (MakePrimitiveType k', seen)
      | None => panic
      end
  end.

(** [skipStructType] *)
Definition skipStructType (skipTypeInner : Dec unit) : Dec unit :=
  skipString ;;;
  let* count := readCount in
  timesM (N.to_nat count) skipString ;;;
  timesM (N.to_nat count) skipTypeInner ;;;
  timesM (N.to_nat count) (readBool ;;; ret tt).

(** [skipUnionType] *)
Definition skipUnionType (skipTypeInner : Dec unit) : Dec unit :=
  let* l := readCount in
  timesM (N.to_nat l) skipTypeInner.

(** [skipTypeInner] *)
Fixpoint skipTypeInnerF (fuel : nat) : Dec unit :=
  match fuel with
  | 0 => outOfFuel
  | S f =>
      let* k := readKind in
      match k with
      | Some ListKind => skipTypeInnerF f
      | Some MapKind => skipTypeInnerF f ;;; skipTypeInnerF f
      | Some RefKind => skipTypeInnerF f
      | Some SetKind => skipTypeInnerF f
      | Some StructKind => skipStructType (skipTypeInnerF f)
      | Some UnionKind => skipUnionType (skipTypeInnerF f)
      | Some CycleKind => skipString
      | Some k' => PanicIfFalse (IsPrimitiveKind k')
      | None => panic
      end
  end.

(** [readType]: a fresh [seenStructs] map for every call. *)
Definition readTypeF (fuel : nat) : Dec NomsType :=
  let* '(t, _) := readTypeInnerF fuel emptySeen in
  (if validating then PanicIfFalse (validateType t) else ret tt) ;;;
  ret t.

(** [skipType] *)
Definition skipTypeF (fuel : nat) : Dec unit :=
  (if validating then readTypeF fuel ;;; ret tt else ret tt) ;;;
  skipTypeInnerF fuel.

(** [readRef] *)
Definition readRef (fuel : nat) : Dec Value :=
  let* h := readHash in
  let* targetType := readTypeF fuel in
  let* height := readCount in
  ret (constructRef h targetType height).

(** [skipRef] *)
Definition skipRef (fuel : nat) : Dec unit :=
  skipHash ;;;
  skipTypeF fuel ;;;
  readCount ;;; ret tt.

(** [readBlobLeafSequence] and [skipBlobLeafSequence] *)
Definition readBlobLeafSequence : Dec sequence :=
  let* b := readBytes in ret (blobLeafSequence b).

Definition skipBlobLeafSequence : Dec unit := skipBytes.

(** [readValueSequence]: the count is narrowed to [uint32]. *)
Definition readValueSequence (readValue : Dec Value) : Dec (list Value) :=
  let* count := readCount in
  repeatM (N.to_nat (count mod 2 ^ 32)) readValue.

(** [skipValueSequence] *)
Definition skipValueSequence (skipValue : Dec unit) : Dec unit :=
  let* count := readCount in
  timesM (N.to_nat (count mod 2 ^ 32)) skipValue.

(** [readLazyValueOffsets]: the cursor before each element, which is then
    skipped, not read. *)
Definition readLazyValueOffsets (skipValue : Dec unit) : Dec (list nat) :=
  let* count := readCount in
  repeatM (N.to_nat (count mod 2 ^ 32))
          (let* o := pos in skipValue ;;; ret o).

(** [readListLeafSequence] *)
Definition readListLeafSequence (skipValue : Dec unit) : Dec sequence :=
  let* offsets := readLazyValueOffsets skipValue in
  let* e := pos in
  ret (listLazyLeafSequence offsets e).

Definition skipListLeafSequence (skipValue : Dec unit) : Dec unit :=
  skipValueSequence skipValue.

(** [readSetLeafSequence] *)
Definition readSetLeafSequence (readValue : Dec Value) : Dec sequence :=
  let* data := readValueSequence readValue in
  ret (setLeafSequence data).

Definition skipSetLeafSequence (skipValue : Dec unit) : Dec unit :=
  skipValueSequence skipValue.

(** [readMapLeafSequence] *)
Definition readMapLeafSequence (readValue : Dec Value) : Dec sequence :=
  let* count := readCount in
  let* data := repeatM (N.to_nat count)
                 (let* k := readValue in
                  let* v := readValue in
                  ret (k, v)) in
  ret (mapLeafSequence data).

(** [skipMapLeafSequence] *)
Definition skipMapLeafSequence (skipValue : Dec unit) : Dec unit :=
  let* count := readCount in
  timesM (N.to_nat count) (skipValue ;;; skipValue).

(** One iteration of the loop of [readMetaSequence]. *)
Definition readMetaTuple (readValue : Dec Value) : Dec metaTuple :=
  let* ref := readValue in
  match asRef ref with
  | None => panic
  | Some _ =>
      let* v := readValue in
      let key := match asRef v with
                 | Some targetHash => orderedKeyFromHash targetHash
                 | None => newOrderedKey v
                 end in
      let* numLeaves := readCount in
      ret (newMetaTuple ref key numLeaves)
  end.

(** [readMetaSequence] *)
Definition readMetaSequence (readValue : Dec Value) (k : NomsKind) (level : N)
  : Dec sequence :=
  let* count := readCount in
  let* data := repeatM (N.to_nat count) (readMetaTuple readValue) in
  ret (metaSequence k level data).

(** [skipMetaSequence] *)
Definition skipMetaSequence (skipValue : Dec unit) (k : NomsKind) (level : N)
  : Dec unit :=
  let* count := readCount in
  timesM (N.to_nat count) (skipValue ;;; skipValue).

(** [readStruct] *)
Definition readStruct (readValue : Dec Value) : Dec Value :=
  let* name := readString in
  let* count := readCount in
  let* fields := repeatM (N.to_nat count)
                   (let* n := readString in
                    let* v := readValue in
                    ret (n, v)) in
  ret (VStruct name (map fst fields) (map snd fields)).

(** [skipStruct] *)
Definition skipStruct (skipValue : Dec unit) : Dec unit :=
  skipString ;;;
  let* count := readCount in
  timesM (N.to_nat count) (skipString ;;; skipValue).

(** [skipValue] *)
Fixpoint skipValueF (fuel : nat) : Dec unit :=
  match fuel with
  | 0 => outOfFuel
  | S f =>
      let* k := readKind in
      match k with
      | Some BlobKind =>
          let* level := readCount in
          if (0 <? level)%N
          then skipMetaSequence (skipValueF f) BlobKind level
          else skipBlobLeafSequence
      | Some BoolKind => readBool ;;; ret tt
      | Some NumberKind => readNumber ;;; ret tt
      | Some StringKind => skipString
      | Some ListKind =>
          let* level := readCount in
          if (0 <? level)%N
          then skipMetaSequence (skipValueF f) ListKind level
          else skipListLeafSequence (skipValueF f)
      | Some MapKind =>
          let* level := readCount in
          if (0 <? level)%N
          then skipMetaSequence (skipValueF f) MapKind level
          else skipMapLeafSequence (skipValueF f)
      | Some RefKind => skipRef f
      | Some SetKind =>
          let* level := readCount in
          if (0 <? level)%N
          then skipMetaSequence (skipValueF f) SetKind level
          else skipSetLeafSequence (skipValueF f)
      | Some StructKind => skipStruct (skipValueF f)
      | Some TypeKind => skipTypeF f
      | Some CycleKind | Some UnionKind | Some ValueKind => panic
      | None => panic
      end
  end.

(** [readValue] *)
Fixpoint readValueF (fuel : nat) : Dec Value :=
  match fuel with
  | 0 => outOfFuel
  | S f =>
      let* k := readKind in
      match k with
      | Some BlobKind =>
          let* level := readCount in
          if (0 <? level)%N
          then let* s := readMetaSequence (readValueF f) BlobKind level in
               ret (VBlob s)
          else let* s := readBlobLeafSequence in ret (VBlob s)
      | Some BoolKind => let* b := readBool in ret (VBool b)
      | Some NumberKind => let* n := readNumber in ret (VNumber n)
      | Some StringKind => let* s := readString in ret (VString s)
      | Some ListKind =>
          let* level := readCount in
          if (0 <? level)%N
          then let* s := readMetaSequence (readValueF f) ListKind level in
               ret (VList s)
          else let* s := readListLeafSequence (skipValueF f) in ret (VList s)
      | Some MapKind =>
          let* level := readCount in
          if (0 <? level)%N
          then let* s := readMetaSequence (readValueF f) MapKind level in
               ret (VMap s)
          else let* s := readMapLeafSequence (readValueF f) in ret (VMap s)
      | Some RefKind => readRef f
      | Some SetKind =>
          let* level := readCount in
          if (0 <? level)%N
          then let* s := readMetaSequence (readValueF f) SetKind level in
               ret (VSet s)
          else let* s := readSetLeafSequence (readValueF f) in ret (VSet s)
      | Some StructKind => readStruct (readValueF f)
      | Some TypeKind => let* t := readTypeF f in ret (VType t)
      | Some CycleKind | Some UnionKind | Some ValueKind => panic
      | None => panic
      end
  end.

(** The entry points.  Every nested call consumes at least the tag byte of
    its value, so the nesting depth is bounded by the length of the span. *)
Definition fuelFor (b : list byte) : nat := S (length b).

Definition readValue : Dec Value := fun b p => readValueF (fuelFor b) b p.
Definition skipValue : Dec unit := fun b p => skipValueF (fuelFor b) b p.
Definition readType : Dec NomsType := fun b p => readTypeF (fuelFor b) b p.
Definition skipType : Dec unit := fun b p => skipTypeF (fuelFor b) b p.

End Decoder.

(** ** The lazy list leaf sequence *)

(** [listLazyLeafSequence.getItem]: the reader is shared with whoever else
    holds it, so the call is a function of the span and of the reader's
    cursor [p], and yields the item (or a panic) and the cursor it leaves
    behind.  The deferred [setPos(pos)] runs on every exit once it has been
    registered, also when [readValue] panics; an index out of range panics
    before the cursor is touched. *)
Definition getItem (offsets : list nat) (idx : nat) (b : list byte) (p : nat)
  : result Value * nat :=
  let pos := p in
  match nth_error offsets idx with
  | None => (Panic, p)
  | Some o =>
      match readValue false b o with
      | Ok (v, _) => (Ok v, pos)
      | Panic => (Panic, pos)
      | OutOfFuel => (OutOfFuel, pos)
      end
  end.

(** ** The binary writer *)

Definition byteOfN (n : N) : byte :=
  match Byte.of_N n with
  | Some c => c
  | None => x00
  end.

(** Modelled from the spec: the writer of "unsigned LEB-style varint"
    counts; a count is a [uint64]. *)
Fixpoint writeUvarint (n : nat) (v : N) : list byte :=
  match n with
  | 0 => []
  | S n' =>
      if (v <? 128)%N then [byteOfN v]
      else byteOfN (v mod 128 + 128) :: writeUvarint n' (v / 128)
  end.

(** Modelled from the spec: [w.writeCount(v)] writes the [uint64] as one
    varint. *)
Definition writeCount (v : N) : list byte :=
  writeUvarint MaxVarintLen64 (v mod 2 ^ 64).

(** Modelled from the spec: "Strings: length-prefixed UTF-8 bytes." *)
Definition writeString (s : string) : list byte :=
  writeCount (N.of_nat (String.length s)) ++ list_byte_of_string s.

(** Modelled from the spec: [k.writeTo(w)] for a kind writes the tag
    byte. *)
Definition writeKind (k : NomsKind) : list byte := [byteOfN (kindTag k)].

(** ** Struct values *)

(** Modelled from the spec: a value as the Struct code handles it is what
    [v.writeTo] emits, its canonical encoding. *)
Definition EncodedValue : Type := list byte.

(** Modelled from the spec: "Equality is exact byte-equality of canonical
    encodings." *)
Definition Equals (v1 v2 : list byte) : bool := bool_decide (v1 = v2).

(** [Struct{vrw, buff}]; the link to the value-resolving context plays no
    part in the encoding and is left out. *)
Record Struct : Type := mkStruct { buff : list byte }.

Definition StructEquals (s other : Struct) : bool :=
  bool_decide (buff s = buff other).

(** The result monad of code that may panic but reads no cursor. *)
Definition bindR {A B} (r : result A) (k : A -> result B) : result B :=
  match r with
  | Ok a => k a
  | Panic => Panic
  | OutOfFuel => OutOfFuel
  end.

Notation "'let+' x ':=' m 'in' k" := (bindR m (fun x => k))
  (at level 10, x name, m at level 100, k at level 200).
Notation "'let+' ' pat ':=' m 'in' k" :=
  (bindR m (fun x => match x with pat => k end))
  (at level 10, pat pattern, m at level 100, k at level 200).

(** [verifyName], [verifyFieldName] and [verifyStructName] *)
Definition verifyFieldName (name : string) : result unit :=
  if IsValidStructFieldName name then Ok tt else Panic.

Definition verifyStructName (name : string) : result unit :=
  if String.eqb name "" then Ok tt else verifyFieldName name.

(** The loop of [newStruct]; [values[i]] past the end of the slice panics. *)
Fixpoint writeFields (fieldNames : list string) (values : list EncodedValue)
  (w : list byte) : result (list byte) :=
  match fieldNames with
  | [] => Ok w
  | n :: names' =>
      match values with
      | [] => Panic
      | v :: vs' => writeFields names' vs' (w ++ writeString n ++ v)
      end
  end.

(** [newStruct] *)
Definition newStruct (name : string) (fieldNames : list string)
  (values : list EncodedValue) : result Struct :=
  let w := writeKind StructKind ++ writeString name
           ++ writeCount (N.of_nat (length fieldNames)) in
  let+ w' := writeFields fieldNames values w in
  Ok (mkStruct w').

(** [sort.Sort(sort.StringSlice(fieldNames))] *)
Definition sortStrings (l : list string) : list string :=
  merge_sort String.le l.

Fixpoint verifyFieldNames (names : list string) : result unit :=
  match names with
  | [] => Ok tt
  | n :: names' => let+ _ := verifyFieldName n in verifyFieldNames names'
  end.

Fixpoint lookupValues (data : gmap string EncodedValue) (names : list string)
  : result (list EncodedValue) :=
  match names with
  | [] => Ok []
  | n :: names' =>
      match data !! n with
      | None => Panic
      | Some v => let+ vs := lookupValues data names' in Ok (v :: vs)
      end
  end.

(** [NewStruct(name, data)].  The order in which [for name := range data]
    enumerates the keys of the Go map is not fixed; [enum] is that order. *)
Definition NewStruct (enum : list string) (name : string)
  (data : gmap string EncodedValue) : result Struct :=
  let+ _ := verifyStructName name in
  let+ _ := verifyFieldNames enum in
  let fieldNames := sortStrings enum in
  let+ values := lookupValues data fieldNames in
  newStruct name fieldNames values.

(** [s.decoder()] is [newValueDecoder(s.buff, s.vrw)]: no validation. *)
Definition readValueD : Dec Value := readValue false.
Definition skipValueD : Dec unit := skipValue false.

(** Modelled from the spec: [dec.byteSlice(start, dec.pos())], the span
    the decoder went over; a cursor beyond the span is a slice panic. *)
Definition sliceFrom (start : nat) : Dec (list byte) :=
  fun b e => if e <=? length b then Ok (byteSlice b start e, e) else Panic.

(** The value the Struct code obtains from [dec.readValue()], as its
    encoding. *)
Definition readValueBytes : Dec EncodedValue :=
  let* start := pos in
  let* _ := readValueD in
  sliceFrom start.

(** Modelled from the spec: "all other fields byte-copied unchanged (no
    nested re-encoding)": [copyValue] and [copyString] skip the item and
    write the span they went over. *)
Definition copyValue : Dec (list byte) :=
  let* start := pos in
  skipValueD ;;;
  sliceFrom start.

(** Modelled from the spec: [copyString] skips the string and writes the
    span it went over. *)
Definition copyString : Dec (list byte) :=
  let* start := pos in
  skipString ;;;
  sliceFrom start.

(** [decoderSkipToFields] *)
Definition decoderSkipToFields : Dec N :=
  skipKind ;;;
  skipString ;;;
  readCount.

Definition run {A} (m : Dec A) (s : Struct) : result A :=
  match m (buff s) 0 with
  | Ok (a, _) => Ok a
  | Panic => Panic
  | OutOfFuel => OutOfFuel
  end.

(** Go's [int(count)] for a [uint64]. *)
Definition intOfUint64 (c : N) : Z :=
  if (c <? 2 ^ 63)%N then Z.of_N c else (Z.of_N c - 2 ^ 64)%Z.

(** [Len] *)
Definition Len (s : Struct) : result Z :=
  run (let* count := decoderSkipToFields in ret (intOfUint64 count)) s.

(** [Name] *)
Definition Name (s : Struct) : result string :=
  run (skipKind ;;; readString) s.

(** The loop of [MaybeGet]. *)
Fixpoint MaybeGetLoop (n : string) (count : nat) : Dec (option EncodedValue) :=
  match count with
  | 0 => ret None
  | S c =>
      let* name := readString in
      if String.eqb name n then
        let* v := readValueBytes in ret (Some v)
      else if String.ltb n name then ret None
      else skipValueD ;;; MaybeGetLoop n c
  end.

(** [MaybeGet]: [Some v] is [(v, true)], [None] is [(nil, false)]. *)
Definition MaybeGet (s : Struct) (n : string) : result (option EncodedValue) :=
  run (let* count := decoderSkipToFields in
       MaybeGetLoop n (N.to_nat count)) s.

(** [Get] *)
Definition Get (s : Struct) (n : string) : result EncodedValue :=
  let+ r := MaybeGet s n in
  match r with
  | Some v => Ok v
  | None => Panic
  end.

(** [IterFields], collecting what the callback is called with. *)
Definition IterFields (s : Struct) : result (list (string * EncodedValue)) :=
  run (let* count := decoderSkipToFields in
       repeatM (N.to_nat count)
         (let* n := readString in
          let* v := readValueBytes in
          ret (n, v))) s.

(** The loop of [set]: [None] when the loop gives up and [set] starts over
    with [addedCount = 1], otherwise the writer and [newFieldHandled]. *)
Fixpoint setLoop (n : string) (v : EncodedValue) (addedCount : N)
  (count : nat) (w : list byte) (newFieldHandled : bool)
  : Dec (option (list byte * bool)) :=
  match count with
  | 0 => ret (Some (w, newFieldHandled))
  | S c =>
      let* name := readString in
      if String.eqb n name then
        let w1 := w ++ writeString name ++ v in
        skipValueD ;;;
        setLoop n v addedCount c w1 true
      else if negb newFieldHandled && String.ltb n name then
        if (addedCount =? 0)%N then ret None
        else
          let w1 := w ++ writeString n ++ v in
          let w2 := w1 ++ writeString name in
          let* raw := copyValue in
          setLoop n v addedCount c (w2 ++ raw) true
      else
        let w1 := w ++ writeString name in
        let* raw := copyValue in
        setLoop n v addedCount c (w1 ++ raw) newFieldHandled
  end.

(** One activation of [set]: [None] stands for
    [w.reset(); return s.set(w, n, v, 1)]. *)
Definition setPass (n : string) (v : EncodedValue) (addedCount : N)
  : Dec (option (list byte)) :=
  let w := writeKind StructKind in
  skipKind ;;;
  let* rawName := copyString in
  let w := w ++ rawName in
  let* count := readCount in
  let w := w ++ writeCount (count + addedCount) in
  let* r := setLoop n v addedCount (N.to_nat count) w false in
  match r with
  | None => ret None
  | Some (w, newFieldHandled) =>
      if negb newFieldHandled then
        if (addedCount =? 1)%N then ret (Some (w ++ writeString n ++ v))
        else ret None
      else ret (Some w)
  end.

(** [set]: the recursion is at most one level deep, since the recursive
    calls sit under [addedCount == 0] and pass [addedCount = 1]. *)
Fixpoint setF (fuel : nat) (s : Struct) (n : string) (v : EncodedValue)
  (addedCount : N) : result Struct :=
  match fuel with
  | 0 => OutOfFuel
  | S f =>
      let+ r := run (setPass n v addedCount) s in
      match r with
      | Some w => Ok (mkStruct w)
      | None => setF f s n v 1
      end
  end.

Definition set (s : Struct) (n : string) (v : EncodedValue) (addedCount : N)
  : result Struct :=
  setF 2 s n v addedCount.

(** [Set] *)
Definition StructSet (s : Struct) (n : string) (v : EncodedValue)
  : result Struct :=
  let+ _ := verifyFieldName n in
  set s n v 0.

(** The loop of [Delete]. *)
Fixpoint deleteLoop (n : string) (count : nat) (w : list byte) (found : bool)
  : Dec (list byte * bool) :=
  match count with
  | 0 => ret (w, found)
  | S c =>
      let* name := readString in
      if String.eqb n name then
        skipValueD ;;;
        deleteLoop n c w true
      else
        let w1 := w ++ writeString name in
        let* raw := copyValue in
        deleteLoop n c (w1 ++ raw) found
  end.

(** [Delete]; [count - 1] is computed on [uint64] and wraps around at 0. *)
Definition Delete (s : Struct) (n : string) : result Struct :=
  run (let w := writeKind StructKind in
       skipKind ;;;
       let* rawName := copyString in
       let w := w ++ rawName in
       let* count := readCount in
       let w := w ++ writeCount (count + 2 ^ 64 - 1) in
       let* '(w, found) := deleteLoop n (N.to_nat count) w false in
       if found then ret (mkStruct w) else ret s) s.

(** ** Structural diff *)

Inductive DiffChangeType : Type :=
| DiffChangeAdded | DiffChangeRemoved | DiffChangeModified.

(** [ValueChanged{ChangeType, Key, OldValue, NewValue}]; [None] is [nil]. *)
Record ValueChanged : Type := mkValueChanged {
  ChangeType : DiffChangeType;
  Key : string;
  OldValue : option EncodedValue;
  NewValue : option EncodedValue
}.

Section Diff.

(** [sendChange(changes, closeChan, change)] is declared outside the files
    at hand.  It is a parameter acting on the state of the sink (the two
    channels and their consumer): it reports whether the change was
    delivered ([true]) or the consumer had signalled stop ([false]). *)
Variable Sink : Type.
Variable sendChange : Sink -> ValueChanged -> bool * Sink.

(** [if fn == "" { fn = dec.readString() }] *)
Definition nextName (fn : string) : Dec string :=
  if String.eqb fn "" then readString else ret fn.

(** How a loop of [Diff] ends: the routine has returned, or the loop
    condition failed and control falls through with these locals. *)
Inductive diffExit : Type :=
| Returned (sink : Sink)
| FellThrough (p1 p2 r1 r2 : nat) (fn1 fn2 : string) (sink : Sink).

(** The first loop of [Diff]; [r1] is [count1 - i1] and [r2] is
    [count2 - i2].  Every iteration lowers [r1 + r2]. *)
Fixpoint diffMerge (fuel : nat) (b1 b2 : list byte) (p1 p2 r1 r2 : nat)
  (fn1 fn2 : string) (sink : Sink) : result diffExit :=
  match r1, r2 with
  | S r1', S r2' =>
      match fuel with
      | 0 => OutOfFuel
      | S f =>
          let+ '(fn1, p1) := nextName fn1 b1 p1 in
          let+ '(fn2, p2) := nextName fn2 b2 p2 in
          if String.eqb fn1 fn2 then
            let+ '(v1, p1) := readValueBytes b1 p1 in
            let+ '(v2, p2) := readValueBytes b2 p2 in
            if Equals v1 v2 then
              diffMerge f b1 b2 p1 p2 r1' r2' "" "" sink
            else
              let change :=
                mkValueChanged DiffChangeModified fn1 (Some v2) (Some v1) in
              let '(ok, sink1) := sendChange sink change in
              if ok then diffMerge f b1 b2 p1 p2 r1' r2' "" "" sink1
              else Ok (Returned sink1)
          else if String.ltb fn1 fn2 then
            let+ '(v1, p1) := readValueBytes b1 p1 in
            let change := mkValueChanged DiffChangeAdded fn1 None (Some v1) in
            let '(ok, sink1) := sendChange sink change in
            if ok then diffMerge f b1 b2 p1 p2 r1' r2 "" fn2 sink1
            else Ok (Returned sink1)
          else
            let+ '(v2, p2) := readValueBytes b2 p2 in
            let change := mkValueChanged DiffChangeRemoved fn2 (Some v2) None in
            let '(ok, sink1) := sendChange sink change in
            if ok then diffMerge f b1 b2 p1 p2 r1 r2' fn1 "" sink1
            else Ok (Returned sink1)
      end
  | _, _ => Ok (FellThrough p1 p2 r1 r2 fn1 fn2 sink)
  end.

(** The second and the third loop of [Diff]: [Some sink] when the loop runs
    to its end, [None] with the sink when the routine returns from it. *)
Fixpoint diffRest (mk : string -> EncodedValue -> ValueChanged) (r : nat)
  (b : list byte) (p : nat) (fn : string) (sink : Sink)
  : result (bool * Sink) :=
  match r with
  | 0 => Ok (true, sink)
  | S r' =>
      let+ '(fn, p) := nextName fn b p in
      let+ '(v, p) := readValueBytes b p in
      let '(ok, sink1) := sendChange sink (mk fn v) in
      if ok then diffRest mk r' b p fn sink1
      else Ok (false, sink1)
  end.

(** [s.Diff(last, changes, closeChan)]: the sink after the routine has
    returned. *)
Definition Diff (s last : Struct) (sink : Sink) : result Sink :=
  if StructEquals s last then Ok sink
  else
    let+ '(count1, p1) := decoderSkipToFields (buff s) 0 in
    let+ '(count2, p2) := decoderSkipToFields (buff last) 0 in
    let r1 := N.to_nat count1 in
    let r2 := N.to_nat count2 in
    let+ e := diffMerge (r1 + r2) (buff s) (buff last) p1 p2 r1 r2 "" "" sink in
    match e with
    | Returned sink1 => Ok sink1
    | FellThrough p1 p2 r1 r2 fn1 fn2 sink1 =>
        let+ '(go, sink2) :=
          diffRest (fun fn v => mkValueChanged DiffChangeAdded fn None (Some v))
                   r1 (buff s) p1 fn1 sink1 in
        if go then
          let+ '(_, sink3) :=
            diffRest (fun fn v => mkValueChanged DiffChangeRemoved fn (Some v) None)
                     r2 (buff last) p2 fn2 sink2 in
          Ok sink3
        else Ok sink2
    end.

End Diff.

(** ** Vocabulary of the statements *)

(** A sink that delivers every change: its state is what was delivered. *)
Definition collect (delivered : list ValueChanged) (c : ValueChanged)
  : bool * list ValueChanged :=
  (true, delivered ++ [c]).

(** A list with two chunks: tag, height 1, one tuple made of a Ref to a
    Bool child, the boundary value [true] and the leaf count 1. *)
Definition metaListExample : list byte :=
  map byteOfN ([5; 1; 1; 7] ++ repeat 0 20 ++ [0; 0; 0; 1; 1])%N.

(** The type [Union<struct A {}, Cycle<A>>]: the back-reference is a
    sibling of the struct, not inside it. *)
Definition siblingCycleExample : list byte :=
  map byteOfN [12; 2; 9; 1; 65; 0; 10; 1; 65]%N.

(** The encodings of [Bool(true)] and [Bool(false)]. *)
Definition encTrue : EncodedValue := map byteOfN [0; 1]%N.
Definition encFalse : EncodedValue := map byteOfN [0; 0]%N.

(** [NewStruct("", {a: true, b: false})] and [NewStruct("", {})], as their
    buffers. *)
Definition structAB : Struct :=
  mkStruct (map byteOfN [9; 0; 2; 1; 97; 0; 1; 1; 98; 0; 0]%N).
Definition structEmpty : Struct := mkStruct (map byteOfN [9; 0; 0]%N).

(** [NewStruct("", {a: l, b: true})] with [l] the chunked list
    [metaListExample], as the mapping and as the buffer. *)
Definition dataChunked : gmap string EncodedValue :=
  <["a"%string := metaListExample]> (<["b"%string := encTrue]> ∅).

Definition structChunked : Struct :=
  mkStruct (map byteOfN [9; 0; 2; 1; 97]%N ++ metaListExample
            ++ map byteOfN [1; 98; 0; 1]%N).

(** A flat list of two elements, the chunked list [metaListExample] and
    [true]: tag, height 0, count 2, the two encodings. *)
Definition listChunkedExample : list byte :=
  map byteOfN [5; 0; 2]%N ++ metaListExample ++ encTrue.

(** One tuple of a meta-sequence node laid out at [p]: the child Ref, the
    boundary value, the leaf count.  The key kept in the tuple is built
    from the target hash of the boundary value when that value is a Ref,
    and from the value itself otherwise. *)
Inductive metaTupleAt (rv : Dec Value) (b : list byte)
  : nat -> metaTuple -> nat -> Prop :=
| metaTupleAt_hash p ref p1 h t ht p2 n p3 :
    rv b p = Ok (ref, p1) -> is_Some (asRef ref) ->
    rv b p1 = Ok (VRef h t ht, p2) ->
    readCount b p2 = Ok (n, p3) ->
    metaTupleAt rv b p (newMetaTuple ref (orderedKeyFromHash h) n) p3
| metaTupleAt_value p ref p1 v p2 n p3 :
    rv b p = Ok (ref, p1) -> is_Some (asRef ref) ->
    rv b p1 = Ok (v, p2) -> asRef v = None ->
    readCount b p2 = Ok (n, p3) ->
    metaTupleAt rv b p (newMetaTuple ref (newOrderedKey v) n) p3.

Inductive metaTuplesAt (rv : Dec Value) (b : list byte)
  : nat -> list metaTuple -> nat -> Prop :=
| metaTuplesAt_nil p : metaTuplesAt rv b p [] p
| metaTuplesAt_cons p t p' ts q :
    metaTupleAt rv b p t p' -> metaTuplesAt rv b p' ts q ->
    metaTuplesAt rv b p (t :: ts) q.

(** The offsets a skip-only scan records from [p] on: each element starts
    where the skip of the one before it stopped. *)
Inductive scannedFrom (skip : Dec unit) (b : list byte)
  : nat -> list nat -> nat -> Prop :=
| scannedFrom_nil p : scannedFrom skip b p [] p
| scannedFrom_cons p p' os q :
    skip b p = Ok (tt, p') -> scannedFrom skip b p' os q ->
    scannedFrom skip b p (p :: os) q.

(** The result of a decoder run without the cursor. *)
Definition outcome {A} (r : result (A * nat)) : result A :=
  match r with
  | Ok (a, _) => Ok a
  | Panic => Panic
  | OutOfFuel => OutOfFuel
  end.

(** A sink that also keeps the log of the calls of [sendChange] with what
    each call reported. *)
Definition logged {Sink : Type} (send : Sink -> ValueChanged -> bool * Sink)
  (st : Sink * list (ValueChanged * bool)) (c : ValueChanged)
  : bool * (Sink * list (ValueChanged * bool)) :=
  let '(ok, s') := send (fst st) c in
  (ok, (s', snd st ++ [(c, ok)])).
Arguments logged : simpl never.

(** The consumer that signals stop after the [k]-th event: its state is
    the number of events it has taken. *)
Definition stopAfter (k : nat) (taken : nat) (c : ValueChanged) : bool * nat :=
  if taken <? k then (true, S taken) else (false, taken).

Definition allDelivered (log : list (ValueChanged * bool)) : Prop :=
  Forall (fun e => snd e = true) log.

Definition stoppedAtEnd (log : list (ValueChanged * bool)) : Prop :=
  exists pre c, log = pre ++ [(c, false)] /\ allDelivered pre.

(** Whether every back-reference in [t] points to a struct type that
    encloses it; [enclosing] holds the identities of the struct types
    around [t]. *)
Fixpoint cyclesEnclosed (enclosing : list nat) (t : NomsType) : bool :=
  match t with
  | PrimitiveType _ => true
  | CompoundType _ ts => forallb (cyclesEnclosed enclosing) ts
  | StructType id _ fields =>
      forallb (fun f => let '(_, ft, _) := f in cyclesEnclosed (id :: enclosing) ft)
              fields
  | TypeRef id => existsb (Nat.eqb id) enclosing
  end.

(** The struct types of [t], as identity and name, in the order they were
    allocated. *)
Fixpoint structsOf (t : NomsType) : list (nat * string) :=
  match t with
  | PrimitiveType _ => []
  | CompoundType _ ts => flat_map structsOf ts
  | StructType id name fields =>
      (id, name) :: flat_map (fun f => let '(_, ft, _) := f in structsOf ft) fields
  | TypeRef _ => []
  end.

(** The identities the back-references of [t] point to. *)
Fixpoint typeRefsOf (t : NomsType) : list nat :=
  match t with
  | PrimitiveType _ => []
  | CompoundType _ ts => flat_map typeRefsOf ts
  | StructType _ _ fields =>
      flat_map (fun f => let '(_, ft, _) := f in typeRefsOf ft) fields
  | TypeRef id => [id]
  end.

(** A flat list of two booleans: tag, height 0, count 2, [true], [false]. *)
Definition listLeafExample : list byte :=
  map byteOfN [5; 0; 2; 0; 1; 0; 0]%N.

(** What [nextRune] yields: one ASCII character, or bytes that all have
    their high bit set. *)
Definition runeLike (s1 : string) : Prop :=
  (exists c, s1 = String c "" /\ (N_of_ascii c <? 128)%N = true) \/
  (s1 <> ""%string /\ allChars (fun c => negb (N_of_ascii c <? 128)%N) s1 = true).

(** Every name registered in [seenStructs] maps to the identity of a struct
    type of that name among [structs]. *)
Definition seenWithin (seen : typeState) (structs : list (nat * string)) : Prop :=
  forall name id, seenStructs seen !! name = Some id -> In (id, name) structs.

(** Every back-reference of [t] points to one of [structs]. *)
Definition refsWithin (refs : list nat) (structs : list (nat * string)) : Prop :=
  forall id, In id refs -> exists name, In (id, name) structs.

(** The wire form of a struct with the given name and fields: tag, name,
    field count, then every field as its name followed by its value. *)
Fixpoint encodeFields (fs : list (string * EncodedValue)) : list byte :=
  match fs with
  | [] => []
  | (n, v) :: fs' => writeString n ++ v ++ encodeFields fs'
  end.

Definition encodeStruct (name : string) (fs : list (string * EncodedValue))
  : list byte :=
  writeKind StructKind ++ writeString name
  ++ writeCount (N.of_nat (length fs)) ++ encodeFields fs.

(** Ascending alphabetical order without repetition; the order is the
    byte-wise order of Go strings. *)
Definition strictlyBefore (a b : string) : Prop := String.ltb a b = true.

Definition ascending (names : list string) : Prop :=
  StronglySorted strictlyBefore names.

(** A Go string or slice holds fewer than [2^63] bytes. *)
Definition goLen (n : nat) : Prop := (N.of_nat n < 2 ^ 63)%N.

(** ** Decoding inside a larger span *)

(** [Sim R pre post m m']: whenever [m] succeeds on a span [e], [m'] succeeds
    on [e] laid between [pre] and [post], from the shifted cursor to the
    shifted cursor, with results related by [R]. *)
Definition Sim {A} (R : A -> A -> Prop) (pre post : list byte)
  (m m' : Dec A) : Prop :=
  forall e i a j,
    m e i = Ok (a, j) ->
    exists a', m' (pre ++ e ++ post) (length pre + i) = Ok (a', length pre + j)
               /\ R a a'.

(** Two decoded values agree on being a Ref, and on its target hash. *)
Definition sameRef (v v' : Value) : Prop := asRef v = asRef v'.

(** The encodings that [readValue] decodes, consuming all of them. *)
Definition readable (e : list byte) : Prop :=
  exists v, readValue false e 0 = Ok (v, length e).

(** The encodings on which the skip path and the read path both succeed
    and consume the whole encoding. *)
Definition regular (e : list byte) : Prop :=
  skipValue false e 0 = Ok (tt, length e) /\ readable e.

(** The relation that holds of any two results. *)
Definition anyR {A} (x y : A) : Prop := True.

(** ** Well-formed structs and their fields *)

(** [fieldsOk fs]: every name is a Go string, every value an encoding the
    decoder delimits, and the names ascend strictly. *)
Definition fieldOk (f : string * EncodedValue) : Prop :=
  goLen (String.length (fst f)) /\ regular (snd f).

Definition fieldsOk (fs : list (string * EncodedValue)) : Prop :=
  Forall fieldOk fs /\ ascending (map fst fs).

(** What a lookup of [n] needs of a field: being decodable if it is the
    field [n], which is read, and well-formed if it is another field, which
    may be skipped. *)
Definition fieldOkFor (n : string) (f : string * EncodedValue) : Prop :=
  goLen (String.length (fst f)) /\
  if String.eqb (fst f) n then readable (snd f) else regular (snd f).

(** [s] is the struct called [name] with the fields [fs]; the struct, and
    the struct with one more field, fit a Go slice. *)
Definition isStruct (s : Struct) (name : string)
  (fs : list (string * EncodedValue)) : Prop :=
  buff s = encodeStruct name fs /\
  goLen (String.length name) /\
  goLen (S (length fs)) /\
  fieldsOk fs.

(** The value of the field [n], if there is one. *)
Fixpoint lookupField (n : string) (fs : list (string * EncodedValue))
  : option EncodedValue :=
  match fs with
  | [] => None
  | (m, x) :: r => if String.eqb m n then Some x else lookupField n r
  end.

(** The fields with [n] set to [v]: replaced where it is, inserted at its
    place in the order where it is not. *)
Fixpoint setField (n : string) (v : EncodedValue)
  (fs : list (string * EncodedValue)) : list (string * EncodedValue) :=
  match fs with
  | [] => [(n, v)]
  | (m, x) :: r =>
      if String.eqb n m then (m, v) :: r
      else if String.ltb n m then (n, v) :: (m, x) :: r
      else (m, x) :: setField n v r
  end.

(** The fields without the field [n]. *)
Fixpoint deleteField (n : string) (fs : list (string * EncodedValue))
  : list (string * EncodedValue) :=
  match fs with
  | [] => []
  | (m, x) :: r =>
      if String.eqb n m then deleteField n r else (m, x) :: deleteField n r
  end.

Definition hasField (n : string) (fs : list (string * EncodedValue)) : bool :=
  match lookupField n fs with
  | Some _ => true
  | None => false
  end.

(** The loops of [MaybeGet], [set] and [Delete], run on the fields
    themselves instead of their bytes. *)
Fixpoint getLoopSpec (n : string) (fs : list (string * EncodedValue))
  : option EncodedValue :=
  match fs with
  | [] => None
  | (m, x) :: r =>
      if String.eqb m n then Some x
      else if String.ltb n m then None
      else getLoopSpec n r
  end.

Fixpoint setLoopSpec (n : string) (v : EncodedValue) (addedCount : N)
  (fs out : list (string * EncodedValue)) (newFieldHandled : bool)
  : option (list (string * EncodedValue) * bool) :=
  match fs with
  | [] => Some (out, newFieldHandled)
  | (m, x) :: r =>
      if String.eqb n m then setLoopSpec n v addedCount r (out ++ [(m, v)]) true
      else if negb newFieldHandled && String.ltb n m then
        if (addedCount =? 0)%N then None
        else setLoopSpec n v addedCount r (out ++ [(n, v); (m, x)]) true
      else setLoopSpec n v addedCount r (out ++ [(m, x)]) newFieldHandled
  end.

Fixpoint deleteLoopSpec (n : string) (fs out : list (string * EncodedValue))
  (found : bool) : list (string * EncodedValue) * bool :=
  match fs with
  | [] => (out, found)
  | (m, x) :: r =>
      if String.eqb n m then deleteLoopSpec n r out true
      else deleteLoopSpec n r (out ++ [(m, x)]) found
  end.

(** What a pass of [set] writes, on the fields themselves: [None] when the
    pass gives up and [set] starts over. *)
Definition setPassSpec (n : string) (v : EncodedValue) (addedCount : N)
  (fs : list (string * EncodedValue)) : option (list (string * EncodedValue)) :=
  match setLoopSpec n v addedCount fs [] false with
  | None => None
  | Some (out, newFieldHandled) =>
      if negb newFieldHandled then
        if (addedCount =? 1)%N then Some (out ++ [(n, v)]) else None
      else Some out
  end.

(** The header of a struct buffer: tag, name and field count. *)
Definition structHeader (name : string) (count : N) : list byte :=
  writeKind StructKind ++ writeString name ++ writeCount count.

(** No field of [fs] is called [n]. *)
Definition absent (n : string) (fs : list (string * EncodedValue)) : Prop :=
  Forall (fun f => String.eqb n (fst f) = false) fs.

(** Every field of [fs] comes after [n] in the order. *)
Definition allAfter (n : string) (fs : list (string * EncodedValue)) : Prop :=
  Forall (fun f => String.ltb n (fst f) = true) fs.

(** The fields and the mapping of [structAB]. *)
Definition fieldsAB : list (string * EncodedValue) :=
  [("a"%string, encTrue); ("b"%string, encFalse)].

Definition dataAB : gmap string EncodedValue :=
  <["a"%string := encTrue]> (<["b"%string := encFalse]> ∅).

(** ** Fuel *)

(** [m] run on [b] at [p] does not run out of fuel and does not move the
    cursor backwards. *)
Definition fuelSafeAt {A} (b : list byte) (p : nat) (m : Dec A) : Prop :=
  m b p <> OutOfFuel /\ forall a q, m b p = Ok (a, q) -> p <= q.

(** The same from every cursor position from [lo] on. *)
Definition fuelSafe {A} (b : list byte) (lo : nat) (m : Dec A) : Prop :=
  forall p, lo <= p -> fuelSafeAt b p m.

(** What one more type read adds to the invariant of the parse. *)
Definition typeReadSound
  (rd : typeState -> Dec (NomsType * typeState)) : Prop :=
  forall seen b p t seen' q S0,
    rd seen b p = Ok ((t, seen'), q) ->
    seenWithin seen S0 ->
    refsWithin (typeRefsOf t) (S0 ++ structsOf t) /\
    seenWithin seen' (S0 ++ structsOf t).

(** The decoder without validation never calls [validateType]; the runs
    below take the check that accepts every type. *)
Definition acceptAll (t : NomsType) : bool := true.

(** A decoded value without a meta-sequence tuple anywhere in it.  The
    elements of a lazy list leaf are not part of the decoded value (only
    their offsets are), so they do not count. *)
Fixpoint noTuples (v : Value) : bool :=
  match v with
  | VBlob s | VList s | VMap s | VSet s => seqNoTuples s
  | VStruct _ _ vs => forallb noTuples vs
  | _ => true
  end
with seqNoTuples (s : sequence) : bool :=
  match s with
  | blobLeafSequence _ => true
  | listLazyLeafSequence _ _ => true
  | setLeafSequence d => forallb noTuples d
  | mapLeafSequence d =>
      forallb (fun kv => let '(k, v) := kv in noTuples k && noTuples v) d
  | metaSequence _ _ ts => match ts with [] => true | _ :: _ => false end
  end.

(** ** Further functions of the Struct code *)

(** [skipStruct(dec)] of [struct.go]: tag, name, field count, then every
    field as a name and a value, skipped with [dec.skipValue()]: the
    decoder is the caller's, validating or not. *)
Definition skipStructD (validating : bool) : Dec unit :=
  skipKind ;;;
  skipString ;;;
  let* count := readCount in
  timesM (N.to_nat count) (skipString ;;; skipValue validating).

(** [readStruct(dec)]: the struct is the span [skipStruct] went over. *)
Definition readStructD (validating : bool) : Dec Struct :=
  let* start := pos in
  skipStructD validating ;;;
  let* raw := sliceFrom start in
  ret (mkStruct raw).

(** What [skipStruct] needs of a field under a decoder mode: a name that
    is a Go string and a value that the decoder's [skipValue] passes over
    from its first byte to its last. *)
Definition skippable (validating : bool) (f : string * EncodedValue) : Prop :=
  goLen (String.length (fst f)) /\
  skipValue validating (snd f) 0 = Ok (tt, length (snd f)).

(** [Empty] *)
Definition Empty (s : Struct) : result bool :=
  let+ n := Len s in Ok (Z.eqb n 0).

(** [WalkValues], collecting what the callback is called with. *)
Definition WalkValues (s : Struct) : result (list EncodedValue) :=
  run (let* count := decoderSkipToFields in
       repeatM (N.to_nat count) (skipString ;;; readValueBytes)) s.

(** The calls [iterParts] makes on its [structPartCallbacks]. *)
Inductive structPart : Type :=
| partName (n : string)
| partCount (c : N)
| partFieldName (n : string)
| partFieldValue (v : EncodedValue)
| partEnd.

(** [iterParts], collecting the calls in the order they are made. *)
Definition iterParts (s : Struct) : result (list structPart) :=
  run (skipKind ;;;
       let* name := readString in
       let* count := readCount in
       let* fields :=
         repeatM (N.to_nat count)
           (let* n := readString in
            let* v := readValueBytes in
            ret [partFieldName n; partFieldValue v]) in
       ret (partName name :: partCount count :: concat fields ++ [partEnd])) s.

(** The parts of a struct with the given name and fields. *)
Definition partsOf (name : string) (fs : list (string * EncodedValue))
  : list structPart :=
  partName name :: partCount (N.of_nat (length fs))
  :: flat_map (fun f => [partFieldName (fst f); partFieldValue (snd f)]) fs
  ++ [partEnd].

(** [StructTemplate{name, fieldNames}] *)
Record StructTemplate : Type := mkStructTemplate {
  templateName : string;
  templateFieldNames : list string
}.

(** The loop of [MakeStructTemplate] from index 1 on; [prev] is
    [fieldNames[i-1]] and [>] on Go strings compares them byte by byte. *)
Fixpoint templateLoop (prev : string) (fieldNames : list string) : result unit :=
  match fieldNames with
  | [] => Ok tt
  | n :: rest =>
      let+ _ := verifyFieldName n in
      if String.ltb prev n then templateLoop n rest else Panic
  end.

(** [MakeStructTemplate] *)
Definition MakeStructTemplate (name : string) (fieldNames : list string)
  : result StructTemplate :=
  let t := mkStructTemplate name fieldNames in
  let+ _ := verifyStructName name in
  match fieldNames with
  | [] => Ok t
  | n0 :: rest =>
      let+ _ := verifyFieldName n0 in
      let+ _ := templateLoop n0 rest in
      Ok t
  end.

(** [StructTemplate.NewStruct] *)
Definition TemplateNewStruct (st : StructTemplate) (values : list EncodedValue)
  : result Struct :=
  if Nat.eqb (length (templateFieldNames st)) (length values)
  then newStruct (templateName st) (templateFieldNames st) values
  else Panic.

(** The loop of [verifyFields], on the names of the fields; [prev] is
    [fs[i-1].Name] when [i > 0].  [strings.Compare(a, b) >= 0] is the
    negation of [a < b]. *)
Fixpoint verifyFieldsFrom (prev : option string) (names : list string)
  : result unit :=
  match names with
  | [] => Ok tt
  | n :: rest =>
      let+ _ := verifyFieldName n in
      match prev with
      | Some p =>
          if negb (String.ltb p n) then Panic
          else verifyFieldsFrom (Some n) rest
      | None => verifyFieldsFrom (Some n) rest
      end
  end.

(** [verifyFields] *)
Definition verifyFields (names : list string) : result unit :=
  verifyFieldsFrom None names.

(** The names a struct accepts for its fields. *)
Definition validNames (names : list string) : Prop :=
  Forall (fun n => IsValidStructFieldName n = true) names.

(** ** The diff of two field lists *)

(** The three kinds of change, for a field or a name and two values. *)
Definition added (f : string * EncodedValue) : ValueChanged :=
  mkValueChanged DiffChangeAdded (fst f) None (Some (snd f)).

Definition removed (f : string * EncodedValue) : ValueChanged :=
  mkValueChanged DiffChangeRemoved (fst f) (Some (snd f)) None.

Definition modified (n : string) (old new : EncodedValue) : ValueChanged :=
  mkValueChanged DiffChangeModified n (Some old) (Some new).

(** The merge of two field lists in ascending order, [fs1] of the new
    struct and [fs2] of the old one, up to the point where one of them is
    used up: the changes met on the way, and the fields left on each
    side. *)
Fixpoint mergeFields (fs1 fs2 : list (string * EncodedValue)) {struct fs1}
  : list ValueChanged
    * (list (string * EncodedValue) * list (string * EncodedValue)) :=
  let fix inner (fs2 : list (string * EncodedValue)) {struct fs2} :=
    match fs1, fs2 with
    | [], _ | _, [] => ([], (fs1, fs2))
    | (n1, v1) :: r1, (n2, v2) :: r2 =>
        if String.eqb n1 n2 then
          let '(ev, rest) := mergeFields r1 r2 in
          ((if Equals v1 v2 then [] else [modified n1 v2 v1]) ++ ev, rest)
        else if String.ltb n1 n2 then
          let '(ev, rest) := mergeFields r1 fs2 in
          (added (n1, v1) :: ev, rest)
        else
          let '(ev, rest) := inner r2 in
          (removed (n2, v2) :: ev, rest)
    end in
  inner fs2.

(** The changes between two field lists: those of the merge, then every
    field left on the new side as added and every field left on the old
    side as removed. *)
Definition changesBetween (fs1 fs2 : list (string * EncodedValue))
  : list ValueChanged :=
  let '(ev, (rest1, rest2)) := mergeFields fs1 fs2 in
  ev ++ map added rest1 ++ map removed rest2.

(** The fields left over on each side when the merge stops. *)
Definition leftOver (fs1 fs2 : list (string * EncodedValue))
  : list (string * EncodedValue) * list (string * EncodedValue) :=
  snd (mergeFields fs1 fs2).

(** One decoder of [Diff] in front of the fields [fs]: either no name is
    pending and the cursor is at the first field, or the name [fn] of the
    first field has been read and the cursor is at its value. *)
Definition diffSide (b : list byte) (p : nat) (fn : string)
  (fs : list (string * EncodedValue)) : Prop :=
  (fn = ""%string /\ exists pre, b = pre ++ encodeFields fs /\ p = length pre) \/
  (fn <> ""%string /\
   exists pre x r, fs = (fn, x) :: r /\
                   b = pre ++ x ++ encodeFields r /\ p = length pre).

(** ** Values in a shifted span *)

(** The value [v] as it is decoded when its bytes sit [d] positions
    further into the span: the offsets that a lazy list leaf keeps are
    positions in the span and move with it; everything else stays. *)
Fixpoint shiftValue (d : nat) (v : Value) : Value :=
  match v with
  | VBlob s => VBlob (shiftSeq d s)
  | VList s => VList (shiftSeq d s)
  | VMap s => VMap (shiftSeq d s)
  | VSet s => VSet (shiftSeq d s)
  | VStruct name names values => VStruct name names (map (shiftValue d) values)
  | _ => v
  end
with shiftSeq (d : nat) (s : sequence) : sequence :=
  match s with
  | blobLeafSequence _ => s
  | listLazyLeafSequence offsets e =>
      listLazyLeafSequence (map (Nat.add d) offsets) (d + e)
  | setLeafSequence data => setLeafSequence (map (shiftValue d) data)
  | mapLeafSequence data =>
      mapLeafSequence
        (map (fun kv => let '(k, v) := kv in (shiftValue d k, shiftValue d v))
             data)
  | metaSequence k level tuples =>
      metaSequence k level (map (shiftTuple d) tuples)
  end
with shiftTuple (d : nat) (t : metaTuple) : metaTuple :=
  match t with
  | newMetaTuple ref key n => newMetaTuple (shiftValue d ref) (shiftKey d key) n
  end
with shiftKey (d : nat) (k : orderedKey) : orderedKey :=
  match k with
  | orderedKeyFromHash _ => k
  | newOrderedKey v => newOrderedKey (shiftValue d v)
  end.

(** [x'] is [x] moved by [f]. *)
Definition movedBy {A} (f : A -> A) (x x' : A) : Prop := x' = f x.

(** The kind of a decoded value. *)
Definition kindOfValue (v : Value) : NomsKind :=
  match v with
  | VBool _ => BoolKind
  | VNumber _ => NumberKind
  | VString _ => StringKind
  | VBlob _ => BlobKind
  | VList _ => ListKind
  | VMap _ => MapKind
  | VSet _ => SetKind
  | VRef _ _ _ => RefKind
  | VStruct _ _ _ => StructKind
  | VType _ => TypeKind
  end.

(** ** UTF-8 input *)

(** Whether the loop over the runes of [input] meets only well-formed
    runes: every step takes the bytes of one rune off the front of the
    input, none yields [utf8.RuneError] for a byte that starts no rune. *)
Fixpoint utf8Loop (fuel : nat) (input : string) : bool :=
  match input with
  | EmptyString => true
  | String c0 rest =>
      match fuel with
      | 0 => false
      | S f =>
          let '(s1, rest') := nextRune c0 rest in
          String.eqb (String c0 rest) (s1 ++ rest') && utf8Loop f rest'
      end
  end.

Definition validUtf8 (input : string) : bool :=
  utf8Loop (String.length input) input.

(** The number of bytes of a well-formed rune that starts with [c0]. *)
Definition runeLen (c0 : ascii) : nat :=
  let x := N_of_ascii c0 in
  if (x <? 128)%N then 1
  else if (x <? 224)%N then 2
  else if (x <? 240)%N then 3
  else 4.

(** The change that two field lists show at the name [k], if any: [fs1]
    are the fields of the new struct, [fs2] those of the old one. *)
Definition changeAt (fs1 fs2 : list (string * EncodedValue)) (k : string)
  : option ValueChanged :=
  match lookupField k fs1, lookupField k fs2 with
  | Some v1, Some v2 => if Equals v1 v2 then None else Some (modified k v2 v1)
  | Some v1, None => Some (added (k, v1))
  | None, Some v2 => Some (removed (k, v2))
  | None, None => None
  end.

(** * Properties *)

(** ** The skip path against the read path *)

(** C10 (evaluation at the failing input).  On a chunked list with one
    tuple, [readValue] consumes the whole 29-byte encoding, the tuple's leaf
    count included, while [skipValue] stops one byte short of it:
    [skipMetaSequence] skips the two values of a tuple and leaves its leaf
    count unread. *)
Theorem skipValue_stops_short_on_metaSequence :
  length metaListExample = 29 /\
  (exists v, readValue false metaListExample 0 = Ok (v, 29)) /\
  skipValue false metaListExample 0 = Ok (tt, 28).
Proof.
  split; [reflexivity|]. split; [eexists|]; vm_compute; reflexivity.
Qed.

(** ** Reasoning about decoder code *)

Lemma bind_Ok {A B} (m : Dec A) (k : A -> Dec B) b p r :
  bind m k b p = Ok r <-> exists a q, m b p = Ok (a, q) /\ k a b q = Ok r.
Proof.
  unfold bind. split.
  - destruct (m b p) as [[a q]| |]; [eauto|discriminate..].
  - intros (a & q & -> & H). exact H.
Qed.

Lemma bind_Ok_eq {A B} (m : Dec A) (k : A -> Dec B) b p a q :
  m b p = Ok (a, q) -> bind m k b p = k a b q.
Proof. unfold bind. intros ->. reflexivity. Qed.

Lemma bindR_Ok {A B} (r : result A) (k : A -> result B) x :
  bindR r k = Ok x <-> exists a, r = Ok a /\ k a = Ok x.
Proof.
  split.
  - destruct r; simpl; [eauto|discriminate..].
  - intros (a & -> & H). exact H.
Qed.

(** Splits a successful run of a sequence of decoder steps into its steps. *)
Ltac inv_bind H :=
  repeat match type of H with
         | bind _ _ _ _ = Ok _ =>
             let a := fresh "a" in
             let q := fresh "q" in
             let H1 := fresh "Hstep" in
             apply bind_Ok in H; destruct H as (a & q & H1 & H)
         | ret _ _ _ = Ok _ => unfold ret in H; injection H as H; subst
         | Ok _ = Ok _ => fail
         end.

Lemma repeatM_length {A} (body : Dec A) n b p xs q :
  repeatM n body b p = Ok (xs, q) -> length xs = n.
Proof.
  revert p xs q. induction n as [|n IH]; simpl; intros p xs q H.
  - unfold ret in H. injection H as <- _. reflexivity.
  - apply bind_Ok in H. destruct H as (x & q1 & _ & H).
    apply bind_Ok in H. destruct H as (xs' & q2 & H2 & H).
    unfold ret in H. injection H as <- _. simpl. f_equal. eauto.
Qed.

(** ** Meta-sequence boundary keys *)

Lemma readMetaTuple_at (rv : Dec Value) b p t q :
  readMetaTuple rv b p = Ok (t, q) -> metaTupleAt rv b p t q.
Proof.
  unfold readMetaTuple. intros H.
  apply bind_Ok in H. destruct H as (ref & p1 & Href & H).
  destruct (asRef ref) as [h0|] eqn:Eref; [|discriminate].
  apply bind_Ok in H. destruct H as (v & p2 & Hv & H).
  apply bind_Ok in H. destruct H as (n & p3 & Hn & H).
  unfold ret in H. injection H as <- <-.
  destruct (asRef v) as [h|] eqn:Ev.
  - destruct v; try discriminate. simpl in Ev. injection Ev as ->.
    eapply metaTupleAt_hash; eauto; rewrite Eref; eauto.
  - eapply metaTupleAt_value; eauto; rewrite Eref; eauto.
Qed.

Lemma repeat_readMetaTuple_at (rv : Dec Value) n b p ts q :
  repeatM n (readMetaTuple rv) b p = Ok (ts, q) -> metaTuplesAt rv b p ts q.
Proof.
  revert p ts q. induction n as [|n IH]; simpl; intros p ts q H.
  - unfold ret in H. injection H as <- <-. constructor.
  - apply bind_Ok in H. destruct H as (t & p1 & Ht & H).
    apply bind_Ok in H. destruct H as (ts' & p2 & Hts & H).
    unfold ret in H. injection H as <- <-.
    econstructor; eauto using readMetaTuple_at.
Qed.

(** C7.  Whenever [readMetaSequence] succeeds on an interior node, the node
    it returns holds one tuple per encoded tuple, and the key stored in each
    is [orderedKeyFromHash] of the target hash of the decoded boundary value
    when that value is a Ref, and [newOrderedKey] of the decoded value
    otherwise.  The decoder only reads the span [b]: no child chunk is
    fetched or decoded. *)
Theorem readMetaSequence_boundary_keys validating f k level b p s q :
  readMetaSequence (readValueF validating f) k level b p = Ok (s, q) ->
  exists count p0 tuples,
    readCount b p = Ok (count, p0) /\
    s = metaSequence k level tuples /\
    length tuples = N.to_nat count /\
    metaTuplesAt (readValueF validating f) b p0 tuples q.
Proof.
  unfold readMetaSequence. intros H.
  apply bind_Ok in H. destruct H as (count & p0 & Hc & H).
  apply bind_Ok in H. destruct H as (ts & p1 & Hts & H).
  unfold ret in H. injection H as <- <-.
  exists count, p0, ts. repeat split; auto.
  - eapply repeatM_length; eauto.
  - eapply repeat_readMetaTuple_at; eauto.
Qed.

(** ** Random access into a lazy list leaf *)

Lemma repeat_offsets_scanned (skip : Dec unit) n b p os q :
  repeatM n (let* o := pos in skip ;;; ret o) b p = Ok (os, q) ->
  scannedFrom skip b p os q.
Proof.
  revert p os q. induction n as [|n IH]; simpl; intros p os q H.
  - unfold ret in H. injection H as <- <-. constructor.
  - apply bind_Ok in H. destruct H as (o & p1 & Ho & H).
    apply bind_Ok in H. destruct H as (os' & p2 & Hos & H).
    unfold ret in H. injection H as <- <-.
    apply bind_Ok in Ho. destruct Ho as (o' & p' & Hpos & Ho).
    unfold pos in Hpos. injection Hpos as <- <-.
    apply bind_Ok in Ho. destruct Ho as ([] & p'' & Hskip & Ho).
    unfold ret in Ho. injection Ho as <- <-.
    econstructor; eauto.
Qed.

(** C9 (evaluation at the failing input).  [listChunkedExample] is a flat
    list of two elements, a chunked list and [true]; an eager decode of
    its elements yields these two.  [readValue] turns it into a lazy leaf
    whose scan records the offsets 3 and 31: [skipValue] stops one byte
    short of the end of the chunked list, at 31, where its leaf count is,
    and the second element starts at 32.  [getItem(1)] seeks to 31 and
    returns a number, not [true], the element at index 1. *)
Theorem getItem_misses_element_behind_chunked_list :
  (exists l, readValueSequence (readValue false) listChunkedExample 2
             = Ok ([l; VBool true], 34)) /\
  readValue false listChunkedExample 0
  = Ok (VList (listLazyLeafSequence [3; 31] 34), 34) /\
  getItem [3; 31] 1 listChunkedExample 7 = (Ok (VNumber (0, 1)%N), 7).
Proof.
  split; [eexists; vm_compute; reflexivity|].
  split; vm_compute; reflexivity.
Qed.

(** ** The trailing loops of the diff *)

(** C3 (evaluation at the failing input).  [structAB] is what [NewStruct]
    builds from [{a: true, b: false}], [structEmpty] what it builds from no
    fields.  Diffing the first against the second must report [a] and [b]
    as added.  The loop over the fields left on the new side reads the name
    [a] once and never reads a name again: its second round decodes the
    bytes of the name [b] as if they were a value and reports them under
    the key [a]. *)
Theorem Diff_trailing_fields_reuse_first_name :
  NewStruct ["b"; "a"] "" (<["a" := encTrue]> (<["b" := encFalse]> ∅))
    = Ok structAB /\
  NewStruct [] "" ∅ = Ok structEmpty /\
  Diff (list ValueChanged) collect structAB structEmpty []
    = Ok [ mkValueChanged DiffChangeAdded "a" None (Some encTrue);
           mkValueChanged DiffChangeAdded "a" None
             (Some (map byteOfN [1; 98; 0]%N)) ].
Proof. repeat split; vm_compute; reflexivity. Qed.

(** ** Escaping *)

Lemma allChars_app p s t :
  allChars p (s ++ t)%string = allChars p s && allChars p t.
Proof.
  induction s as [|c s IH]; simpl; [reflexivity|].
  rewrite IH. apply andb_assoc.
Qed.

Lemma head_is_tail c :
  headFieldNamePattern c = true -> tailFieldNamePattern c = true.
Proof.
  unfold headFieldNamePattern, tailFieldNamePattern. intros ->. reflexivity.
Qed.

Lemma tail_is_ascii c :
  tailFieldNamePattern c = true -> (N_of_ascii c <? 128)%N = true.
Proof.
  unfold tailFieldNamePattern, inRange. intros H. apply N.ltb_lt.
  repeat (apply orb_true_iff in H; destruct H as [H|H]);
    try (apply andb_true_iff in H; destruct H as [H1 H2];
         apply N.leb_le in H1, H2; lia).
  apply N.eqb_eq in H. lia.
Qed.

Lemma hexDigit_tail n :
  (n < 16)%N -> tailFieldNamePattern (hexDigit n) = true.
Proof.
  intros H.
  assert (E : In n [0;1;2;3;4;5;6;7;8;9;10;11;12;13;14;15]%N).
  { destruct n as [|p]; [left; reflexivity|].
    do 16 (destruct p as [p|p|]; try lia; simpl; auto 20). }
  simpl in E.
  repeat (destruct E as [<-|E]; [reflexivity|]). destruct E.
Qed.

Lemma N_of_ascii_bound c : (N_of_ascii c < 256)%N.
Proof.
  destruct c as [[] [] [] [] [] [] [] []]; vm_compute; reflexivity.
Qed.

Lemma hexUpper_tail s : allChars tailFieldNamePattern (hexUpper s) = true.
Proof.
  induction s as [|c s IH]; simpl; [reflexivity|].
  pose proof (N_of_ascii_bound c) as Hc.
  rewrite !hexDigit_tail, IH; [reflexivity| |].
  - apply N.mod_lt. discriminate.
  - apply N.Div0.div_lt_upper_bound. exact Hc.
Qed.

Lemma hexUpper_length_not_1 s : Nat.eqb (String.length (hexUpper s)) 1 = false.
Proof. destruct s; reflexivity. Qed.

(** The [encode] closure never takes its one-digit branch: [%X] writes
    two digits per byte. *)
Lemma escapeEncode_eq s1 p :
  escapeEncode s1 p =
  if MatchString p s1 && negb (String.eqb s1 escapeChar) then s1
  else (escapeChar ++ hexUpper s1)%string.
Proof.
  unfold escapeEncode. rewrite hexUpper_length_not_1. reflexivity.
Qed.

Lemma inRange_high lo hi c :
  (128 <= lo)%N -> inRange lo hi c = true ->
  negb (N_of_ascii c <? 128)%N = true.
Proof.
  unfold inRange. intros Hlo H. apply andb_true_iff in H. destruct H as [H _].
  apply N.leb_le in H. apply negb_true_iff, N.ltb_ge. lia.
Qed.

Lemma runeError_runeLike : runeLike runeError.
Proof. right. split; [discriminate|reflexivity]. Qed.

Lemma nextRune_spec c0 rest s1 rest' :
  nextRune c0 rest = (s1, rest') ->
  runeLike s1 /\ String.length rest' <= String.length rest.
Proof.
  unfold nextRune.
  destruct (N_of_ascii c0 <? 128)%N eqn:E0.
  { intros H. injection H as <- <-. split; [|lia]. left. eauto. }
  assert (Hc0 : negb (N_of_ascii c0 <? 128)%N = true) by (rewrite E0; reflexivity).
  destruct (N_of_ascii c0 <? 194)%N.
  { intros H. injection H as <- <-. split; [apply runeError_runeLike|simpl; lia]. }
  destruct (N_of_ascii c0 <? 224)%N.
  { destruct rest as [|c1 r1].
    - intros H. injection H as <- <-. split; [apply runeError_runeLike|simpl; lia].
    - destruct (inRange 128 191 c1) eqn:E1; intros H; injection H as <- <-.
      + split; [|simpl; lia]. right. split; [discriminate|]. simpl.
        rewrite Hc0, (inRange_high 128 191 c1 ltac:(lia) E1). reflexivity.
      + split; [apply runeError_runeLike|simpl; lia]. }
  destruct (N_of_ascii c0 <? 240)%N.
  { destruct rest as [|c1 [|c2 r2]];
      try (intros H; injection H as <- <-;
           split; [apply runeError_runeLike|simpl; lia]).
    match goal with |- context [inRange ?lo ?hi c1] =>
      destruct (inRange lo hi c1) eqn:E1;
      [assert (H1 : negb (N_of_ascii c1 <? 128)%N = true)
         by (eapply inRange_high; [|exact E1];
             destruct (N_of_ascii c0 =? 224)%N; lia)|] end;
    destruct (inRange 128 191 c2) eqn:E2; simpl;
      intros H; injection H as <- <-;
      try (split; [apply runeError_runeLike|simpl; lia]).
    split; [|simpl; lia]. right. split; [discriminate|]. simpl.
    rewrite Hc0, H1, (inRange_high 128 191 c2 ltac:(lia) E2). reflexivity. }
  destruct (N_of_ascii c0 <? 245)%N.
  { destruct rest as [|c1 [|c2 [|c3 r3]]];
      try (intros H; injection H as <- <-;
           split; [apply runeError_runeLike|simpl; lia]).
    match goal with |- context [inRange ?lo ?hi c1] =>
      destruct (inRange lo hi c1) eqn:E1;
      [assert (H1 : negb (N_of_ascii c1 <? 128)%N = true)
         by (eapply inRange_high; [|exact E1];
             destruct (N_of_ascii c0 =? 240)%N; lia)|] end;
    destruct (inRange 128 191 c2) eqn:E2;
    destruct (inRange 128 191 c3) eqn:E3; simpl;
      intros H; injection H as <- <-;
      try (split; [apply runeError_runeLike|simpl; lia]).
    split; [|simpl; lia]. right. split; [discriminate|]. simpl.
    rewrite Hc0, H1, (inRange_high 128 191 c2 ltac:(lia) E2),
      (inRange_high 128 191 c3 ltac:(lia) E3). reflexivity. }
  intros H. injection H as <- <-. split; [apply runeError_runeLike|simpl; lia].
Qed.

Lemma anyChar_high p s :
  (forall c, p c = true -> (N_of_ascii c <? 128)%N = true) ->
  allChars (fun c => negb (N_of_ascii c <? 128)%N) s = true ->
  anyChar p s = false.
Proof.
  intros Hp. induction s as [|c s IH]; simpl; [reflexivity|].
  intros H. apply andb_true_iff in H. destruct H as [Hc Hs].
  rewrite IH by assumption. rewrite orb_false_r.
  destruct (p c) eqn:E; [|reflexivity].
  apply Hp in E. rewrite E in Hc. discriminate.
Qed.

(** Every piece the [encode] closure produces for a rune is made of
    characters allowed after the first one, and is not empty. *)
Lemma escapeEncode_tail s1 p :
  runeLike s1 ->
  (forall c, p c = true -> tailFieldNamePattern c = true) ->
  allChars tailFieldNamePattern (escapeEncode s1 p) = true.
Proof.
  intros Hr Hp. rewrite escapeEncode_eq.
  assert (Hhex : allChars tailFieldNamePattern (escapeChar ++ hexUpper s1) = true).
  { rewrite allChars_app, hexUpper_tail. reflexivity. }
  destruct (MatchString p s1 && negb (s1 =? escapeChar)%string) eqn:E;
    [|exact Hhex].
  apply andb_true_iff in E. destruct E as [E _].
  destruct Hr as [(c & -> & Hc)|[Hne Hhigh]].
  - unfold MatchString in E. simpl in E. rewrite orb_false_r in E.
    simpl. rewrite (Hp _ E). reflexivity.
  - unfold MatchString in E.
    rewrite (anyChar_high p s1) in E; [discriminate| |assumption].
    auto using tail_is_ascii.
Qed.

(** The piece for the first rune starts with a letter. *)
Lemma escapeEncode_head s1 :
  runeLike s1 ->
  exists c r, escapeEncode s1 headFieldNamePattern = String c r /\
              headFieldNamePattern c = true.
Proof.
  intros Hr. rewrite escapeEncode_eq.
  destruct (MatchString headFieldNamePattern s1 && negb (s1 =? escapeChar)%string)
    eqn:E.
  - apply andb_true_iff in E. destruct E as [E _].
    destruct Hr as [(c & -> & Hc)|[Hne Hhigh]].
    + unfold MatchString in E. simpl in E. rewrite orb_false_r in E. eauto.
    + unfold MatchString in E.
      rewrite (anyChar_high headFieldNamePattern s1) in E;
        [discriminate| |assumption].
      auto using tail_is_ascii, head_is_tail.
  - unfold escapeChar. simpl. eexists _, _. split; reflexivity.
Qed.

Lemma escapeFieldLoop_tail fuel input :
  allChars tailFieldNamePattern
    (escapeFieldLoop fuel escapeEncode tailFieldNamePattern input) = true.
Proof.
  revert input. induction fuel as [|fuel IH]; intros input; simpl; [reflexivity|].
  destruct input as [|c0 rest]; [reflexivity|].
  destruct (nextRune c0 rest) as [s1 rest'] eqn:E.
  apply nextRune_spec in E. destruct E as [Hr _].
  rewrite allChars_app, IH, escapeEncode_tail; auto.
Qed.

Lemma escapeFieldLoop_ext fuel (e1 e2 : encodingFunc) p input :
  (forall s1 q, e1 s1 q = e2 s1 q) ->
  escapeFieldLoop fuel e1 p input = escapeFieldLoop fuel e2 p input.
Proof.
  intros He. revert p input.
  induction fuel as [|fuel IH]; intros p input; simpl; [reflexivity|].
  destruct input as [|c0 rest]; [reflexivity|].
  destruct (nextRune c0 rest) as [s1 rest']. rewrite He, IH. reflexivity.
Qed.

(** C6 (amended).  For every input that is not empty, [EscapeStructField]
    yields a valid field name.  An input that is a valid field name and has
    no escape marker in it is returned unchanged; any other input is
    rewritten rune by rune, a rune that is allowed at its place and is not
    the marker being kept, and every other rune, the marker included, being
    replaced by the marker followed by the upper-case hexadecimal form of
    its bytes. *)
Theorem EscapeStructField_valid input :
  (input <> ""%string ->
   IsValidStructFieldName (EscapeStructField input) = true) /\
  (IsValidStructFieldName input = true ->
   MatchString escapeRegex input = false ->
   EscapeStructField input = input) /\
  (negb (MatchString escapeRegex input) && IsValidStructFieldName input = false ->
   EscapeStructField input =
   escapeField input
     (fun s1 p =>
        if MatchString p s1 && negb (String.eqb s1 escapeChar) then s1
        else (escapeChar ++ hexUpper s1)%string)).
Proof.
  unfold EscapeStructField. repeat split.
  - intros Hne.
    destruct (negb (MatchString escapeRegex input) && IsValidStructFieldName input)
      eqn:E.
    + apply andb_true_iff in E. tauto.
    + destruct input as [|c0 rest]; [congruence|].
      unfold escapeField. simpl.
      destruct (nextRune c0 rest) as [s1 rest'] eqn:Er.
      apply nextRune_spec in Er. destruct Er as [Hr _].
      destruct (escapeEncode_head s1 Hr) as (c & r & Ec & Hc).
      pose proof (escapeEncode_tail s1 headFieldNamePattern Hr
                    (fun c => head_is_tail c)) as Ht.
      rewrite Ec in *. simpl in *. rewrite Hc. simpl.
      apply andb_true_iff in Ht. destruct Ht as [_ Ht].
      rewrite allChars_app, Ht, escapeFieldLoop_tail. reflexivity.
  - intros Hv Hq. rewrite Hv, Hq. reflexivity.
  - intros ->. unfold escapeField. apply escapeFieldLoop_ext.
    intros. apply escapeEncode_eq.
Qed.

Lemma escapeFieldLoop_fuel f1 : forall f2 e p input,
  String.length input <= f1 -> String.length input <= f2 ->
  escapeFieldLoop f1 e p input = escapeFieldLoop f2 e p input.
Proof.
  induction f1 as [|f1 IH]; intros f2 e p input H1 H2;
    destruct input as [|c0 rest]; destruct f2 as [|f2]; simpl in *;
    try reflexivity; try lia.
  destruct (nextRune c0 rest) as [s1 rest'] eqn:E.
  apply nextRune_spec in E. destruct E as [_ Hlen].
  f_equal. apply IH; lia.
Qed.

(** ** Cycle references *)

Lemma seenWithin_weaken seen S0 S1 :
  seenWithin seen S0 -> seenWithin seen (S0 ++ S1).
Proof. intros H name id E. apply in_or_app. left. eauto. Qed.

Lemma refsWithin_weaken_l refs S0 S1 :
  refsWithin refs S0 -> refsWithin refs (S0 ++ S1).
Proof.
  intros H id Hin. destruct (H id Hin) as [name Hn].
  exists name. apply in_or_app. auto.
Qed.

Lemma refsWithin_weaken_r refs S0 S1 :
  refsWithin refs S1 -> refsWithin refs (S0 ++ S1).
Proof.
  intros H id Hin. destruct (H id Hin) as [name Hn].
  exists name. apply in_or_app. auto.
Qed.

Lemma refsWithin_app r1 r2 S0 :
  refsWithin r1 S0 -> refsWithin r2 S0 -> refsWithin (r1 ++ r2) S0.
Proof.
  intros H1 H2 id Hin. apply in_app_or in Hin. destruct Hin; eauto.
Qed.

Lemma refsWithin_nil S0 : refsWithin [] S0.
Proof. intros id []. Qed.

Lemma repeatS_typeReadSound rd n :
  typeReadSound rd ->
  forall seen b p ts seen' q S0,
    repeatS n rd seen b p = Ok ((ts, seen'), q) ->
    seenWithin seen S0 ->
    refsWithin (flat_map typeRefsOf ts) (S0 ++ flat_map structsOf ts) /\
    seenWithin seen' (S0 ++ flat_map structsOf ts).
Proof.
  intros Hrd. induction n as [|n IH]; simpl; intros seen b p ts seen' q S0 H Hs.
  - unfold ret in H. injection H as <- <- <-. simpl. rewrite app_nil_r.
    split; [apply refsWithin_nil|assumption].
  - apply bind_Ok in H. destruct H as ([t seen1] & q1 & Ht & H).
    apply bind_Ok in H. destruct H as ([ts' seen2] & q2 & Hts & H).
    unfold ret in H. injection H as <- <- <-.
    destruct (Hrd _ _ _ _ _ _ _ Ht Hs) as [Hr1 Hs1].
    destruct (IH _ _ _ _ _ _ _ Hts Hs1) as [Hr2 Hs2].
    simpl. rewrite app_assoc. split; [|assumption].
    apply refsWithin_app; [|assumption].
    apply refsWithin_weaken_l. assumption.
Qed.

Lemma repeatS_length {S A} (body : S -> Dec (A * S)) n s b p xs s' q :
  repeatS n body s b p = Ok ((xs, s'), q) -> length xs = n.
Proof.
  revert s p xs s' q. induction n as [|n IH]; simpl; intros s p xs s' q H.
  - unfold ret in H. injection H as <- _ _. reflexivity.
  - apply bind_Ok in H. destruct H as ([x s1] & q1 & _ & H).
    apply bind_Ok in H. destruct H as ([xs' s2] & q2 & H2 & H).
    unfold ret in H. injection H as <- _ _. simpl. f_equal. eauto.
Qed.

Lemma flat_map_makeFields {B} (g : NomsType -> list B) types :
  forall names optional,
    length names = length types -> length optional = length types ->
    flat_map (fun f : string * NomsType * bool => let '(_, ft, _) := f in g ft)
             (makeFields names types optional)
    = flat_map g types.
Proof.
  unfold makeFields.
  induction types as [|t types IH]; intros [|n names] [|o optional] Hn Ho;
    simpl in *; try discriminate; try reflexivity.
  f_equal. apply IH; lia.
Qed.

Lemma readTypeInnerF_sound f : typeReadSound (readTypeInnerF f).
Proof.
  induction f as [|f IH]; intros seen b p t seen' q S0 H Hs; simpl in H;
    [discriminate|].
  apply bind_Ok in H. destruct H as (k & p1 & Hk & H).
  destruct k as [[]|]; try discriminate.
  - (* Bool *) inv_bind H. simpl. rewrite app_nil_r.
    split; [apply refsWithin_nil|assumption].
  - (* Number *) inv_bind H. simpl. rewrite app_nil_r.
    split; [apply refsWithin_nil|assumption].
  - (* String *) inv_bind H. simpl. rewrite app_nil_r.
    split; [apply refsWithin_nil|assumption].
  - (* Blob *) inv_bind H. simpl. rewrite app_nil_r.
    split; [apply refsWithin_nil|assumption].
  - (* Value *) inv_bind H. simpl. rewrite app_nil_r.
    split; [apply refsWithin_nil|assumption].
  - (* List *)
    apply bind_Ok in H. destruct H as ([t1 seen1] & q1 & H1 & H).
    unfold ret in H. injection H as <- <- <-. simpl. rewrite !app_nil_r. eauto.
  - (* Map *)
    apply bind_Ok in H. destruct H as ([t1 seen1] & q1 & H1 & H).
    apply bind_Ok in H. destruct H as ([t2 seen2] & q2 & H2 & H).
    unfold ret in H. injection H as <- <- <-. simpl. rewrite !app_nil_r.
    destruct (IH _ _ _ _ _ _ _ H1 Hs) as [Hr1 Hs1].
    destruct (IH _ _ _ _ _ _ _ H2 Hs1) as [Hr2 Hs2].
    rewrite app_assoc. split; [|assumption].
    apply refsWithin_app; [apply refsWithin_weaken_l|]; assumption.
  - (* Ref *)
    apply bind_Ok in H. destruct H as ([t1 seen1] & q1 & H1 & H).
    unfold ret in H. injection H as <- <- <-. simpl. rewrite !app_nil_r. eauto.
  - (* Set *)
    apply bind_Ok in H. destruct H as ([t1 seen1] & q1 & H1 & H).
    unfold ret in H. injection H as <- <- <-. simpl. rewrite !app_nil_r. eauto.
  - (* Struct *)
    unfold readStructType in H.
    apply bind_Ok in H. destruct H as (name & q1 & Hname & H).
    apply bind_Ok in H. destruct H as (count & q2 & Hcount & H).
    apply bind_Ok in H. destruct H as (names & q3 & Hnames & H).
    apply bind_Ok in H. destruct H as ([types seen2] & q4 & Htypes & H).
    apply bind_Ok in H. destruct H as (optional & q5 & Hopt & H).
    unfold ret in H. injection H as <- <- <-.
    apply repeatM_length in Hnames, Hopt.
    pose proof (repeatS_length _ _ _ _ _ _ _ _ Htypes) as Hlen.
    simpl. rewrite !flat_map_makeFields by congruence.
    eapply (repeatS_typeReadSound _ _ IH) with (S0 := S0 ++ [(nextId seen, name)])
      in Htypes.
    + rewrite <- app_assoc in Htypes. exact Htypes.
    + intros n id E. simpl in E. apply in_or_app.
      destruct (decide (name = n)) as [->|Hne].
      * rewrite lookup_insert_eq in E. injection E as <-. right. left. reflexivity.
      * rewrite lookup_insert_ne in E by assumption. left. eauto.
  - (* Cycle *)
    apply bind_Ok in H. destruct H as (name & q1 & Hname & H).
    apply bind_Ok in H. destruct H as ([] & q2 & Hne & H).
    destruct (seenStructs seen !! name) as [id|] eqn:E; [|discriminate].
    unfold ret in H. injection H as <- <- <-. simpl. rewrite app_nil_r.
    split; [|assumption].
    intros id' [<-|[]]. exists name. eauto.
  - (* Type *) inv_bind H. simpl. rewrite app_nil_r.
    split; [apply refsWithin_nil|assumption].
  - (* Union *)
    unfold readUnionType in H.
    apply bind_Ok in H. destruct H as (l & q1 & Hl & H).
    apply bind_Ok in H. destruct H as ([ts seen1] & q2 & Hts & H).
    unfold ret in H. injection H as <- <- <-. simpl.
    eapply (repeatS_typeReadSound _ _ IH); eauto.
Qed.


(** ** Construction in canonical order *)

Lemma compare_refl a : String.compare a a = Eq.
Proof.
  pose proof (String.compare_antisym a a) as H.
  destruct (String.compare a a); simpl in H; congruence.
Qed.

Lemma ltb_le_ne a b : String.ltb a b = true <-> String.le a b /\ a <> b.
Proof.
  unfold String.le, String.ltb, String.leb.
  destruct (String.compare a b) eqn:E; simpl.
  - apply String.compare_eq_iff in E. subst. split; [discriminate|tauto].
  - split; [|reflexivity]. intros _. split; [exact I|].
    intros ->. rewrite compare_refl in E. discriminate.
  - split; [discriminate|]. intros [[] _].
Qed.

Lemma strictlyBefore_trans a b c :
  strictlyBefore a b -> strictlyBefore b c -> strictlyBefore a c.
Proof.
  unfold strictlyBefore. rewrite !ltb_le_ne. intros [H1 N1] [H2 N2]. split.
  - etrans; eassumption.
  - intros ->. apply N1. apply (anti_symm String.le); assumption.
Qed.

Lemma strictlyBefore_irrefl a : ~ strictlyBefore a a.
Proof. unfold strictlyBefore. rewrite ltb_le_ne. tauto. Qed.

Lemma sortStrings_Permutation l : sortStrings l ≡ₚ l.
Proof. apply merge_sort_Permutation. Qed.

Lemma sortStrings_perm_eq l1 l2 : l1 ≡ₚ l2 -> sortStrings l1 = sortStrings l2.
Proof.
  intros H. unfold sortStrings.
  apply (Sorted_unique String.le); try apply Sorted_merge_sort; try apply _.
  rewrite !merge_sort_Permutation. exact H.
Qed.

Lemma sortStrings_ascending l : NoDup l -> ascending (sortStrings l).
Proof.
  intros Hnd.
  assert (Hs : StronglySorted String.le (sortStrings l))
    by (apply StronglySorted_merge_sort; apply _).
  assert (Hnd' : NoDup (sortStrings l))
    by (rewrite sortStrings_Permutation; exact Hnd).
  unfold ascending. induction Hs as [|x xs Hs IH Hx]; constructor.
  - apply IH. apply NoDup_cons in Hnd'. tauto.
  - apply NoDup_cons in Hnd'. destruct Hnd' as [Hx' _].
    rewrite List.Forall_forall in *. intros y Hy.
    apply ltb_le_ne. split; [auto|].
    intros ->. apply Hx'. apply list_elem_of_In. exact Hy.
Qed.

Lemma verifyFieldNames_Ok names :
  verifyFieldNames names = Ok tt <->
  Forall (fun n => IsValidStructFieldName n = true) names.
Proof.
  induction names as [|n names IH]; simpl.
  - split; [constructor|reflexivity].
  - unfold verifyFieldName.
    destruct (IsValidStructFieldName n) eqn:E; simpl.
    + rewrite IH. split; [constructor; assumption|].
      intros H. inversion H; assumption.
    + split; [discriminate|]. intros H. inversion H; congruence.
Qed.

Lemma verifyFieldNames_cases names :
  verifyFieldNames names = Ok tt \/ verifyFieldNames names = Panic.
Proof.
  induction names as [|n names IH]; simpl; [auto|].
  unfold verifyFieldName. destruct (IsValidStructFieldName n); simpl; auto.
Qed.

Lemma verifyFieldNames_perm l1 l2 :
  l1 ≡ₚ l2 -> verifyFieldNames l1 = verifyFieldNames l2.
Proof.
  intros H.
  destruct (verifyFieldNames_cases l1) as [E1|E1],
           (verifyFieldNames_cases l2) as [E2|E2]; try congruence.
  - apply verifyFieldNames_Ok in E1. rewrite H in E1.
    apply verifyFieldNames_Ok in E1. congruence.
  - apply verifyFieldNames_Ok in E2. rewrite <- H in E2.
    apply verifyFieldNames_Ok in E2. congruence.
Qed.

Lemma writeFields_encode names : forall values w,
  length names = length values ->
  writeFields names values w = Ok (w ++ encodeFields (combine names values)).
Proof.
  induction names as [|n names IH]; intros [|v values] w Hlen;
    simpl in *; try discriminate.
  - rewrite app_nil_r. reflexivity.
  - rewrite IH by lia. rewrite <- !app_assoc. reflexivity.
Qed.

Lemma lookupValues_Ok (data : gmap string EncodedValue) names values :
  lookupValues data names = Ok values ->
  Forall2 (fun n v => data !! n = Some v) names values.
Proof.
  revert values. induction names as [|n names IH]; simpl; intros values H.
  - injection H as <-. constructor.
  - destruct (data !! n) as [v|] eqn:E; [|discriminate].
    apply bindR_Ok in H. destruct H as (vs & Hvs & H). injection H as <-.
    constructor; auto.
Qed.

Lemma lookupValues_total (data : gmap string EncodedValue) names :
  Forall (fun n => is_Some (data !! n)) names ->
  exists values, lookupValues data names = Ok values.
Proof.
  induction 1 as [|n names [v Hv] _ [vs IH]]; simpl; [eauto|].
  rewrite Hv, IH. simpl. eauto.
Qed.

(** C2.  Take a struct name and a mapping [data], and two orders [enum1]
    and [enum2] in which the Go map may enumerate its keys.  [NewStruct]
    gives the same result for both, byte for byte, and panics for both or
    for neither.  When it returns a struct, the buffer is the wire form of
    the fields of [data] in strictly ascending order of their names,
    whatever the enumeration order was; and it does return one when the
    struct name and the field names are valid. *)
Theorem NewStruct_canonical name (data : gmap string EncodedValue) enum1 enum2 :
  enum1 ≡ₚ (map_to_list data).*1 ->
  enum2 ≡ₚ (map_to_list data).*1 ->
  NewStruct enum1 name data = NewStruct enum2 name data /\
  (forall s, NewStruct enum1 name data = Ok s ->
     exists fields,
       buff s = encodeStruct name fields /\
       ascending (map fst fields) /\
       forall n v, In (n, v) fields <-> data !! n = Some v) /\
  (verifyStructName name = Ok tt ->
   (forall n, In n enum1 -> IsValidStructFieldName n = true) ->
   exists s, NewStruct enum1 name data = Ok s).
Proof.
  intros H1 H2.
  assert (H12 : enum1 ≡ₚ enum2) by (rewrite H1, H2; reflexivity).
  assert (Hnd : NoDup enum1) by (rewrite H1; apply NoDup_fst_map_to_list).
  assert (Hkeys : forall n, In n (sortStrings enum1) <-> is_Some (data !! n)).
  { intros n. rewrite <- list_elem_of_In, sortStrings_Permutation, H1.
    rewrite list_elem_of_fmap. split.
    - intros ([n' v] & -> & Hin). apply elem_of_map_to_list in Hin. eauto.
    - intros [v Hv]. exists (n, v). split; [reflexivity|].
      apply elem_of_map_to_list. exact Hv. }
  split; [|split].
  - unfold NewStruct.
    rewrite (verifyFieldNames_perm _ _ H12), (sortStrings_perm_eq _ _ H12).
    reflexivity.
  - intros s H. unfold NewStruct in H.
    apply bindR_Ok in H. destruct H as ([] & _ & H).
    apply bindR_Ok in H. destruct H as ([] & _ & H).
    apply bindR_Ok in H. destruct H as (values & Hv & H).
    apply lookupValues_Ok in Hv.
    unfold newStruct in H.
    rewrite writeFields_encode in H by (eapply Forall2_length; eauto).
    simpl in H. injection H as <-.
    exists (combine (sortStrings enum1) values). simpl.
    assert (Hfst : map fst (combine (sortStrings enum1) values)
                   = sortStrings enum1).
    { clear -Hv. induction Hv; simpl; congruence. }
    split; [|split].
    + unfold encodeStruct. rewrite length_combine.
      rewrite <- (Forall2_length _ _ _ Hv), Nat.min_id.
      rewrite <- !app_assoc. reflexivity.
    + rewrite Hfst. apply sortStrings_ascending. exact Hnd.
    + intros n v. split.
      * intros Hin. clear -Hin Hv.
        induction Hv as [|n' v' ns vs E Hv IH]; simpl in Hin; [destruct Hin|].
        destruct Hin as [Heq|Hin]; [congruence|auto].
      * intros E.
        assert (Hn : In n (sortStrings enum1)) by (apply Hkeys; eauto).
        clear -Hn Hv E.
        induction Hv as [|n' v' ns vs E' Hv IH]; simpl in *; [destruct Hn|].
        destruct Hn as [->|Hn]; [left; congruence|auto].
  - intros Hname Hvalid. unfold NewStruct. rewrite Hname. simpl.
    assert (Hf : verifyFieldNames enum1 = Ok tt).
    { apply verifyFieldNames_Ok. apply List.Forall_forall. exact Hvalid. }
    rewrite Hf. simpl.
    destruct (lookupValues_total data (sortStrings enum1)) as [values Hv].
    { apply List.Forall_forall. intros n Hn. apply Hkeys. exact Hn. }
    rewrite Hv. simpl. unfold newStruct.
    rewrite writeFields_encode
      by (eapply Forall2_length; eapply lookupValues_Ok; eauto).
    simpl. eauto.
Qed.

(** ** Writing and reading back the primitives *)

Lemma to_N_byteOfN x : (x < 256)%N -> Byte.to_N (byteOfN x) = x.
Proof.
  intros H. unfold byteOfN.
  destruct (Byte.of_N x) as [c|] eqn:E.
  - apply Byte.to_of_N. exact E.
  - apply Byte.of_N_None_iff in E. lia.
Qed.

Lemma nth_error_middle {A} (pre : list A) x rest :
  nth_error (pre ++ x :: rest) (length pre) = Some x.
Proof. induction pre; simpl; auto. Qed.

Lemma byteSlice_middle (pre mid post : list byte) :
  byteSlice (pre ++ mid ++ post) (length pre) (length pre + length mid) = mid.
Proof.
  unfold byteSlice.
  replace (length pre + length mid - length pre) with (length mid) by lia.
  rewrite skipn_app, Nat.sub_diag, skipn_all. simpl.
  change (drop 0 (mid ++ post)) with (mid ++ post).
  rewrite firstn_app, Nat.sub_diag, firstn_all. simpl. apply app_nil_r.
Qed.

Lemma pow2_split (n : N) : (2 ^ (n + 7) = 128 * 2 ^ n)%N.
Proof. rewrite N.pow_add_r. change (2 ^ 7)%N with 128%N. lia. Qed.

Lemma readUvarint_write n : forall v shift acc pre post,
  0 < n ->
  (64 * v < 2 ^ (7 * N.of_nat n))%N ->
  readUvarint n shift acc (pre ++ writeUvarint n v ++ post) (length pre)
  = Ok ((acc + v * 2 ^ shift)%N, length pre + length (writeUvarint n v)).
Proof.
  induction n as [|n IH]; intros v shift acc pre post Hn Hv.
  - lia.
  - cbn [readUvarint writeUvarint].
    destruct (v <? 128)%N eqn:Ev.
    + apply N.ltb_lt in Ev. cbn [app length].
      rewrite nth_error_middle, to_N_byteOfN by lia.
      apply N.ltb_lt in Ev. rewrite Ev.
      destruct (Nat.eqb n 0) eqn:En; simpl.
      * apply Nat.eqb_eq in En. subst n.
        change (2 ^ (7 * N.of_nat 1))%N with 128%N in Hv.
        replace (1 <? v)%N with false by (symmetry; apply N.ltb_ge; lia).
        f_equal. f_equal. lia.
      * f_equal. f_equal. lia.
    + apply N.ltb_ge in Ev.
      assert (Hm : (v mod 128 < 128)%N) by (apply N.mod_lt; discriminate).
      pose proof (N.div_mod v 128 ltac:(discriminate)) as Hdm.
      set (r := (v mod 128)%N) in *. set (d := (v / 128)%N) in *.
      clearbody r d.
      cbn [app length].
      rewrite nth_error_middle, to_N_byteOfN by lia.
      replace (r + 128 <? 128)%N with false
        by (symmetry; apply N.ltb_ge; lia).
      replace (pre ++ byteOfN (r + 128) :: writeUvarint n d ++ post)
        with ((pre ++ [byteOfN (r + 128)]) ++ writeUvarint n d ++ post)
        by (rewrite <- app_assoc; reflexivity).
      replace (S (length pre)) with (length (pre ++ [byteOfN (r + 128)]))
        by (rewrite length_app; simpl; lia).
      assert (Hn' : 0 < n).
      { destruct n; [|lia].
        change (2 ^ (7 * N.of_nat 1))%N with 128%N in Hv. lia. }
      rewrite IH; [| exact Hn' |].
      * f_equal. f_equal; [|rewrite length_app; simpl; lia].
        rewrite pow2_split.
        replace (r + 128 - 128)%N with r by lia.
        rewrite Hdm. ring.
      * replace (7 * N.of_nat (S n))%N with (7 * N.of_nat n + 7)%N in Hv by lia.
        rewrite pow2_split in Hv. lia.
Qed.

Lemma readCount_write v pre post :
  (v < 2 ^ 64)%N ->
  readCount (pre ++ writeCount v ++ post) (length pre)
  = Ok (v, length pre + length (writeCount v)).
Proof.
  intros Hv. unfold readCount, writeCount.
  rewrite N.mod_small by exact Hv.
  rewrite readUvarint_write.
  - f_equal. f_equal. lia.
  - unfold MaxVarintLen64. lia.
  - change (2 ^ (7 * N.of_nat MaxVarintLen64))%N with (64 * 2 ^ 64)%N. lia.
Qed.

Lemma writeUvarint_length n v : 0 < n -> 0 < length (writeUvarint n v).
Proof.
  destruct n; [lia|]. intros _. simpl.
  destruct (v <? 128)%N; simpl; lia.
Qed.

Lemma writeCount_length v : 0 < length (writeCount v).
Proof. apply writeUvarint_length. unfold MaxVarintLen64. lia. Qed.

Lemma length_list_byte_of_string s :
  length (list_byte_of_string s) = String.length s.
Proof.
  unfold list_byte_of_string. rewrite length_map.
  induction s; simpl; auto.
Qed.

Lemma readString_write s pre post :
  goLen (String.length s) ->
  readString (pre ++ writeString s ++ post) (length pre)
  = Ok (s, length pre + length (writeString s)).
Proof.
  unfold goLen. intros Hs. unfold readString, writeString.
  rewrite <- (app_assoc (writeCount _)).
  erewrite bind_Ok_eq
    by (apply readCount_write; change (2 ^ 64)%N with (2 * 2 ^ 63)%N; lia).
  rewrite Nat2N.id.
  rewrite !length_app, length_list_byte_of_string.
  replace (length pre + length (writeCount (N.of_nat (String.length s)))
           + String.length s <=?
           length pre + (length (writeCount (N.of_nat (String.length s)))
           + (String.length s + length post))) with true
    by (symmetry; apply Nat.leb_le; lia).
  rewrite (app_assoc pre).
  rewrite <- (length_app pre), <- (length_list_byte_of_string s).
  rewrite byteSlice_middle, string_of_list_byte_of_string.
  f_equal. f_equal. rewrite length_app. lia.
Qed.

Lemma skipString_write s pre post :
  goLen (String.length s) ->
  skipString (pre ++ writeString s ++ post) (length pre)
  = Ok (tt, length pre + length (writeString s)).
Proof.
  unfold goLen. intros Hs. unfold skipString, writeString.
  rewrite <- (app_assoc (writeCount _)).
  erewrite bind_Ok_eq
    by (apply readCount_write; change (2 ^ 64)%N with (2 * 2 ^ 63)%N; lia).
  rewrite Nat2N.id, length_app, length_list_byte_of_string.
  f_equal. f_equal. lia.
Qed.

(** ** Decoding inside a larger span *)

Section Locality.

Variables pre post : list byte.

Lemma sim_ret {A} (R : A -> A -> Prop) a a' :
  R a a' -> Sim R pre post (ret a) (ret a').
Proof.
  intros HR e i x j H. unfold ret in *. injection H as <- <-. eauto.
Qed.

Lemma sim_bind {A B} (R : A -> A -> Prop) (R' : B -> B -> Prop)
  (m m' : Dec A) (k k' : A -> Dec B) :
  Sim R pre post m m' ->
  (forall a a', R a a' -> Sim R' pre post (k a) (k' a')) ->
  Sim R' pre post (bind m k) (bind m' k').
Proof.
  intros Hm Hk e i b j H.
  apply bind_Ok in H. destruct H as (a & q & H1 & H2).
  destruct (Hm _ _ _ _ H1) as (a' & E1 & HR).
  destruct (Hk _ _ HR _ _ _ _ H2) as (b' & E2 & HR').
  exists b'. split; [|exact HR'].
  rewrite (bind_Ok_eq _ _ _ _ _ _ E1). exact E2.
Qed.

Lemma sim_bind_eq {A B} (R' : B -> B -> Prop)
  (m m' : Dec A) (k k' : A -> Dec B) :
  Sim eq pre post m m' ->
  (forall a, Sim R' pre post (k a) (k' a)) ->
  Sim R' pre post (bind m k) (bind m' k').
Proof.
  intros Hm Hk. eapply sim_bind; [exact Hm|]. intros a a' <-. apply Hk.
Qed.

Lemma sim_panic {A} (R : A -> A -> Prop) m' : Sim R pre post panic m'.
Proof. intros e i a j H. discriminate. Qed.

Lemma sim_outOfFuel {A} (R : A -> A -> Prop) m' :
  Sim R pre post outOfFuel m'.
Proof. intros e i a j H. discriminate. Qed.

Lemma sim_weaken {A} (R R' : A -> A -> Prop) m m' :
  (forall a a', R a a' -> R' a a') ->
  Sim R pre post m m' -> Sim R' pre post m m'.
Proof.
  intros HR Hm e i a j H. destruct (Hm _ _ _ _ H) as (a' & E & Ha). eauto.
Qed.

Lemma nth_error_embed (e : list byte) i c :
  nth_error e i = Some c ->
  nth_error (pre ++ e ++ post) (length pre + i) = Some c.
Proof.
  intros H. rewrite nth_error_app2 by lia.
  replace (length pre + i - length pre) with i by lia.
  rewrite nth_error_app1; [exact H|].
  apply nth_error_Some. congruence.
Qed.

Lemma byteSlice_embed (e : list byte) i n :
  i + n <= length e ->
  byteSlice (pre ++ e ++ post) (length pre + i) (length pre + (i + n))
  = byteSlice e i (i + n).
Proof.
  intros H. unfold byteSlice.
  replace (length pre + (i + n) - (length pre + i)) with n by lia.
  replace (i + n - i) with n by lia.
  rewrite skipn_app.
  replace (length pre + i - length pre) with i by lia.
  rewrite skipn_all2 by lia. simpl.
  rewrite skipn_app, firstn_app.
  rewrite length_skipn.
  replace (n - (length e - i)) with 0 by lia.
  simpl. apply app_nil_r.
Qed.

Lemma sim_readUint8 : Sim eq pre post readUint8 readUint8.
Proof.
  intros e i c j H. unfold readUint8 in *.
  destruct (nth_error e i) as [c0|] eqn:E; [|discriminate].
  injection H as <- <-. rewrite (nth_error_embed _ _ _ E).
  exists c0. split; [f_equal; f_equal; lia|reflexivity].
Qed.

Lemma sim_readUvarint n : forall shift acc,
  Sim eq pre post (readUvarint n shift acc) (readUvarint n shift acc).
Proof.
  induction n as [|n IH]; intros shift acc e i v j H; simpl in *;
    [discriminate|].
  destruct (nth_error e i) as [c|] eqn:E; [|discriminate].
  rewrite (nth_error_embed _ _ _ E).
  destruct (Byte.to_N c <? 128)%N.
  - destruct (Nat.eqb n 0 && (1 <? Byte.to_N c)%N); [discriminate|].
    injection H as <- <-. eexists. split; [|reflexivity].
    f_equal. f_equal. lia.
  - replace (S (length pre + i)) with (length pre + S i) by lia.
    apply IH. exact H.
Qed.

Lemma sim_readCount : Sim eq pre post readCount readCount.
Proof. apply sim_readUvarint. Qed.

Lemma sim_skipKind : Sim eq pre post skipKind skipKind.
Proof.
  intros e i a j H. unfold skipKind in *. injection H as <- <-.
  exists tt. split; [f_equal; f_equal; lia|reflexivity].
Qed.

Lemma sim_readKind : Sim eq pre post readKind readKind.
Proof.
  unfold readKind. apply sim_bind_eq; [apply sim_readUint8|].
  intros c. apply sim_ret. reflexivity.
Qed.

Lemma sim_readBool : Sim eq pre post readBool readBool.
Proof.
  unfold readBool. apply sim_bind_eq; [apply sim_readUint8|].
  intros c. apply sim_ret. reflexivity.
Qed.

Lemma sim_readNumber : Sim eq pre post readNumber readNumber.
Proof.
  unfold readNumber.
  apply sim_bind_eq; [apply sim_readCount|]. intros a.
  apply sim_bind_eq; [apply sim_readCount|]. intros b.
  apply sim_ret. reflexivity.
Qed.

Lemma sim_slice (n : nat) :
  Sim eq pre post
    (fun b p => let e := p + n in
                if e <=? length b then Ok (byteSlice b p e, e) else Panic)
    (fun b p => let e := p + n in
                if e <=? length b then Ok (byteSlice b p e, e) else Panic).
Proof.
  intros e i a j H. cbv zeta in *.
  destruct (i + n <=? length e) eqn:E; [|discriminate].
  apply Nat.leb_le in E. injection H as <- <-.
  replace (length pre + i + n <=? length (pre ++ e ++ post)) with true
    by (symmetry; apply Nat.leb_le; rewrite !length_app; lia).
  exists (byteSlice e i (i + n)). split; [|reflexivity].
  rewrite <- Nat.add_assoc. rewrite byteSlice_embed by exact E. reflexivity.
Qed.

Lemma sim_advance (n : nat) :
  Sim eq pre post (fun _ p => Ok (tt, p + n)) (fun _ p => Ok (tt, p + n)).
Proof.
  intros e i a j H. injection H as <- <-.
  exists tt. split; [f_equal; f_equal; lia|reflexivity].
Qed.

Lemma sim_readString : Sim eq pre post readString readString.
Proof.
  unfold readString. apply sim_bind_eq; [apply sim_readCount|].
  intros n e i a j H.
  destruct (sim_slice (N.to_nat n) e i (byteSlice e i (i + N.to_nat n)) j)
    as (a' & E & <-).
  - cbv zeta. destruct (i + N.to_nat n <=? length e); [|discriminate].
    injection H as _ <-. reflexivity.
  - cbv zeta in *.
    destruct (length pre + i + N.to_nat n <=? length (pre ++ e ++ post));
      [|discriminate].
    destruct (i + N.to_nat n <=? length e); [|discriminate].
    injection H as <- <-. injection E as E1 E2.
    eexists. split; [|reflexivity]. rewrite E1. f_equal. f_equal. lia.
Qed.

Lemma sim_skipString : Sim eq pre post skipString skipString.
Proof.
  unfold skipString. apply sim_bind_eq; [apply sim_readCount|].
  intros n. apply sim_advance.
Qed.

Lemma sim_readHash : Sim eq pre post readHash readHash.
Proof. apply sim_slice. Qed.

Lemma sim_skipHash : Sim eq pre post skipHash skipHash.
Proof. apply sim_advance. Qed.

Lemma sim_readBytes : Sim eq pre post readBytes readBytes.
Proof.
  unfold readBytes. apply sim_bind_eq; [apply sim_readCount|].
  intros n. apply sim_slice.
Qed.

Lemma sim_skipBytes : Sim eq pre post skipBytes skipBytes.
Proof.
  unfold skipBytes. apply sim_bind_eq; [apply sim_readCount|].
  intros n. apply sim_advance.
Qed.

Lemma sim_PanicIfFalse c : Sim eq pre post (PanicIfFalse c) (PanicIfFalse c).
Proof.
  unfold PanicIfFalse. destruct c; [apply sim_ret; reflexivity|apply sim_panic].
Qed.

Lemma sim_PanicIfTrue c : Sim eq pre post (PanicIfTrue c) (PanicIfTrue c).
Proof.
  unfold PanicIfTrue. destruct c; [apply sim_panic|apply sim_ret; reflexivity].
Qed.

Lemma sim_pos :
  Sim (fun o o' => o' = length pre + o) pre post pos pos.
Proof.
  intros e i a j H. unfold pos in *. injection H as <- <-. eauto.
Qed.

Lemma sim_repeatM {A} (R : A -> A -> Prop) (body body' : Dec A) n :
  Sim R pre post body body' ->
  Sim (Forall2 R) pre post (repeatM n body) (repeatM n body').
Proof.
  intros Hb. induction n as [|n IH]; simpl.
  - apply sim_ret. constructor.
  - eapply sim_bind; [exact Hb|]. intros x x' Hx.
    eapply sim_bind; [exact IH|]. intros xs xs' Hxs.
    apply sim_ret. constructor; assumption.
Qed.

Lemma sim_repeatM_eq {A} (body body' : Dec A) n :
  Sim eq pre post body body' ->
  Sim eq pre post (repeatM n body) (repeatM n body').
Proof.
  intros Hb. induction n as [|n IH]; simpl.
  - apply sim_ret. reflexivity.
  - eapply sim_bind_eq; [exact Hb|]. intros x.
    eapply sim_bind_eq; [exact IH|]. intros xs.
    apply sim_ret. reflexivity.
Qed.

Lemma sim_timesM (body body' : Dec unit) n :
  Sim eq pre post body body' ->
  Sim eq pre post (timesM n body) (timesM n body').
Proof.
  intros Hb. induction n as [|n IH]; simpl.
  - apply sim_ret. reflexivity.
  - eapply sim_bind_eq; [exact Hb|]. intros _. exact IH.
Qed.

Lemma sim_repeatS {S A} (body body' : S -> Dec (A * S)) n :
  (forall s, Sim eq pre post (body s) (body' s)) ->
  forall s, Sim eq pre post (repeatS n body s) (repeatS n body' s).
Proof.
  intros Hb. induction n as [|n IH]; simpl; intros s.
  - apply sim_ret. reflexivity.
  - eapply sim_bind_eq; [apply Hb|]. intros [x s1].
    eapply sim_bind_eq; [apply IH|]. intros [xs s2].
    apply sim_ret. reflexivity.
Qed.

End Locality.

Section LocalityOfDecoder.

Variables pre post : list byte.

(** Goes through the structure of a piece of decoder code made of steps
    whose results are related by equality. *)
Ltac sim_eq IH :=
  repeat first
    [ apply sim_panic | apply sim_outOfFuel
    | apply sim_ret; reflexivity
    | apply sim_readCount | apply sim_readString | apply sim_skipString
    | apply sim_readBool | apply sim_readKind | apply sim_readNumber
    | apply sim_readHash | apply sim_skipHash
    | apply sim_readBytes | apply sim_skipBytes
    | apply sim_PanicIfFalse | apply sim_PanicIfTrue
    | solve [IH]
    | apply sim_bind_eq; [|intros]
    | apply sim_timesM | apply sim_repeatM_eq | apply sim_repeatS; intros
    | match goal with
      | |- Sim _ _ _ (match ?x with _ => _ end) _ => destruct x
      end ].

Lemma sim_readTypeInnerF f : forall f', f <= f' -> forall seen,
  Sim eq pre post (readTypeInnerF f seen) (readTypeInnerF f' seen).
Proof.
  induction f as [|f IH]; intros f' Hle seen.
  - apply sim_outOfFuel.
  - destruct f' as [|f']; [lia|]. simpl.
    unfold readStructType, readUnionType.
    sim_eq ltac:(apply IH; lia).
Qed.

Lemma sim_skipTypeInnerF f : forall f', f <= f' ->
  Sim eq pre post (skipTypeInnerF f) (skipTypeInnerF f').
Proof.
  induction f as [|f IH]; intros f' Hle.
  - apply sim_outOfFuel.
  - destruct f' as [|f']; [lia|]. simpl.
    unfold skipStructType, skipUnionType.
    sim_eq ltac:(apply IH; lia).
Qed.

Lemma sim_readTypeF validating f f' : f <= f' ->
  Sim eq pre post (readTypeF validating f) (readTypeF validating f').
Proof.
  intros Hle. unfold readTypeF.
  sim_eq ltac:(apply sim_readTypeInnerF; lia).
Qed.

Lemma sim_skipTypeF validating f f' : f <= f' ->
  Sim eq pre post (skipTypeF validating f) (skipTypeF validating f').
Proof.
  intros Hle. unfold skipTypeF.
  sim_eq ltac:(first [apply sim_readTypeF; lia|apply sim_skipTypeInnerF; lia]).
Qed.

Lemma sim_skipValueF validating f : forall f', f <= f' ->
  Sim eq pre post (skipValueF validating f) (skipValueF validating f').
Proof.
  induction f as [|f IH]; intros f' Hle.
  - apply sim_outOfFuel.
  - destruct f' as [|f']; [lia|]. simpl.
    unfold skipMetaSequence, skipBlobLeafSequence, skipListLeafSequence,
      skipMapLeafSequence, skipSetLeafSequence, skipValueSequence,
      skipStruct, skipRef.
    sim_eq ltac:(first [apply IH; lia|apply sim_skipTypeF; lia]).
Qed.

Lemma sim_any {A} (R : A -> A -> Prop) (m m' : Dec A) :
  Sim R pre post m m' -> Sim anyR pre post m m'.
Proof. apply sim_weaken. intros; exact I. Qed.

Lemma sim_readMetaSequence (rv rv' : Dec Value) k level :
  Sim sameRef pre post rv rv' ->
  Sim anyR pre post (readMetaSequence rv k level) (readMetaSequence rv' k level).
Proof.
  intros Hrv. unfold readMetaSequence.
  apply sim_bind_eq; [apply sim_readCount|]. intros count.
  eapply sim_bind.
  - apply (sim_repeatM pre post anyR). unfold readMetaTuple.
    eapply sim_bind; [exact Hrv|]. intros ref ref' Href.
    unfold sameRef in Href. rewrite <- Href.
    destruct (asRef ref); [|apply sim_panic].
    eapply sim_bind; [exact Hrv|]. intros v v' Hv.
    apply sim_bind_eq; [apply sim_readCount|]. intros n.
    apply sim_ret. exact I.
  - intros ts ts' _. apply sim_ret. exact I.
Qed.

Lemma sim_readValueSequence (rv rv' : Dec Value) :
  Sim sameRef pre post rv rv' ->
  Sim anyR pre post (readValueSequence rv) (readValueSequence rv').
Proof.
  intros Hrv. unfold readValueSequence.
  apply sim_bind_eq; [apply sim_readCount|]. intros count.
  apply (sim_any (Forall2 sameRef)). apply sim_repeatM. exact Hrv.
Qed.

Lemma sim_readSetLeafSequence (rv rv' : Dec Value) :
  Sim sameRef pre post rv rv' ->
  Sim anyR pre post (readSetLeafSequence rv) (readSetLeafSequence rv').
Proof.
  intros Hrv. unfold readSetLeafSequence.
  eapply sim_bind; [apply sim_readValueSequence; exact Hrv|].
  intros d d' _. apply sim_ret. exact I.
Qed.

Lemma sim_readListLeafSequence (sk sk' : Dec unit) :
  Sim eq pre post sk sk' ->
  Sim anyR pre post (readListLeafSequence sk) (readListLeafSequence sk').
Proof.
  intros Hsk. unfold readListLeafSequence, readLazyValueOffsets.
  eapply sim_bind.
  - apply sim_bind_eq; [apply sim_readCount|]. intros count.
    apply (sim_repeatM pre post anyR).
    eapply sim_bind; [apply sim_pos|]. intros o o' _.
    apply sim_bind_eq; [exact Hsk|]. intros _. apply sim_ret. exact I.
  - intros os os' _. eapply sim_bind; [apply sim_pos|]. intros o o' _.
    apply sim_ret. exact I.
Qed.

Lemma sim_readMapLeafSequence (rv rv' : Dec Value) :
  Sim sameRef pre post rv rv' ->
  Sim anyR pre post (readMapLeafSequence rv) (readMapLeafSequence rv').
Proof.
  intros Hrv. unfold readMapLeafSequence.
  apply sim_bind_eq; [apply sim_readCount|]. intros count.
  eapply sim_bind.
  - apply (sim_repeatM pre post anyR).
    eapply sim_bind; [exact Hrv|]. intros k k' _.
    eapply sim_bind; [exact Hrv|]. intros v v' _.
    apply sim_ret. exact I.
  - intros d d' _. apply sim_ret. exact I.
Qed.

Lemma sim_readStruct (rv rv' : Dec Value) :
  Sim sameRef pre post rv rv' ->
  Sim sameRef pre post (readStruct rv) (readStruct rv').
Proof.
  intros Hrv. unfold readStruct.
  apply sim_bind_eq; [apply sim_readString|]. intros name.
  apply sim_bind_eq; [apply sim_readCount|]. intros count.
  eapply sim_bind.
  - apply (sim_repeatM pre post anyR).
    apply sim_bind_eq; [apply sim_readString|]. intros n.
    eapply sim_bind; [exact Hrv|]. intros v v' _.
    apply sim_ret. exact I.
  - intros d d' _. apply sim_ret. reflexivity.
Qed.

Lemma sim_readRef validating f f' : f <= f' ->
  Sim sameRef pre post (readRef validating f) (readRef validating f').
Proof.
  intros Hle. unfold readRef.
  apply sim_bind_eq; [apply sim_readHash|]. intros h.
  apply sim_bind_eq; [apply sim_readTypeF; lia|]. intros t.
  apply sim_bind_eq; [apply sim_readCount|]. intros height.
  apply sim_ret. reflexivity.
Qed.

(** Wraps a sequence into a collection value: never a Ref. *)
Ltac sim_collection H :=
  eapply sim_bind; [H|]; intros ? ? _; apply sim_ret; reflexivity.

Lemma sim_readValueF validating f : forall f', f <= f' ->
  Sim sameRef pre post (readValueF validating f) (readValueF validating f').
Proof.
  induction f as [|f IH]; intros f' Hle.
  - apply sim_outOfFuel.
  - destruct f' as [|f']; [lia|]. simpl.
    assert (Hrv : Sim sameRef pre post (readValueF validating f)
                    (readValueF validating f')) by (apply IH; lia).
    assert (Hsk : Sim eq pre post (skipValueF validating f)
                    (skipValueF validating f'))
      by (apply sim_skipValueF; lia).
    apply sim_bind_eq; [apply sim_readKind|]. intros k.
    destruct k as [[]|]; try apply sim_panic.
    + (* Bool *) apply sim_bind_eq; [apply sim_readBool|]. intros b.
      apply sim_ret. reflexivity.
    + (* Number *) apply sim_bind_eq; [apply sim_readNumber|]. intros n.
      apply sim_ret. reflexivity.
    + (* String *) apply sim_bind_eq; [apply sim_readString|]. intros s.
      apply sim_ret. reflexivity.
    + (* Blob *) apply sim_bind_eq; [apply sim_readCount|]. intros level.
      destruct (0 <? level)%N.
      * sim_collection ltac:(apply sim_readMetaSequence; exact Hrv).
      * unfold readBlobLeafSequence.
        apply sim_bind_eq; [|intros; apply sim_ret; reflexivity].
        apply sim_bind_eq; [apply sim_readBytes|]. intros d.
        apply sim_ret. reflexivity.
    + (* List *) apply sim_bind_eq; [apply sim_readCount|]. intros level.
      destruct (0 <? level)%N.
      * sim_collection ltac:(apply sim_readMetaSequence; exact Hrv).
      * sim_collection ltac:(apply sim_readListLeafSequence; exact Hsk).
    + (* Map *) apply sim_bind_eq; [apply sim_readCount|]. intros level.
      destruct (0 <? level)%N.
      * sim_collection ltac:(apply sim_readMetaSequence; exact Hrv).
      * sim_collection ltac:(apply sim_readMapLeafSequence; exact Hrv).
    + (* Ref *) apply sim_readRef. lia.
    + (* Set *) apply sim_bind_eq; [apply sim_readCount|]. intros level.
      destruct (0 <? level)%N.
      * sim_collection ltac:(apply sim_readMetaSequence; exact Hrv).
      * sim_collection ltac:(apply sim_readSetLeafSequence; exact Hrv).
    + (* Struct *) apply sim_readStruct. exact Hrv.
    + (* Type *) apply sim_bind_eq; [apply sim_readTypeF; lia|]. intros t.
      apply sim_ret. reflexivity.
Qed.

End LocalityOfDecoder.

(** ** Reading the items of a struct buffer *)

(** Side conditions of the lemmas below: the buffer split at the cursor. *)
Ltac frame :=
  first [ cbn [encodeFields]; rewrite <- ?app_assoc; reflexivity
        | rewrite ?length_app; simpl; lia ].

Lemma readString_at B pre m rest p :
  B = pre ++ writeString m ++ rest -> p = length pre ->
  goLen (String.length m) ->
  readString B p = Ok (m, p + length (writeString m)).
Proof. intros -> ->. apply readString_write. Qed.

Lemma skipString_at B pre m rest p :
  B = pre ++ writeString m ++ rest -> p = length pre ->
  goLen (String.length m) ->
  skipString B p = Ok (tt, p + length (writeString m)).
Proof. intros -> ->. apply skipString_write. Qed.

Lemma readCount_at B pre v rest p :
  B = pre ++ writeCount v ++ rest -> p = length pre ->
  (v < 2 ^ 64)%N ->
  readCount B p = Ok (v, p + length (writeCount v)).
Proof. intros -> ->. apply readCount_write. Qed.

Lemma skipValueD_at B pre x rest p :
  B = pre ++ x ++ rest -> p = length pre -> regular x ->
  skipValueD B p = Ok (tt, p + length x).
Proof.
  intros -> -> [Hs _]. unfold skipValueD, skipValue in *.
  destruct (sim_skipValueF pre rest false (fuelFor x)
              (fuelFor (pre ++ x ++ rest))
              ltac:(unfold fuelFor; rewrite !length_app; lia)
              _ _ _ _ Hs) as ([] & E & _).
  rewrite Nat.add_0_r in E. exact E.
Qed.

Lemma readValueD_at B pre x rest p :
  B = pre ++ x ++ rest -> p = length pre -> readable x ->
  exists v, readValueD B p = Ok (v, p + length x).
Proof.
  intros -> -> [v Hr]. unfold readValueD, readValue in *.
  destruct (sim_readValueF pre rest false (fuelFor x)
              (fuelFor (pre ++ x ++ rest))
              ltac:(unfold fuelFor; rewrite !length_app; lia)
              _ _ _ _ Hr) as (v' & E & _).
  rewrite Nat.add_0_r in E. eauto.
Qed.

Lemma sliceFrom_at B pre x rest p :
  B = pre ++ x ++ rest -> p = length pre ->
  sliceFrom p B (p + length x) = Ok (x, p + length x).
Proof.
  intros -> ->. unfold sliceFrom.
  replace (length pre + length x <=? length (pre ++ x ++ rest)) with true
    by (symmetry; apply Nat.leb_le; rewrite !length_app; lia).
  rewrite byteSlice_middle. reflexivity.
Qed.

Lemma readValueBytes_at B pre x rest p :
  B = pre ++ x ++ rest -> p = length pre -> readable x ->
  readValueBytes B p = Ok (x, p + length x).
Proof.
  intros HB Hp Hx. unfold readValueBytes, pos.
  destruct (readValueD_at B pre x rest p HB Hp Hx) as [v Hv].
  unfold bind. rewrite Hv. eapply sliceFrom_at; eauto.
Qed.

Lemma copyValue_at B pre x rest p :
  B = pre ++ x ++ rest -> p = length pre -> regular x ->
  copyValue B p = Ok (x, p + length x).
Proof.
  intros HB Hp Hx. unfold copyValue, pos.
  unfold bind. rewrite (skipValueD_at B pre x rest p HB Hp Hx).
  eapply sliceFrom_at; eauto.
Qed.

Lemma copyString_at B pre m rest p :
  B = pre ++ writeString m ++ rest -> p = length pre ->
  goLen (String.length m) ->
  copyString B p = Ok (writeString m, p + length (writeString m)).
Proof.
  intros HB Hp Hm. unfold copyString, pos.
  unfold bind. rewrite (skipString_at B pre m rest p HB Hp Hm).
  eapply sliceFrom_at; eauto.
Qed.

Lemma encodeFields_app fs gs :
  encodeFields (fs ++ gs) = encodeFields fs ++ encodeFields gs.
Proof.
  induction fs as [|[m x] fs IH]; simpl; [reflexivity|].
  rewrite IH, <- !app_assoc. reflexivity.
Qed.

Lemma fieldOk_fieldOkFor n f : fieldOk f -> fieldOkFor n f.
Proof.
  intros [Hm [Hs Hr]]. split; [exact Hm|].
  destruct (String.eqb (fst f) n); [exact Hr|split; assumption].
Qed.

Lemma MaybeGetLoop_spec n fs : forall B pre rest p,
  B = pre ++ encodeFields fs ++ rest -> p = length pre ->
  Forall (fieldOkFor n) fs ->
  exists q, MaybeGetLoop n (length fs) B p = Ok (getLoopSpec n fs, q).
Proof.
  induction fs as [|[m x] fs IH]; intros B pre rest p HB Hp Hok; simpl.
  - unfold ret. eauto.
  - inversion Hok as [|? ? [Hm Hx] Hok']; subst. simpl in Hm, Hx.
    erewrite bind_Ok_eq by (eapply (readString_at _ pre m); [frame|frame|exact Hm]).
    destruct (String.eqb m n).
    + erewrite bind_Ok_eq
        by (eapply (readValueBytes_at _ (pre ++ writeString m) x);
            [frame|frame|exact Hx]).
      unfold ret. eauto.
    + destruct (String.ltb n m); [unfold ret; eauto|].
      erewrite bind_Ok_eq
        by (eapply (skipValueD_at _ (pre ++ writeString m) x);
            [frame|frame|exact Hx]).
      eapply (IH _ (pre ++ writeString m ++ x) rest); [frame|frame|exact Hok'].
Qed.

Lemma encodeFields_snoc out m x :
  encodeFields (out ++ [(m, x)]) = encodeFields out ++ writeString m ++ x.
Proof. rewrite encodeFields_app. simpl. rewrite app_nil_r. reflexivity. Qed.

Lemma setLoop_spec n v ac fs : forall B pre rest p w0 out handled,
  B = pre ++ encodeFields fs ++ rest -> p = length pre ->
  Forall fieldOk fs ->
  exists q,
    setLoop n v ac (length fs) (w0 ++ encodeFields out) handled B p
    = Ok (option_map (fun r => (w0 ++ encodeFields (fst r), snd r))
                     (setLoopSpec n v ac fs out handled), q).
Proof.
  induction fs as [|[m x] fs IH];
    intros B pre rest p w0 out handled HB Hp Hok; simpl.
  - unfold ret. eauto.
  - inversion Hok as [|? ? [Hm Hx] Hok']; subst. simpl in Hm, Hx.
    erewrite bind_Ok_eq by (eapply (readString_at _ pre m); [frame|frame|exact Hm]).
    destruct (String.eqb n m).
    + erewrite bind_Ok_eq
        by (eapply (skipValueD_at _ (pre ++ writeString m) x);
            [frame|frame|exact Hx]).
      rewrite <- app_assoc, <- encodeFields_snoc.
      eapply (IH _ (pre ++ writeString m ++ x) rest); [frame|frame|exact Hok'].
    + destruct (negb handled && String.ltb n m).
      * destruct (ac =? 0)%N; [unfold ret; simpl; eauto|].
        erewrite bind_Ok_eq
          by (eapply (copyValue_at _ (pre ++ writeString m) x);
              [frame|frame|exact Hx]).
        replace ((((w0 ++ encodeFields out) ++ writeString n ++ v)
                   ++ writeString m) ++ x)
          with (w0 ++ encodeFields (out ++ [(n, v); (m, x)]))
          by (rewrite encodeFields_app; simpl;
              rewrite app_nil_r, <- !app_assoc; reflexivity).
        eapply (IH _ (pre ++ writeString m ++ x) rest); [frame|frame|exact Hok'].
      * erewrite bind_Ok_eq
          by (eapply (copyValue_at _ (pre ++ writeString m) x);
              [frame|frame|exact Hx]).
        replace (((w0 ++ encodeFields out) ++ writeString m) ++ x)
          with (w0 ++ encodeFields (out ++ [(m, x)]))
          by (rewrite encodeFields_snoc, <- !app_assoc; reflexivity).
        eapply (IH _ (pre ++ writeString m ++ x) rest); [frame|frame|exact Hok'].
Qed.

Lemma deleteLoop_spec n fs : forall B pre rest p w0 out found,
  B = pre ++ encodeFields fs ++ rest -> p = length pre ->
  Forall fieldOk fs ->
  exists q,
    deleteLoop n (length fs) (w0 ++ encodeFields out) found B p
    = Ok ((w0 ++ encodeFields (fst (deleteLoopSpec n fs out found)),
           snd (deleteLoopSpec n fs out found)), q).
Proof.
  induction fs as [|[m x] fs IH];
    intros B pre rest p w0 out found HB Hp Hok; simpl.
  - unfold ret. eauto.
  - inversion Hok as [|? ? [Hm Hx] Hok']; subst. simpl in Hm, Hx.
    erewrite bind_Ok_eq by (eapply (readString_at _ pre m); [frame|frame|exact Hm]).
    destruct (String.eqb n m).
    + erewrite bind_Ok_eq
        by (eapply (skipValueD_at _ (pre ++ writeString m) x);
            [frame|frame|exact Hx]).
      eapply (IH _ (pre ++ writeString m ++ x) rest); [frame|frame|exact Hok'].
    + erewrite bind_Ok_eq
        by (eapply (copyValue_at _ (pre ++ writeString m) x);
            [frame|frame|exact Hx]).
      replace (((w0 ++ encodeFields out) ++ writeString m) ++ x)
        with (w0 ++ encodeFields (out ++ [(m, x)]))
        by (rewrite encodeFields_snoc, <- !app_assoc; reflexivity).
      eapply (IH _ (pre ++ writeString m ++ x) rest); [frame|frame|exact Hok'].
Qed.

Lemma goLen_count n : goLen n -> (N.of_nat n < 2 ^ 64)%N.
Proof.
  unfold goLen. change (2 ^ 64)%N with (2 * 2 ^ 63)%N. lia.
Qed.

Lemma encodeStruct_header name fs :
  encodeStruct name fs
  = structHeader name (N.of_nat (length fs)) ++ encodeFields fs.
Proof.
  unfold encodeStruct, structHeader. rewrite <- !app_assoc. reflexivity.
Qed.

Lemma writeKind_length k : length (writeKind k) = 1.
Proof. reflexivity. Qed.

(** Reading the header of a struct buffer leaves the cursor on the first
    field. *)
Lemma decoderSkipToFields_spec name count rest :
  goLen (String.length name) -> (count < 2 ^ 64)%N ->
  decoderSkipToFields (structHeader name count ++ rest) 0
  = Ok (count, length (structHeader name count)).
Proof.
  intros Hname Hcount. unfold decoderSkipToFields, structHeader.
  unfold bind at 1. unfold skipKind.
  erewrite bind_Ok_eq
    by (eapply (skipString_at _ (writeKind StructKind) name);
        [frame|reflexivity|exact Hname]).
  erewrite (readCount_at _ (writeKind StructKind ++ writeString name) count);
    [|frame|frame|exact Hcount].
  f_equal. f_equal. rewrite !length_app. simpl. lia.
Qed.

(** ** The loops on sorted fields *)

Lemma ltb_irrefl a : String.ltb a a = false.
Proof. unfold String.ltb. rewrite compare_refl. reflexivity. Qed.

Lemma ltb_trans a b c :
  String.ltb a b = true -> String.ltb b c = true -> String.ltb a c = true.
Proof. apply strictlyBefore_trans. Qed.

Lemma ltb_eqb a b : String.ltb a b = true -> String.eqb a b = false.
Proof.
  intros H. apply String.eqb_neq. intros ->.
  rewrite ltb_irrefl in H. discriminate.
Qed.

Lemma ltb_eqb_sym a b : String.ltb a b = true -> String.eqb b a = false.
Proof. intros H. rewrite String.eqb_sym. apply ltb_eqb. exact H. Qed.

Lemma ltb_asym a b : String.ltb a b = true -> String.ltb b a = false.
Proof.
  intros H. destruct (String.ltb b a) eqn:E; [|reflexivity].
  pose proof (ltb_trans _ _ _ H E) as Haa.
  rewrite ltb_irrefl in Haa. discriminate.
Qed.

Lemma ltb_total a b :
  String.eqb a b = false -> String.ltb a b = false -> String.ltb b a = true.
Proof.
  intros Hne Hlt. apply String.eqb_neq in Hne.
  apply ltb_le_ne. split; [|congruence].
  destruct (total String.le a b) as [Hab|Hba]; [|exact Hba].
  assert (String.ltb a b = true) by (apply ltb_le_ne; auto).
  congruence.
Qed.

Lemma ascending_cons m x fs :
  ascending (map fst ((m, x) :: fs)) <->
  allAfter m fs /\ ascending (map fst fs).
Proof.
  unfold ascending, allAfter. simpl. split.
  - intros H. inversion H as [|? ? Hs Hall]; subst. split; [|exact Hs].
    rewrite List.Forall_map in Hall. exact Hall.
  - intros [Hall Hs]. constructor; [exact Hs|].
    rewrite List.Forall_map. exact Hall.
Qed.

Lemma allAfter_absent n fs : allAfter n fs -> absent n fs.
Proof.
  unfold allAfter, absent. apply List.Forall_impl.
  intros f. apply ltb_eqb.
Qed.

Lemma allAfter_trans n m fs :
  String.ltb n m = true -> allAfter m fs -> allAfter n fs.
Proof.
  intros Hnm. unfold allAfter. apply List.Forall_impl.
  intros f. apply ltb_trans. exact Hnm.
Qed.

Lemma absent_lookup n fs : absent n fs -> lookupField n fs = None.
Proof.
  induction 1 as [|[m x] fs Hm _ IH]; simpl; [reflexivity|].
  simpl in Hm. rewrite String.eqb_sym, Hm. exact IH.
Qed.

Lemma absent_deleteField n fs : absent n fs -> deleteField n fs = fs.
Proof.
  induction 1 as [|[m x] fs Hm _ IH]; simpl; [reflexivity|].
  simpl in Hm. rewrite Hm, IH. reflexivity.
Qed.

Lemma getLoopSpec_lookup n fs :
  ascending (map fst fs) -> getLoopSpec n fs = lookupField n fs.
Proof.
  induction fs as [|[m x] fs IH]; simpl; intros Hs; [reflexivity|].
  apply (proj1 (ascending_cons m x fs)) in Hs. destruct Hs as [Hall Hs].
  destruct (String.eqb m n); [reflexivity|].
  destruct (String.ltb n m) eqn:E; [|auto].
  symmetry. apply absent_lookup, allAfter_absent.
  apply (allAfter_trans n m); assumption.
Qed.

Lemma setLoopSpec_handled n v ac fs : forall out,
  absent n fs -> setLoopSpec n v ac fs out true = Some (out ++ fs, true).
Proof.
  induction fs as [|[m x] fs IH]; intros out Hab; simpl.
  - rewrite app_nil_r. reflexivity.
  - inversion Hab as [|? ? Hm Hab']; subst. simpl in Hm. rewrite Hm. simpl.
    rewrite IH by exact Hab'. rewrite <- app_assoc. reflexivity.
Qed.

(** The first pass of [set] succeeds exactly when the field exists, and
    then has written the fields with the value replaced. *)
Lemma setPassSpec_0 n v fs :
  ascending (map fst fs) ->
  setPassSpec n v 0 fs
  = if hasField n fs then Some (setField n v fs) else None.
Proof.
  intros Hs. unfold setPassSpec, hasField.
  assert (G : forall out,
    match setLoopSpec n v 0 fs out false with
    | None => lookupField n fs = None
    | Some (out', h) =>
        if h then out' = out ++ setField n v fs /\ lookupField n fs <> None
        else lookupField n fs = None
    end).
  { induction fs as [|[m x] fs IH]; intros out; simpl; [reflexivity|].
    apply (proj1 (ascending_cons m x fs)) in Hs. destruct Hs as [Hall Hs].
    rewrite (String.eqb_sym m n).
    destruct (String.eqb n m) eqn:Enm.
    - rewrite setLoopSpec_handled by (apply String.eqb_eq in Enm; subst;
                                      apply allAfter_absent; exact Hall).
      rewrite <- app_assoc. split; [reflexivity|discriminate].
    - simpl. destruct (String.ltb n m) eqn:Elt; simpl.
      + apply absent_lookup, allAfter_absent. apply (allAfter_trans n m); assumption.
      + specialize (IH Hs (out ++ [(m, x)])).
        destruct (setLoopSpec n v 0 fs (out ++ [(m, x)]) false) as [[out' h]|];
          [|exact IH].
        destruct h; [|exact IH].
        destruct IH as [-> Hne]. rewrite <- app_assoc. auto. }
  specialize (G []).
  destruct (setLoopSpec n v 0 fs [] false) as [[out' h]|].
  - destruct h; simpl.
    + destruct G as [-> Hne]. destruct (lookupField n fs); [reflexivity|congruence].
    + rewrite G. reflexivity.
  - rewrite G. reflexivity.
Qed.

(** The second pass, taken when the field is new, has written the fields
    with the new one at its place in the order. *)
Lemma setPassSpec_1 n v fs :
  ascending (map fst fs) -> hasField n fs = false ->
  setPassSpec n v 1 fs = Some (setField n v fs).
Proof.
  intros Hs Hno. unfold setPassSpec, hasField in *.
  assert (G : forall out,
    match setLoopSpec n v 1 fs out false with
    | None => False
    | Some (out', h) =>
        if h then out' = out ++ setField n v fs
        else out' ++ [(n, v)] = out ++ setField n v fs
    end).
  { induction fs as [|[m x] fs IH]; intros out; simpl; [reflexivity|].
    apply (proj1 (ascending_cons m x fs)) in Hs. destruct Hs as [Hall Hs].
    simpl in Hno. rewrite (String.eqb_sym m n) in Hno.
    destruct (String.eqb n m) eqn:Enm; [discriminate|].
    simpl. destruct (String.ltb n m) eqn:Elt; simpl.
    - rewrite setLoopSpec_handled
        by (apply allAfter_absent; apply (allAfter_trans n m); assumption).
      rewrite <- app_assoc. reflexivity.
    - specialize (IH Hs Hno (out ++ [(m, x)])).
      destruct (setLoopSpec n v 1 fs (out ++ [(m, x)]) false) as [[out' h]|];
        [|exact IH].
      destruct h; rewrite IH, <- app_assoc; reflexivity. }
  specialize (G []).
  destruct (setLoopSpec n v 1 fs [] false) as [[out' h]|]; [|destruct G].
  destruct h; simpl; rewrite G; reflexivity.
Qed.

Lemma deleteLoopSpec_eq n fs : forall out found,
  deleteLoopSpec n fs out found
  = (out ++ deleteField n fs, found || hasField n fs).
Proof.
  unfold hasField.
  induction fs as [|[m x] fs IH]; intros out found; simpl.
  - rewrite app_nil_r, orb_false_r. reflexivity.
  - rewrite (String.eqb_sym m n). destruct (String.eqb n m).
    + rewrite IH. simpl. rewrite orb_true_r. reflexivity.
    + rewrite IH, <- app_assoc. reflexivity.
Qed.

Lemma setField_length n v fs :
  ascending (map fst fs) ->
  length (setField n v fs)
  = length fs + (if hasField n fs then 0 else 1).
Proof.
  unfold hasField.
  induction fs as [|[m x] fs IH]; simpl; intros Hs; [reflexivity|].
  apply (proj1 (ascending_cons m x fs)) in Hs. destruct Hs as [Hall Hs].
  rewrite (String.eqb_sym m n).
  destruct (String.eqb n m); simpl; [lia|].
  destruct (String.ltb n m) eqn:E; simpl.
  - rewrite absent_lookup
      by (apply allAfter_absent; apply (allAfter_trans n m); assumption).
    lia.
  - rewrite IH by exact Hs. lia.
Qed.

Lemma lookup_setField n v fs : lookupField n (setField n v fs) = Some v.
Proof.
  induction fs as [|[m x] fs IH]; simpl.
  - rewrite String.eqb_refl. reflexivity.
  - destruct (String.eqb n m) eqn:E; simpl.
    + rewrite String.eqb_sym, E. reflexivity.
    + destruct (String.ltb n m); simpl.
      * rewrite String.eqb_refl. reflexivity.
      * rewrite String.eqb_sym, E. exact IH.
Qed.

Lemma lookup_setField_other k n v fs :
  k <> n -> lookupField k (setField n v fs) = lookupField k fs.
Proof.
  intros Hne. apply String.eqb_neq in Hne.
  induction fs as [|[m x] fs IH]; simpl.
  - rewrite String.eqb_sym, Hne. reflexivity.
  - destruct (String.eqb n m) eqn:E; simpl.
    + apply String.eqb_eq in E. subst m.
      rewrite String.eqb_sym, Hne. reflexivity.
    + destruct (String.ltb n m); simpl.
      * rewrite (String.eqb_sym n k), Hne. reflexivity.
      * rewrite IH. reflexivity.
Qed.

Lemma setField_allAfter m n v fs :
  String.ltb m n = true -> allAfter m fs -> allAfter m (setField n v fs).
Proof.
  intros Hmn. unfold allAfter.
  induction 1 as [|[k x] fs Hk Hall IH]; simpl.
  - repeat constructor. exact Hmn.
  - destruct (String.eqb n k); [constructor; assumption|].
    destruct (String.ltb n k); repeat constructor; assumption.
Qed.

Lemma setField_ascending n v fs :
  ascending (map fst fs) -> ascending (map fst (setField n v fs)).
Proof.
  induction fs as [|[m x] fs IH]; simpl; intros Hs.
  - repeat constructor.
  - apply (proj1 (ascending_cons m x fs)) in Hs. destruct Hs as [Hall Hs].
    destruct (String.eqb n m) eqn:E.
    + apply (ascending_cons m v fs). auto.
    + destruct (String.ltb n m) eqn:Elt.
      * apply (ascending_cons n v ((m, x) :: fs)). split.
        -- constructor; [exact Elt|]. apply (allAfter_trans n m); assumption.
        -- apply (ascending_cons m x fs). auto.
      * apply (ascending_cons m x (setField n v fs)). split; [|auto].
        apply setField_allAfter; [|exact Hall].
        apply (ltb_total n m); assumption.
Qed.

Lemma setField_fieldOk n v fs :
  fieldOk (n, v) -> Forall fieldOk fs -> Forall fieldOk (setField n v fs).
Proof.
  intros Hnv. induction 1 as [|[m x] fs Hm Hfs IH]; simpl.
  - constructor; [exact Hnv|constructor].
  - destruct (String.eqb n m) eqn:E.
    + apply String.eqb_eq in E. subst m. constructor; assumption.
    + destruct (String.ltb n m).
      * constructor; [exact Hnv|]. constructor; assumption.
      * constructor; assumption.
Qed.

Lemma setField_fieldOkFor k n v fs :
  goLen (String.length n) ->
  (if String.eqb n k then readable v else regular v) ->
  Forall fieldOk fs -> Forall (fieldOkFor k) (setField n v fs).
Proof.
  intros Hn Hv.
  assert (Hnv : fieldOkFor k (n, v)) by (split; assumption).
  induction 1 as [|[m x] fs Hm Hfs IH]; simpl.
  - constructor; [exact Hnv|constructor].
  - destruct (String.eqb n m) eqn:E.
    + apply String.eqb_eq in E. subst m.
      constructor; [exact Hnv|].
      eapply List.Forall_impl; [|exact Hfs]. apply fieldOk_fieldOkFor.
    + destruct (String.ltb n m).
      * constructor; [exact Hnv|]. constructor.
        -- apply fieldOk_fieldOkFor. exact Hm.
        -- eapply List.Forall_impl; [|exact Hfs]. apply fieldOk_fieldOkFor.
      * constructor; [apply fieldOk_fieldOkFor; exact Hm|exact IH].
Qed.

Lemma deleteField_filter n fs :
  deleteField n fs = List.filter (fun f => negb (String.eqb n (fst f))) fs.
Proof.
  induction fs as [|[m x] fs IH]; simpl; [reflexivity|].
  destruct (String.eqb n m); simpl; congruence.
Qed.

Lemma lookup_deleteField k n fs :
  lookupField k (deleteField n fs)
  = if String.eqb k n then None else lookupField k fs.
Proof.
  induction fs as [|[m x] fs IH]; simpl.
  - destruct (String.eqb k n); reflexivity.
  - destruct (String.eqb n m) eqn:E; simpl.
    + apply String.eqb_eq in E. subst m. rewrite IH.
      rewrite (String.eqb_sym n k). destruct (String.eqb k n); reflexivity.
    + rewrite IH. destruct (String.eqb m k) eqn:Emk; [|reflexivity].
      apply String.eqb_eq in Emk. subst k.
      rewrite String.eqb_sym, E. reflexivity.
Qed.

Lemma deleteField_length n fs :
  ascending (map fst fs) ->
  length (deleteField n fs) + (if hasField n fs then 1 else 0) = length fs.
Proof.
  unfold hasField.
  induction fs as [|[m x] fs IH]; simpl; intros Hs; [reflexivity|].
  apply (proj1 (ascending_cons m x fs)) in Hs. destruct Hs as [Hall Hs].
  rewrite (String.eqb_sym m n).
  destruct (String.eqb n m) eqn:E; simpl.
  - apply String.eqb_eq in E. subst m.
    rewrite absent_deleteField by (apply allAfter_absent; exact Hall). lia.
  - specialize (IH Hs). lia.
Qed.

Lemma deleteField_fieldOk n fs :
  Forall fieldOk fs -> Forall fieldOk (deleteField n fs).
Proof.
  induction 1 as [|[m x] fs Hm Hfs IH]; simpl; [constructor|].
  destruct (String.eqb n m); [assumption|constructor; assumption].
Qed.

(** ** The struct operations on well-formed structs *)

Lemma run_Ok {A} (m : Dec A) s a q :
  m (buff s) 0 = Ok (a, q) -> run m s = Ok a.
Proof. unfold run. intros ->. reflexivity. Qed.

Lemma Len_spec s name fs :
  buff s = encodeStruct name fs ->
  goLen (String.length name) -> goLen (length fs) ->
  Len s = Ok (Z.of_nat (length fs)).
Proof.
  intros Hb Hname Hcount. unfold Len.
  eapply run_Ok. rewrite Hb, encodeStruct_header.
  erewrite bind_Ok_eq
    by (apply decoderSkipToFields_spec;
        [exact Hname|apply goLen_count; unfold goLen in *; lia]).
  unfold ret. f_equal. f_equal. unfold intOfUint64.
  replace (N.of_nat (length fs) <? 2 ^ 63)%N with true
    by (symmetry; apply N.ltb_lt; unfold goLen in *; lia).
  apply nat_N_Z.
Qed.

Lemma MaybeGet_spec s name fs n :
  buff s = encodeStruct name fs ->
  goLen (String.length name) -> goLen (length fs) ->
  Forall (fieldOkFor n) fs -> ascending (map fst fs) ->
  MaybeGet s n = Ok (lookupField n fs).
Proof.
  intros Hb Hname Hcount Hok Hs. unfold MaybeGet.
  destruct (MaybeGetLoop_spec n fs (buff s)
              (structHeader name (N.of_nat (length fs))) []
              (length (structHeader name (N.of_nat (length fs)))))
    as [q Hq].
  { rewrite Hb, encodeStruct_header, app_nil_r. reflexivity. }
  { reflexivity. }
  { exact Hok. }
  eapply run_Ok. rewrite Hb at 1. rewrite encodeStruct_header.
  erewrite bind_Ok_eq
    by (apply decoderSkipToFields_spec;
        [exact Hname|apply goLen_count; unfold goLen in *; lia]).
  rewrite Nat2N.id, <- encodeStruct_header, <- Hb, Hq.
  rewrite getLoopSpec_lookup by exact Hs. reflexivity.
Qed.

Lemma setPass_spec s name fs n v ac :
  buff s = encodeStruct name fs ->
  goLen (String.length name) -> goLen (S (length fs)) ->
  Forall fieldOk fs ->
  run (setPass n v ac) s
  = Ok (option_map
          (fun out => structHeader name (N.of_nat (length fs) + ac)
                      ++ encodeFields out)
          (setPassSpec n v ac fs)).
Proof.
  intros Hb Hname Hcount Hok.
  assert (Hc : (N.of_nat (length fs) < 2 ^ 64)%N)
    by (apply goLen_count; unfold goLen in *; lia).
  destruct (setLoop_spec n v ac fs (buff s)
              (structHeader name (N.of_nat (length fs))) []
              (length (structHeader name (N.of_nat (length fs))))
              (structHeader name (N.of_nat (length fs) + ac)) [] false)
    as [q Hq].
  { rewrite Hb, encodeStruct_header, app_nil_r. reflexivity. }
  { reflexivity. }
  { exact Hok. }
  simpl encodeFields in Hq. rewrite app_nil_r in Hq.
  unfold setPassSpec.
  eapply run_Ok. unfold setPass.
  unfold bind at 1. unfold skipKind.
  rewrite Hb at 1. rewrite encodeStruct_header. unfold structHeader at 1.
  erewrite bind_Ok_eq
    by (eapply (copyString_at _ (writeKind StructKind) name);
        [frame|reflexivity|exact Hname]).
  erewrite bind_Ok_eq
    by (eapply (readCount_at _ (writeKind StructKind ++ writeString name)
                  (N.of_nat (length fs)));
        [frame|frame|exact Hc]).
  rewrite Nat2N.id.
  replace ((writeKind StructKind ++ writeString name)
           ++ writeCount (N.of_nat (length fs) + ac))
    with (structHeader name (N.of_nat (length fs) + ac))
    by (unfold structHeader; rewrite <- app_assoc; reflexivity).
  change ((writeKind StructKind ++ writeString name
           ++ writeCount (N.of_nat (length fs))) ++ encodeFields fs)
    with (structHeader name (N.of_nat (length fs)) ++ encodeFields fs).
  rewrite <- encodeStruct_header, <- Hb.
  replace (1 + length (writeString name)
           + length (writeCount (N.of_nat (length fs))))
    with (length (structHeader name (N.of_nat (length fs))))
    by (unfold structHeader; rewrite !length_app; simpl; lia).
  erewrite bind_Ok_eq by exact Hq.
  destruct (setLoopSpec n v ac fs [] false) as [[out h]|]; simpl;
    [|reflexivity].
  destruct h; simpl; [reflexivity|].
  destruct (ac =? 1)%N; simpl; [|reflexivity].
  unfold ret. rewrite encodeFields_snoc, <- !app_assoc. reflexivity.
Qed.

Lemma set_spec s name fs n v :
  isStruct s name fs ->
  set s n v 0 = Ok (mkStruct (encodeStruct name (setField n v fs))).
Proof.
  intros (Hb & Hname & Hcount & Hok & Hs).
  pose proof (setField_length n v fs Hs) as Hlen.
  unfold set. cbn [setF].
  rewrite (setPass_spec s name fs n v 0 Hb Hname Hcount Hok).
  rewrite setPassSpec_0 by exact Hs.
  destruct (hasField n fs) eqn:Ehas; unfold bindR; cbn [option_map].
  - rewrite encodeStruct_header, Hlen.
    replace (N.of_nat (length fs) + 0)%N with (N.of_nat (length fs + 0)) by lia.
    reflexivity.
  - rewrite (setPass_spec s name fs n v 1 Hb Hname Hcount Hok).
    rewrite setPassSpec_1 by assumption. cbn [option_map].
    rewrite encodeStruct_header, Hlen.
    replace (N.of_nat (length fs) + 1)%N with (N.of_nat (length fs + 1)) by lia.
    reflexivity.
Qed.

(** X28.  Let [s] be the struct [name] with well-formed fields [fs], [n] a
    valid field name and [v] the encoding of a value, any encoding that
    [readValue] decodes.  Then [s.Set(n, v)] returns a struct [s'],
    [s'.Get(n)] is [v], and [s'.Len()] is [s.Len()] when [n] is a field of
    [s] and [s.Len() + 1] when it is not.  [s'] is the struct [name] whose
    fields are those of [s] with [n] set to [v], replaced in place or
    inserted at its place in the order; every other field reads as before
    (for the fields behind [n], as long as [v] is an encoding that
    [skipValue] delimits as well).  The code reaches this by writing
    optimistically and starting over when the name turns out to be new. *)
Theorem Set_Get_Len s name fs n v :
  isStruct s name fs ->
  IsValidStructFieldName n = true ->
  goLen (String.length n) ->
  readable v ->
  exists s',
    StructSet s n v = Ok s' /\
    Get s' n = Ok v /\
    Len s = Ok (Z.of_nat (length fs)) /\
    Len s' = Ok (Z.of_nat (length fs) + (if hasField n fs then 0 else 1))%Z /\
    buff s' = encodeStruct name (setField n v fs) /\
    (regular v -> forall k, k <> n -> MaybeGet s' k = MaybeGet s k).
Proof.
  intros Hs Hvalid Hn Hv.
  pose proof Hs as (Hb & Hname & Hcount & Hok & Hasc).
  pose proof (setField_length n v fs Hasc) as Hlen.
  set (s' := mkStruct (encodeStruct name (setField n v fs))).
  assert (Hcount' : goLen (length (setField n v fs))).
  { unfold goLen in *. rewrite Hlen. destruct (hasField n fs); lia. }
  assert (Hasc' : ascending (map fst (setField n v fs)))
    by (apply setField_ascending; exact Hasc).
  exists s'. repeat split.
  - unfold StructSet, verifyFieldName. rewrite Hvalid. simpl.
    apply set_spec. exact Hs.
  - unfold Get.
    rewrite (MaybeGet_spec s' name (setField n v fs) n); auto.
    + rewrite lookup_setField. reflexivity.
    + apply setField_fieldOkFor; [exact Hn| |exact Hok].
      rewrite String.eqb_refl. exact Hv.
  - apply (Len_spec s name); auto. unfold goLen in *. lia.
  - rewrite (Len_spec s' name (setField n v fs)); auto.
    rewrite Hlen. f_equal. destruct (hasField n fs); lia.
  - intros Hreg k Hk.
    rewrite (MaybeGet_spec s' name (setField n v fs) k); auto.
    + rewrite lookup_setField_other by exact Hk.
      symmetry. apply (MaybeGet_spec s name); auto.
      * unfold goLen in *. lia.
      * eapply List.Forall_impl; [|exact Hok]. apply fieldOk_fieldOkFor.
    + apply setField_fieldOkFor; [exact Hn| |exact Hok].
      destruct (String.eqb n k); [exact Hv|exact Hreg].
Qed.

Lemma writeCount_wrap c :
  (1 <= c < 2 ^ 64)%N -> writeCount (c + 2 ^ 64 - 1) = writeCount (c - 1).
Proof.
  intros Hc. unfold writeCount. f_equal.
  replace (c + 2 ^ 64 - 1)%N with (c - 1 + 1 * 2 ^ 64)%N by lia.
  rewrite N.Div0.mod_add. reflexivity.
Qed.

(** X29.  Let [s] be the struct [name] with well-formed fields [fs].  When
    no field is called [n], [s.Delete(n)] does not panic and returns [s]
    itself, the same bytes.  When there is such a field, it returns the
    struct [name] whose fields are those of [s] other than [n], each with
    the bytes it had in [s], one field fewer. *)
Theorem Delete_absent_and_present s name fs n :
  isStruct s name fs ->
  (hasField n fs = false -> Delete s n = Ok s) /\
  (hasField n fs = true ->
   Delete s n = Ok (mkStruct (encodeStruct name (deleteField n fs))) /\
   deleteField n fs
     = List.filter (fun f => negb (String.eqb n (fst f))) fs /\
   S (length (deleteField n fs)) = length fs).
Proof.
  intros (Hb & Hname & Hcount & Hok & Hasc).
  assert (Hc : (N.of_nat (length fs) < 2 ^ 64)%N)
    by (apply goLen_count; unfold goLen in *; lia).
  pose proof (deleteField_length n fs Hasc) as Hlen.
  assert (Hrun : Delete s n
    = Ok (if hasField n fs
          then mkStruct (structHeader name (N.of_nat (length fs) + 2 ^ 64 - 1)
                         ++ encodeFields (deleteField n fs))
          else s)).
  { destruct (deleteLoop_spec n fs (buff s)
                (structHeader name (N.of_nat (length fs))) []
                (length (structHeader name (N.of_nat (length fs))))
                (structHeader name (N.of_nat (length fs) + 2 ^ 64 - 1)) [] false)
      as [q Hq].
    { rewrite Hb, encodeStruct_header, app_nil_r. reflexivity. }
    { reflexivity. }
    { exact Hok. }
    simpl encodeFields in Hq. rewrite app_nil_r in Hq.
    rewrite deleteLoopSpec_eq in Hq. simpl in Hq.
    unfold Delete. eapply run_Ok.
    unfold bind at 1. unfold skipKind.
    rewrite Hb at 1. rewrite encodeStruct_header. unfold structHeader at 1.
    erewrite bind_Ok_eq
      by (eapply (copyString_at _ (writeKind StructKind) name);
          [frame|reflexivity|exact Hname]).
    erewrite bind_Ok_eq
      by (eapply (readCount_at _ (writeKind StructKind ++ writeString name)
                    (N.of_nat (length fs)));
          [frame|frame|exact Hc]).
    rewrite Nat2N.id.
    replace ((writeKind StructKind ++ writeString name)
             ++ writeCount (N.of_nat (length fs) + 2 ^ 64 - 1))
      with (structHeader name (N.of_nat (length fs) + 2 ^ 64 - 1))
      by (unfold structHeader; rewrite <- app_assoc; reflexivity).
    change ((writeKind StructKind ++ writeString name
             ++ writeCount (N.of_nat (length fs))) ++ encodeFields fs)
      with (structHeader name (N.of_nat (length fs)) ++ encodeFields fs).
    rewrite <- encodeStruct_header, <- Hb.
    replace (1 + length (writeString name)
             + length (writeCount (N.of_nat (length fs))))
      with (length (structHeader name (N.of_nat (length fs))))
      by (unfold structHeader; rewrite !length_app; simpl; lia).
    erewrite bind_Ok_eq by exact Hq.
    destruct (hasField n fs); unfold ret; reflexivity. }
  split; intros Ehas; rewrite Ehas in *.
  - exact Hrun.
  - split; [|split].
    + rewrite Hrun. do 2 f_equal.
      rewrite encodeStruct_header. f_equal.
      unfold structHeader. do 2 f_equal.
      rewrite writeCount_wrap by lia. f_equal. lia.
    + apply deleteField_filter.
    + lia.
Qed.

(** ** The struct operations behind a chunked field *)

(** C1 (evaluation at the failing input).  [structChunked] is what
    [NewStruct] builds from [{a: l, b: true}], where [l] is a chunked
    list.  Setting its field [b], or a new field [c], panics, and so does
    reading [b]: the scan over the fields passes the value of [a] with
    [skipValue], which stops one byte short of the end of a chunked
    collection, so that the next field name is read from the wrong place.
    [Len] and the read of [a], which skip no value, succeed. *)
Theorem Set_panics_behind_chunked_field :
  NewStruct ["a"; "b"]%string "" dataChunked = Ok structChunked /\
  StructSet structChunked "b" encFalse = Panic /\
  StructSet structChunked "c" encFalse = Panic /\
  Get structChunked "b" = Panic /\
  MaybeGet structChunked "a" = Ok (Some metaListExample) /\
  Len structChunked = Ok 2%Z.
Proof. repeat split; vm_compute; reflexivity. Qed.

(** C5 (evaluation at the failing input).  On [structChunked], the struct
    [NewStruct] builds from [{a: l, b: true}] with [l] a chunked list,
    [Delete] of the absent name [zzz] panics where it should return the
    struct unchanged, and [Delete] of the field [b] panics where it should
    return the struct with [a] alone: the copy of the value of [a] stops
    one byte short of its end, as [skipValue] does. *)
Theorem Delete_panics_behind_chunked_field :
  NewStruct ["a"; "b"]%string "" dataChunked = Ok structChunked /\
  MaybeGet structChunked "a" = Ok (Some metaListExample) /\
  Delete structChunked "zzz" = Panic /\
  Delete structChunked "b" = Panic.
Proof. repeat split; vm_compute; reflexivity. Qed.

(** ** The fuel of the entry points is enough *)

Section FuelSafe.

Variable b : list byte.

Lemma fuelSafe_ret {A} lo (a : A) : fuelSafe b lo (ret a).
Proof.
  intros p _. split; [discriminate|].
  intros a' q H. injection H as _ <-. lia.
Qed.

Lemma fuelSafe_panic {A} lo : fuelSafe b lo (@panic A).
Proof. intros p _. split; [discriminate|]. intros a q H. discriminate. Qed.

Lemma fuelSafe_bind {A B} lo (m : Dec A) (k : A -> Dec B) :
  fuelSafe b lo m -> (forall a, fuelSafe b lo (k a)) ->
  fuelSafe b lo (bind m k).
Proof.
  intros Hm Hk p Hp. destruct (Hm p Hp) as [Hm1 Hm2].
  unfold fuelSafeAt, bind.
  destruct (m b p) as [[a q]| |] eqn:E; try congruence.
  - specialize (Hm2 a q eq_refl).
    destruct (Hk a q ltac:(lia)) as [Hk1 Hk2]. split; [exact Hk1|].
    intros a' q' H. specialize (Hk2 _ _ H). lia.
  - split; [discriminate|]. intros a q H. discriminate.
Qed.

Lemma fuelSafe_weaken {A} lo lo' (m : Dec A) :
  lo <= lo' -> fuelSafe b lo m -> fuelSafe b lo' m.
Proof. intros Hle Hm p Hp. apply Hm. lia. Qed.

Lemma fuelSafe_readUint8 lo : fuelSafe b lo readUint8.
Proof.
  intros p _. unfold fuelSafeAt, readUint8.
  destruct (nth_error b p); split; try discriminate.
  intros a q H. injection H as _ <-. lia.
Qed.

Lemma fuelSafe_readUvarint n : forall shift acc lo,
  fuelSafe b lo (readUvarint n shift acc).
Proof.
  induction n as [|n IH]; intros shift acc lo p Hp; unfold fuelSafeAt; simpl.
  - split; [discriminate|]. intros a q H. discriminate.
  - destruct (nth_error b p); [|split; [discriminate|intros; discriminate]].
    destruct (Byte.to_N _ <? 128)%N.
    + destruct (Nat.eqb n 0 && _);
        split; try discriminate; intros a q H; injection H as _ <-; lia.
    + destruct (IH (shift + 7)%N
                  (acc + (Byte.to_N b0 - 128) * 2 ^ shift)%N (S p) (S p)
                  (le_n _)) as [H1 H2].
      split; [exact H1|]. intros a q H. specialize (H2 _ _ H). lia.
Qed.

Lemma fuelSafe_readCount lo : fuelSafe b lo readCount.
Proof. apply fuelSafe_readUvarint. Qed.

Lemma fuelSafe_advance lo (n : nat) :
  fuelSafe b lo (fun _ p => Ok (tt, p + n)).
Proof.
  intros p _. split; [discriminate|].
  intros a q H. injection H as <-. lia.
Qed.

Lemma fuelSafe_slice lo (n : nat) :
  fuelSafe b lo
    (fun b p => let e := p + n in
                if e <=? length b then Ok (byteSlice b p e, e) else Panic).
Proof.
  intros p _. unfold fuelSafeAt. cbv zeta.
  destruct (p + n <=? length b); split; try discriminate.
  intros a q H. injection H as _ <-. lia.
Qed.

Lemma fuelSafe_readString lo : fuelSafe b lo readString.
Proof.
  unfold readString. apply fuelSafe_bind; [apply fuelSafe_readCount|].
  intros n p _. unfold fuelSafeAt. cbv zeta.
  destruct (p + N.to_nat n <=? length b); split; try discriminate.
  intros a q H. injection H as _ <-. lia.
Qed.

Lemma fuelSafe_skipString lo : fuelSafe b lo skipString.
Proof.
  unfold skipString. apply fuelSafe_bind; [apply fuelSafe_readCount|].
  intros n. apply fuelSafe_advance.
Qed.

Lemma fuelSafe_readBool lo : fuelSafe b lo readBool.
Proof.
  unfold readBool. apply fuelSafe_bind; [apply fuelSafe_readUint8|].
  intros c. apply fuelSafe_ret.
Qed.

Lemma fuelSafe_readNumber lo : fuelSafe b lo readNumber.
Proof.
  unfold readNumber.
  apply fuelSafe_bind; [apply fuelSafe_readCount|]. intros i.
  apply fuelSafe_bind; [apply fuelSafe_readCount|]. intros e.
  apply fuelSafe_ret.
Qed.

Lemma fuelSafe_readHash lo : fuelSafe b lo readHash.
Proof. apply fuelSafe_slice. Qed.

Lemma fuelSafe_skipHash lo : fuelSafe b lo skipHash.
Proof. apply fuelSafe_advance. Qed.

Lemma fuelSafe_readBytes lo : fuelSafe b lo readBytes.
Proof.
  unfold readBytes. apply fuelSafe_bind; [apply fuelSafe_readCount|].
  intros n. apply fuelSafe_slice.
Qed.

Lemma fuelSafe_skipBytes lo : fuelSafe b lo skipBytes.
Proof.
  unfold skipBytes. apply fuelSafe_bind; [apply fuelSafe_readCount|].
  intros n. apply fuelSafe_advance.
Qed.

Lemma fuelSafe_pos lo : fuelSafe b lo pos.
Proof.
  intros p _. split; [discriminate|].
  intros a q H. injection H as _ <-. lia.
Qed.

Lemma fuelSafe_PanicIfFalse lo c : fuelSafe b lo (PanicIfFalse c).
Proof. destruct c; [apply fuelSafe_ret|apply fuelSafe_panic]. Qed.

Lemma fuelSafe_PanicIfTrue lo c : fuelSafe b lo (PanicIfTrue c).
Proof. destruct c; [apply fuelSafe_panic|apply fuelSafe_ret]. Qed.

Lemma fuelSafe_repeatM {A} lo (body : Dec A) n :
  fuelSafe b lo body -> fuelSafe b lo (repeatM n body).
Proof.
  intros Hb. induction n as [|n IH]; simpl.
  - apply fuelSafe_ret.
  - apply fuelSafe_bind; [exact Hb|]. intros x.
    apply fuelSafe_bind; [exact IH|]. intros xs. apply fuelSafe_ret.
Qed.

Lemma fuelSafe_timesM lo (body : Dec unit) n :
  fuelSafe b lo body -> fuelSafe b lo (timesM n body).
Proof.
  intros Hb. induction n as [|n IH]; simpl.
  - apply fuelSafe_ret.
  - apply fuelSafe_bind; [exact Hb|]. intros _. exact IH.
Qed.

Lemma fuelSafe_repeatS {S A} lo (body : S -> Dec (A * S)) n :
  (forall s, fuelSafe b lo (body s)) ->
  forall s, fuelSafe b lo (repeatS n body s).
Proof.
  intros Hb. induction n as [|n IH]; simpl; intros s.
  - apply fuelSafe_ret.
  - apply fuelSafe_bind; [apply Hb|]. intros [x s1].
    apply fuelSafe_bind; [apply IH|]. intros [xs s2]. apply fuelSafe_ret.
Qed.

(** After the tag byte of an item has been read, what follows runs from a
    cursor that is further by one, with one unit of fuel less. *)
Lemma fuelSafe_after_kind {A} lo f (k : option NomsKind -> Dec A) :
  length b - lo < S f ->
  (forall lo', length b - lo' < f -> forall x, fuelSafe b lo' (k x)) ->
  fuelSafe b lo (bind readKind k).
Proof.
  intros Hf Hk p Hp. unfold fuelSafeAt, bind, readKind, bind, readUint8.
  destruct (nth_error b p) as [c|] eqn:E;
    [|split; [discriminate|intros; discriminate]].
  assert (Hlt : p < length b) by (apply nth_error_Some; congruence).
  unfold ret.
  destruct (Hk (S p) ltac:(lia) (kindOfTag (Byte.to_N c)) (S p) (le_n _))
    as [H1 H2].
  split; [exact H1|]. intros a q H. specialize (H2 _ _ H). lia.
Qed.

(** Goes through the structure of a piece of decoder code. *)
Ltac fuel_safe IH :=
  repeat first
    [ apply fuelSafe_ret | apply fuelSafe_panic
    | apply fuelSafe_readCount | apply fuelSafe_readUint8
    | apply fuelSafe_readString | apply fuelSafe_skipString
    | apply fuelSafe_readBool | apply fuelSafe_readNumber
    | apply fuelSafe_readHash | apply fuelSafe_skipHash
    | apply fuelSafe_readBytes | apply fuelSafe_skipBytes
    | apply fuelSafe_pos
    | apply fuelSafe_PanicIfFalse | apply fuelSafe_PanicIfTrue
    | solve [IH]
    | apply fuelSafe_bind; [|intros]
    | apply fuelSafe_timesM | apply fuelSafe_repeatM
    | apply fuelSafe_repeatS; intros
    | match goal with
      | |- fuelSafe _ _ (match ?x with _ => _ end) => destruct x
      end ].

Lemma fuelSafe_readTypeInnerF f : forall lo seen,
  length b - lo < f -> fuelSafe b lo (readTypeInnerF f seen).
Proof.
  induction f as [|f IH]; intros lo seen Hf; [lia|]. simpl.
  apply (fuelSafe_after_kind lo f); [exact Hf|]. intros lo' Hlo' k.
  unfold readStructType, readUnionType.
  fuel_safe ltac:(apply IH; exact Hlo').
Qed.

Lemma fuelSafe_skipTypeInnerF f : forall lo,
  length b - lo < f -> fuelSafe b lo (skipTypeInnerF f).
Proof.
  induction f as [|f IH]; intros lo Hf; [lia|]. simpl.
  apply (fuelSafe_after_kind lo f); [exact Hf|]. intros lo' Hlo' k.
  unfold skipStructType, skipUnionType.
  fuel_safe ltac:(apply IH; exact Hlo').
Qed.

Lemma fuelSafe_readTypeF validating f lo :
  length b - lo < f -> fuelSafe b lo (readTypeF validating f).
Proof.
  intros Hf. unfold readTypeF.
  fuel_safe ltac:(apply fuelSafe_readTypeInnerF; exact Hf).
Qed.

Lemma fuelSafe_skipTypeF validating f lo :
  length b - lo < f -> fuelSafe b lo (skipTypeF validating f).
Proof.
  intros Hf. unfold skipTypeF.
  fuel_safe ltac:(first [apply fuelSafe_readTypeF; exact Hf
                        |apply fuelSafe_skipTypeInnerF; exact Hf]).
Qed.

Lemma fuelSafe_skipValueF validating f : forall lo,
  length b - lo < f -> fuelSafe b lo (skipValueF validating f).
Proof.
  induction f as [|f IH]; intros lo Hf; [lia|]. simpl.
  apply (fuelSafe_after_kind lo f); [exact Hf|]. intros lo' Hlo' k.
  unfold skipMetaSequence, skipBlobLeafSequence, skipListLeafSequence,
    skipMapLeafSequence, skipSetLeafSequence, skipValueSequence,
    skipStruct, skipRef.
  fuel_safe ltac:(first [apply IH; exact Hlo'
                        |apply fuelSafe_skipTypeF; exact Hlo']).
Qed.

Lemma fuelSafe_readValueF validating f : forall lo,
  length b - lo < f -> fuelSafe b lo (readValueF validating f).
Proof.
  induction f as [|f IH]; intros lo Hf; [lia|]. simpl.
  apply (fuelSafe_after_kind lo f); [exact Hf|]. intros lo' Hlo' k.
  unfold readMetaSequence, readMetaTuple, readBlobLeafSequence,
    readListLeafSequence, readLazyValueOffsets, readMapLeafSequence,
    readSetLeafSequence, readValueSequence, readStruct, readRef.
  fuel_safe ltac:(first [apply IH; exact Hlo'
                        |apply fuelSafe_skipValueF; exact Hlo'
                        |apply fuelSafe_readTypeF; exact Hlo']).
Qed.

(** Code that starts by reading the tag byte moves the cursor forward, and
    the tag byte is inside the span. *)
Lemma progress_after_kind {A} f (k : option NomsKind -> Dec A) p a q :
  length b - p < S f ->
  (forall lo', length b - lo' < f -> forall x, fuelSafe b lo' (k x)) ->
  bind readKind k b p = Ok (a, q) -> p < q /\ p < length b.
Proof.
  intros Hf Hk. unfold bind, readKind, bind, readUint8.
  destruct (nth_error b p) as [c|] eqn:E; [|discriminate].
  assert (Hlt : p < length b) by (apply nth_error_Some; congruence).
  unfold ret. intros H.
  destruct (Hk (S p) ltac:(lia) (kindOfTag (Byte.to_N c)) (S p) (le_n _))
    as [_ H2].
  specialize (H2 _ _ H). lia.
Qed.

Lemma progress_skipTypeInnerF f p q :
  length b - p < f -> skipTypeInnerF f b p = Ok (tt, q) ->
  p < q /\ p < length b.
Proof.
  destruct f as [|f]; intros Hf; [lia|]. simpl.
  apply (progress_after_kind f); [exact Hf|]. intros lo' Hlo' k.
  unfold skipStructType, skipUnionType.
  fuel_safe ltac:(apply fuelSafe_skipTypeInnerF; exact Hlo').
Qed.

Lemma progress_skipValueF validating f p q :
  length b - p < f -> skipValueF validating f b p = Ok (tt, q) ->
  p < q /\ p < length b.
Proof.
  destruct f as [|f]; intros Hf; [lia|]. simpl.
  apply (progress_after_kind f); [exact Hf|]. intros lo' Hlo' k.
  unfold skipMetaSequence, skipBlobLeafSequence, skipListLeafSequence,
    skipMapLeafSequence, skipSetLeafSequence, skipValueSequence,
    skipStruct, skipRef.
  fuel_safe ltac:(first [apply fuelSafe_skipValueF; exact Hlo'
                        |apply fuelSafe_skipTypeF; exact Hlo']).
Qed.

Lemma progress_readValueF validating f p v q :
  length b - p < f -> readValueF validating f b p = Ok (v, q) ->
  p < q /\ p < length b.
Proof.
  destruct f as [|f]; intros Hf; [lia|]. simpl.
  apply (progress_after_kind f); [exact Hf|]. intros lo' Hlo' k.
  unfold readMetaSequence, readMetaTuple, readBlobLeafSequence,
    readListLeafSequence, readLazyValueOffsets, readMapLeafSequence,
    readSetLeafSequence, readValueSequence, readStruct, readRef.
  fuel_safe ltac:(first [apply fuelSafe_readValueF; exact Hlo'
                        |apply fuelSafe_skipValueF; exact Hlo'
                        |apply fuelSafe_readTypeF; exact Hlo']).
Qed.

End FuelSafe.

(** The entry points never run out of fuel: [OutOfFuel] is not an outcome
    of [readValue], [skipValue], [readType] or [skipType], for any span,
    cursor and validation mode. *)
Lemma entry_points_fuel_enough validating b p :
  readValue validating b p <> OutOfFuel /\
  skipValue validating b p <> OutOfFuel /\
  readType validating b p <> OutOfFuel /\
  skipType validating b p <> OutOfFuel.
Proof.
  unfold readValue, skipValue, readType, skipType, fuelFor.
  repeat split.
  - apply (fuelSafe_readValueF b validating (S (length b)) p); lia.
  - apply (fuelSafe_skipValueF b validating (S (length b)) p); lia.
  - apply (fuelSafe_readTypeF b validating (S (length b)) p); lia.
  - apply (fuelSafe_skipTypeF b validating (S (length b)) p); lia.
Qed.

(** ** Cancellation of the diff *)

Section DiffLog.

Variable Sink : Type.
Variable send : Sink -> ValueChanged -> bool * Sink.

Local Abbreviation LSink := (Sink * list (ValueChanged * bool))%type.

Lemma logged_log (st : LSink) c ok st' :
  logged send st c = (ok, st') -> snd st' = snd st ++ [(c, ok)].
Proof.
  unfold logged. destruct (send (fst st) c) as [ok' s']. intros H.
  injection H as <- <-. reflexivity.
Qed.

Lemma logged_delivered (st : LSink) c st' :
  logged send st c = (true, st') -> allDelivered (snd st) ->
  allDelivered (snd st').
Proof.
  intros H Hall. rewrite (logged_log _ _ _ _ H).
  apply Forall_app. split; [assumption|]. repeat constructor.
Qed.

Lemma logged_refused (st : LSink) c st' :
  logged send st c = (false, st') -> allDelivered (snd st) ->
  stoppedAtEnd (snd st').
Proof.
  intros H Hall. rewrite (logged_log _ _ _ _ H).
  exists (snd st), c. split; [reflexivity|assumption].
Qed.

Lemma diffRest_log mk r b p fn (st : LSink) go st' :
  diffRest LSink (logged send) mk r b p fn st = Ok (go, st') ->
  allDelivered (snd st) ->
  if go then allDelivered (snd st') else stoppedAtEnd (snd st').
Proof.
  revert p fn st. induction r as [|r IH]; simpl; intros p fn st H Hall.
  - injection H as <- <-. assumption.
  - apply bindR_Ok in H. destruct H as ([fn1 p1] & _ & H).
    apply bindR_Ok in H. destruct H as ([v p2] & _ & H).
    destruct (logged send st (mk fn1 v)) as [ok st1] eqn:Es.
    destruct ok.
    + eapply IH; eauto using logged_delivered.
    + injection H as <- <-. eauto using logged_refused.
Qed.

Lemma diffMerge_log fuel b1 b2 p1 p2 r1 r2 fn1 fn2 (st : LSink) e :
  diffMerge LSink (logged send) fuel b1 b2 p1 p2 r1 r2 fn1 fn2 st = Ok e ->
  allDelivered (snd st) ->
  match e with
  | Returned _ st' => stoppedAtEnd (snd st')
  | FellThrough _ _ _ _ _ _ _ st' => allDelivered (snd st')
  end.
Proof.
  revert p1 p2 r1 r2 fn1 fn2 st.
  induction fuel as [|fuel IH]; intros p1 p2 r1 r2 fn1 fn2 st H Hall;
    destruct r1 as [|r1], r2 as [|r2]; simpl in H;
    try (injection H as <-; assumption); try discriminate.
  apply bindR_Ok in H. destruct H as ([fn1' p1'] & _ & H).
  apply bindR_Ok in H. destruct H as ([fn2' p2'] & _ & H).
  destruct (String.eqb fn1' fn2').
  - apply bindR_Ok in H. destruct H as ([v1 q1] & _ & H).
    apply bindR_Ok in H. destruct H as ([v2 q2] & _ & H).
    destruct (Equals v1 v2); [eapply IH; eassumption|].
    match type of H with context [logged send st ?c] =>
      destruct (logged send st c) as [ok st1] eqn:Es end.
    destruct ok; [eapply IH; eauto using logged_delivered|].
    injection H as <-. eauto using logged_refused.
  - destruct (String.ltb fn1' fn2').
    + apply bindR_Ok in H. destruct H as ([v1 q1] & _ & H).
      match type of H with context [logged send st ?c] =>
        destruct (logged send st c) as [ok st1] eqn:Es end.
      destruct ok; [eapply IH; eauto using logged_delivered|].
      injection H as <-. eauto using logged_refused.
    + apply bindR_Ok in H. destruct H as ([v2 q2] & _ & H).
      match type of H with context [logged send st ?c] =>
        destruct (logged send st c) as [ok st1] eqn:Es end.
      destruct ok; [eapply IH; eauto using logged_delivered|].
      injection H as <-. eauto using logged_refused.
Qed.

Lemma Diff_log s last (st st' : LSink) :
  Diff LSink (logged send) s last st = Ok st' ->
  allDelivered (snd st) ->
  allDelivered (snd st') \/ stoppedAtEnd (snd st').
Proof.
  unfold Diff. intros H Hall.
  destruct (StructEquals s last); [injection H as <-; auto|].
  apply bindR_Ok in H. destruct H as ([c1 p1] & _ & H).
  apply bindR_Ok in H. destruct H as ([c2 p2] & _ & H).
  apply bindR_Ok in H. destruct H as (e & He & H).
  apply diffMerge_log in He; [|assumption].
  destruct e as [st1|q1 q2 r1 r2 fn1 fn2 st1].
  - injection H as <-. auto.
  - apply bindR_Ok in H. destruct H as ([go st2] & H2 & H).
    apply diffRest_log in H2; [|assumption].
    destruct go.
    + apply bindR_Ok in H. destruct H as ([go3 st3] & H3 & H).
      injection H as <-.
      apply diffRest_log in H3; [|assumption].
      destruct go3; auto.
    + injection H as <-. auto.
Qed.

Lemma allDelivered_lookup log k c ok :
  allDelivered log -> nth_error log k = Some (c, ok) -> ok = true.
Proof.
  intros Hall Hk. apply nth_error_In in Hk.
  unfold allDelivered in Hall. rewrite List.Forall_forall in Hall.
  apply (Hall _ Hk).
Qed.

Lemma readString_not_OutOfFuel b p : readString b p <> OutOfFuel.
Proof. apply (fuelSafe_readString b 0 p). lia. Qed.

Lemma nextName_not_OutOfFuel fn b p : nextName fn b p <> OutOfFuel.
Proof.
  unfold nextName. destruct (String.eqb fn "").
  - apply readString_not_OutOfFuel.
  - discriminate.
Qed.

Lemma readValueBytes_not_OutOfFuel b p : readValueBytes b p <> OutOfFuel.
Proof.
  unfold readValueBytes, bind, pos, readValueD.
  pose proof (proj1 (entry_points_fuel_enough false b p)) as H.
  destruct (readValue false b p) as [[v q]| |]; try congruence.
  unfold sliceFrom. destruct (q <=? length b); discriminate.
Qed.

Lemma decoderSkipToFields_not_OutOfFuel b p :
  decoderSkipToFields b p <> OutOfFuel.
Proof.
  assert (H : fuelSafe b 0 decoderSkipToFields).
  { unfold decoderSkipToFields.
    apply fuelSafe_bind; [|intros _].
    - intros q _. split; [discriminate|].
      intros a q' E. injection E as _ <-. lia.
    - apply fuelSafe_bind; [apply fuelSafe_skipString|intros _].
      apply fuelSafe_readCount. }
  apply (H p). lia.
Qed.

Lemma diffRest_not_OutOfFuel S0 (snd0 : S0 -> ValueChanged -> bool * S0) mk r :
  forall b p fn st, diffRest S0 snd0 mk r b p fn st <> OutOfFuel.
Proof.
  induction r as [|r IH]; intros b p fn st; simpl; [discriminate|].
  pose proof (nextName_not_OutOfFuel fn b p) as H1.
  destruct (nextName fn b p) as [[fn1 p1]| |]; simpl; try congruence.
  pose proof (readValueBytes_not_OutOfFuel b p1) as H2.
  destruct (readValueBytes b p1) as [[v p2]| |]; simpl; try congruence.
  destruct (snd0 st (mk fn1 v)) as [[] st1]; [apply IH|discriminate].
Qed.

Lemma diffMerge_not_OutOfFuel S0 (snd0 : S0 -> ValueChanged -> bool * S0) fuel :
  forall b1 b2 p1 p2 r1 r2 fn1 fn2 st,
    r1 + r2 <= fuel ->
    diffMerge S0 snd0 fuel b1 b2 p1 p2 r1 r2 fn1 fn2 st <> OutOfFuel.
Proof.
  induction fuel as [|fuel IH]; intros b1 b2 p1 p2 r1 r2 fn1 fn2 st Hf;
    destruct r1 as [|r1], r2 as [|r2]; simpl; try discriminate; try lia.
  pose proof (nextName_not_OutOfFuel fn1 b1 p1) as H1.
  destruct (nextName fn1 b1 p1) as [[fn1' p1']| |]; simpl; try congruence.
  pose proof (nextName_not_OutOfFuel fn2 b2 p2) as H2.
  destruct (nextName fn2 b2 p2) as [[fn2' p2']| |]; simpl; try congruence.
  pose proof (readValueBytes_not_OutOfFuel b1 p1') as H3.
  pose proof (readValueBytes_not_OutOfFuel b2 p2') as H4.
  destruct (String.eqb fn1' fn2').
  - destruct (readValueBytes b1 p1') as [[v1 q1]| |]; simpl; try congruence.
    pose proof (readValueBytes_not_OutOfFuel b2 p2') as H5.
    destruct (readValueBytes b2 p2') as [[v2 q2]| |]; simpl; try congruence.
    destruct (Equals v1 v2); [apply IH; lia|].
    match goal with |- context [snd0 st ?c] =>
      destruct (snd0 st c) as [[] st1] end; [apply IH; lia|discriminate].
  - destruct (String.ltb fn1' fn2').
    + destruct (readValueBytes b1 p1') as [[v1 q1]| |]; simpl; try congruence.
      match goal with |- context [snd0 st ?c] =>
        destruct (snd0 st c) as [[] st1] end; [apply IH; lia|discriminate].
    + destruct (readValueBytes b2 p2') as [[v2 q2]| |]; simpl; try congruence.
      match goal with |- context [snd0 st ?c] =>
        destruct (snd0 st c) as [[] st1] end; [apply IH; lia|discriminate].
Qed.

(** [Diff] returns or panics; it never runs out of the fuel of its loops. *)
Lemma Diff_not_OutOfFuel S0 (snd0 : S0 -> ValueChanged -> bool * S0) s last st :
  Diff S0 snd0 s last st <> OutOfFuel.
Proof.
  unfold Diff. destruct (StructEquals s last); [discriminate|].
  pose proof (decoderSkipToFields_not_OutOfFuel (buff s) 0) as H1.
  destruct (decoderSkipToFields (buff s) 0) as [[c1 p1]| |]; simpl;
    try congruence.
  pose proof (decoderSkipToFields_not_OutOfFuel (buff last) 0) as H2.
  destruct (decoderSkipToFields (buff last) 0) as [[c2 p2]| |]; simpl;
    try congruence.
  match goal with |- context [diffMerge S0 snd0 ?f ?b1 ?b2 ?q1 ?q2 ?r1 ?r2 ?a ?b ?c] =>
    pose proof (diffMerge_not_OutOfFuel S0 snd0 f b1 b2 q1 q2 r1 r2 a b c
                  (le_n _)) as H3;
    destruct (diffMerge S0 snd0 f b1 b2 q1 q2 r1 r2 a b c)
      as [[st1|q1' q2' r1' r2' fn1 fn2 st1]| |] end;
    simpl; try congruence; try discriminate.
  match goal with |- context [diffRest S0 snd0 ?mk ?r ?b ?p ?fn ?x] =>
    pose proof (diffRest_not_OutOfFuel S0 snd0 mk r b p fn x) as H4;
    destruct (diffRest S0 snd0 mk r b p fn x) as [[[] st2]| |] end;
    simpl; try congruence; try discriminate.
  match goal with |- context [diffRest S0 snd0 ?mk ?r ?b ?p ?fn ?x] =>
    pose proof (diffRest_not_OutOfFuel S0 snd0 mk r b p fn x) as H5;
    destruct (diffRest S0 snd0 mk r b p fn x) as [[[] st3]| |] end;
    simpl; try congruence; try discriminate.
Qed.


End DiffLog.

(** ** Where the skip path does follow the read path *)

Lemma readString_skipString b p s q :
  readString b p = Ok (s, q) -> skipString b p = Ok (tt, q).
Proof.
  unfold readString, skipString. intros H.
  apply bind_Ok in H. destruct H as (n & p1 & Hn & H).
  rewrite (bind_Ok_eq _ _ _ _ _ _ Hn).
  destruct (p1 + N.to_nat n <=? length b); [|discriminate].
  injection H as _ <-. reflexivity.
Qed.

Lemma readBytes_skipBytes b p d q :
  readBytes b p = Ok (d, q) -> skipBytes b p = Ok (tt, q).
Proof.
  unfold readBytes, skipBytes. intros H.
  apply bind_Ok in H. destruct H as (n & p1 & Hn & H).
  rewrite (bind_Ok_eq _ _ _ _ _ _ Hn). cbv zeta in H.
  destruct (p1 + N.to_nat (n mod 2 ^ 32) <=? length b); [|discriminate].
  injection H as _ <-. reflexivity.
Qed.

Lemma readHash_skipHash b p h q :
  readHash b p = Ok (h, q) -> skipHash b p = Ok (tt, q).
Proof.
  unfold readHash, skipHash. cbv zeta. intros H.
  destruct (p + hashByteLen <=? length b); [|discriminate].
  injection H as _ <-. reflexivity.
Qed.

Lemma repeatM_timesM {A} (P : A -> Prop) (rd : Dec A) (sk : Dec unit) n :
  (forall b p a q, rd b p = Ok (a, q) -> P a -> sk b p = Ok (tt, q)) ->
  forall b p xs q,
    repeatM n rd b p = Ok (xs, q) -> Forall P xs ->
    timesM n sk b p = Ok (tt, q).
Proof.
  intros Hrd. induction n as [|n IH]; simpl; intros b p xs q H HP.
  - unfold ret in *. injection H as _ <-. reflexivity.
  - apply bind_Ok in H. destruct H as (x & p1 & Hx & H).
    apply bind_Ok in H. destruct H as (xs' & p2 & Hxs & H).
    unfold ret in H. injection H as <- <-.
    inversion HP as [|? ? HPx HPxs]; subst.
    rewrite (bind_Ok_eq _ _ _ _ _ _ (Hrd _ _ _ _ Hx HPx)). eauto.
Qed.

Lemma repeatS_timesM {S A} (rd : S -> Dec (A * S)) (sk : Dec unit) n :
  (forall s b p a s' q, rd s b p = Ok ((a, s'), q) -> sk b p = Ok (tt, q)) ->
  forall s b p xs s' q,
    repeatS n rd s b p = Ok ((xs, s'), q) ->
    timesM n sk b p = Ok (tt, q).
Proof.
  intros Hrd. induction n as [|n IH]; simpl; intros s b p xs s' q H.
  - unfold ret in *. injection H as _ _ <-. reflexivity.
  - apply bind_Ok in H. destruct H as ([x s1] & p1 & Hx & H).
    apply bind_Ok in H. destruct H as ([xs' s2] & p2 & Hxs & H).
    unfold ret in H. injection H as _ _ <-.
    rewrite (bind_Ok_eq _ _ _ _ _ _ (Hrd _ _ _ _ _ _ Hx)). eauto.
Qed.

Lemma Forall_True {A} (xs : list A) : Forall (fun _ => True) xs.
Proof. induction xs; constructor; auto. Qed.

Lemma readTypeInnerF_skip f : forall seen b p t seen' q,
  readTypeInnerF f seen b p = Ok ((t, seen'), q) ->
  skipTypeInnerF f b p = Ok (tt, q).
Proof.
  induction f as [|f IH]; intros seen b p t seen' q H; simpl in *;
    [discriminate|].
  apply bind_Ok in H. destruct H as (k & p1 & Hk & H).
  rewrite (bind_Ok_eq _ _ _ _ _ _ Hk).
  destruct k as [[]|]; try discriminate;
    try (apply bind_Ok in H; destruct H as ([] & p2 & Hc & H);
         unfold ret in H; injection H as _ _ <-; exact Hc).
  - (* List *)
    apply bind_Ok in H. destruct H as ([t1 s1] & p2 & H1 & H).
    unfold ret in H. injection H as _ _ <-. eauto.
  - (* Map *)
    apply bind_Ok in H. destruct H as ([t1 s1] & p2 & H1 & H).
    apply bind_Ok in H. destruct H as ([t2 s2] & p3 & H2 & H).
    unfold ret in H. injection H as _ _ <-.
    rewrite (bind_Ok_eq _ _ _ _ _ _ (IH _ _ _ _ _ _ H1)). eauto.
  - (* Ref *)
    apply bind_Ok in H. destruct H as ([t1 s1] & p2 & H1 & H).
    unfold ret in H. injection H as _ _ <-. eauto.
  - (* Set *)
    apply bind_Ok in H. destruct H as ([t1 s1] & p2 & H1 & H).
    unfold ret in H. injection H as _ _ <-. eauto.
  - (* Struct *)
    unfold readStructType in H. unfold skipStructType.
    apply bind_Ok in H. destruct H as (name & q1 & Hname & H).
    apply bind_Ok in H. destruct H as (count & q2 & Hcount & H).
    apply bind_Ok in H. destruct H as (names & q3 & Hnames & H).
    apply bind_Ok in H. destruct H as ([types seen2] & q4 & Htypes & H).
    apply bind_Ok in H. destruct H as (optional & q5 & Hopt & H).
    unfold ret in H. injection H as _ _ <-.
    rewrite (bind_Ok_eq _ _ _ _ _ _ (readString_skipString _ _ _ _ Hname)).
    rewrite (bind_Ok_eq _ _ _ _ _ _ Hcount).
    erewrite bind_Ok_eq
      by (eapply (repeatM_timesM (fun _ => True));
          [intros; eapply readString_skipString; eassumption
          |exact Hnames|apply Forall_True]).
    erewrite bind_Ok_eq by (eapply repeatS_timesM; [exact IH|exact Htypes]).
    eapply (repeatM_timesM (fun _ => True)); [|exact Hopt|apply Forall_True].
    intros b0 p0 a0 q0 E _. rewrite (bind_Ok_eq _ _ _ _ _ _ E). reflexivity.
  - (* Cycle *)
    apply bind_Ok in H. destruct H as (name & q1 & Hname & H).
    apply bind_Ok in H. destruct H as ([] & q2 & Hne & H).
    unfold PanicIfTrue in Hne.
    destruct (String.eqb name ""); [discriminate|].
    unfold ret in Hne. injection Hne as <-.
    destruct (seenStructs seen !! name); [|discriminate].
    unfold ret in H. injection H as _ _ <-.
    eapply readString_skipString; eassumption.
  - (* Union *)
    unfold readUnionType in H. unfold skipUnionType.
    apply bind_Ok in H. destruct H as (l & q1 & Hl & H).
    apply bind_Ok in H. destruct H as ([ts seen1] & q2 & Hts & H).
    unfold ret in H. injection H as _ _ <-.
    rewrite (bind_Ok_eq _ _ _ _ _ _ Hl).
    eapply repeatS_timesM; [exact IH|exact Hts].
Qed.

Lemma readTypeF_skip f b p t q :
  readTypeF false f b p = Ok (t, q) -> skipTypeF false f b p = Ok (tt, q).
Proof.
  unfold readTypeF, skipTypeF. intros H.
  apply bind_Ok in H. destruct H as ([t' seen'] & q1 & Ht & H).
  apply bind_Ok in H. destruct H as ([] & q2 & Hv & H).
  unfold ret in Hv, H. injection Hv as <-. injection H as _ <-.
  unfold bind at 1. unfold ret.
  eapply readTypeInnerF_skip; eassumption.
Qed.

Lemma seqNoTuples_meta k level ts :
  seqNoTuples (metaSequence k level ts) = true -> ts = [].
Proof. destruct ts; [reflexivity|discriminate]. Qed.

Lemma readMetaSequence_skip (rv : Dec Value) (sk : Dec unit) k level b p s q :
  readMetaSequence rv k level b p = Ok (s, q) ->
  seqNoTuples s = true ->
  skipMetaSequence sk k level b p = Ok (tt, q).
Proof.
  unfold readMetaSequence, skipMetaSequence. intros H Hs.
  apply bind_Ok in H. destruct H as (count & p1 & Hc & H).
  apply bind_Ok in H. destruct H as (ts & p2 & Hts & H).
  unfold ret in H. injection H as <- <-.
  apply seqNoTuples_meta in Hs. subst ts.
  rewrite (bind_Ok_eq _ _ _ _ _ _ Hc).
  pose proof (repeatM_length _ _ _ _ _ _ Hts) as Hn. simpl in Hn.
  rewrite <- Hn in *. simpl in *. unfold ret in *.
  injection Hts as <-. reflexivity.
Qed.

Lemma forallb_Forall {A} (f : A -> bool) xs :
  forallb f xs = true -> Forall (fun x => f x = true) xs.
Proof.
  induction xs as [|x xs IH]; simpl; [constructor|].
  intros H. apply andb_true_iff in H. destruct H. constructor; auto.
Qed.

(** Without validation, [skipValue] ends where [readValue] ends on every
    value that decodes without a meta-sequence tuple in it. *)
Lemma readValueF_skip f : forall b p v q,
  readValueF false f b p = Ok (v, q) -> noTuples v = true ->
  skipValueF false f b p = Ok (tt, q).
Proof.
  induction f as [|f IH]; intros b p v q H Hv; simpl in H |- *;
    [discriminate|].
  apply bind_Ok in H. destruct H as (k & p1 & Hk & H).
  rewrite (bind_Ok_eq _ _ _ _ _ _ Hk).
  destruct k as [[]|]; try discriminate.
  - (* Bool *)
    apply bind_Ok in H. destruct H as (x & p2 & Hx & H).
    unfold ret in H. injection H as _ <-.
    rewrite (bind_Ok_eq _ _ _ _ _ _ Hx). reflexivity.
  - (* Number *)
    apply bind_Ok in H. destruct H as (x & p2 & Hx & H).
    unfold ret in H. injection H as _ <-.
    rewrite (bind_Ok_eq _ _ _ _ _ _ Hx). reflexivity.
  - (* String *)
    apply bind_Ok in H. destruct H as (x & p2 & Hx & H).
    unfold ret in H. injection H as _ <-.
    eapply readString_skipString; eassumption.
  - (* Blob *)
    apply bind_Ok in H. destruct H as (level & p2 & Hl & H).
    rewrite (bind_Ok_eq _ _ _ _ _ _ Hl).
    destruct (0 <? level)%N.
    + apply bind_Ok in H. destruct H as (s & p3 & Hs & H).
      unfold ret in H. injection H as <- <-.
      eapply readMetaSequence_skip; eassumption.
    + apply bind_Ok in H. destruct H as (s & p3 & Hs & H).
      unfold ret in H. injection H as _ <-.
      unfold readBlobLeafSequence in Hs.
      apply bind_Ok in Hs. destruct Hs as (d & p4 & Hd & Hs).
      unfold ret in Hs. injection Hs as _ <-.
      eapply readBytes_skipBytes; eassumption.
  - (* List *)
    apply bind_Ok in H. destruct H as (level & p2 & Hl & H).
    rewrite (bind_Ok_eq _ _ _ _ _ _ Hl).
    destruct (0 <? level)%N.
    + apply bind_Ok in H. destruct H as (s & p3 & Hs & H).
      unfold ret in H. injection H as <- <-.
      eapply readMetaSequence_skip; eassumption.
    + apply bind_Ok in H. destruct H as (s & p3 & Hs & H).
      unfold ret in H. injection H as _ <-.
      unfold readListLeafSequence, readLazyValueOffsets in Hs.
      apply bind_Ok in Hs. destruct Hs as (os & p4 & Hos & Hs).
      apply bind_Ok in Hs. destruct Hs as (e & p5 & He & Hs).
      unfold pos in He. injection He as _ <-.
      unfold ret in Hs. injection Hs as _ <-.
      apply bind_Ok in Hos. destruct Hos as (count & p6 & Hc & Hos).
      unfold skipListLeafSequence, skipValueSequence.
      rewrite (bind_Ok_eq _ _ _ _ _ _ Hc).
      eapply (repeatM_timesM (fun _ => True)); [|exact Hos|apply Forall_True].
      intros b0 p0 a0 q0 E _.
      apply bind_Ok in E. destruct E as (o & p7 & Ho & E).
      unfold pos in Ho. injection Ho as _ <-.
      apply bind_Ok in E. destruct E as ([] & p8 & Hsk & E).
      unfold ret in E. injection E as _ <-. exact Hsk.
  - (* Map *)
    apply bind_Ok in H. destruct H as (level & p2 & Hl & H).
    rewrite (bind_Ok_eq _ _ _ _ _ _ Hl).
    destruct (0 <? level)%N.
    + apply bind_Ok in H. destruct H as (s & p3 & Hs & H).
      unfold ret in H. injection H as <- <-.
      eapply readMetaSequence_skip; eassumption.
    + apply bind_Ok in H. destruct H as (s & p3 & Hs & H).
      unfold ret in H. injection H as <- <-.
      unfold readMapLeafSequence in Hs.
      apply bind_Ok in Hs. destruct Hs as (count & p4 & Hc & Hs).
      apply bind_Ok in Hs. destruct Hs as (d & p5 & Hd & Hs).
      unfold ret in Hs. injection Hs as <- <-.
      unfold skipMapLeafSequence.
      rewrite (bind_Ok_eq _ _ _ _ _ _ Hc).
      simpl in Hv. apply forallb_Forall in Hv.
      eapply repeatM_timesM; [|exact Hd|exact Hv].
      intros b0 p0 [k0 v0] q0 E HP.
      apply andb_true_iff in HP. destruct HP as [HPk HPv].
      apply bind_Ok in E. destruct E as (k1 & p7 & Hk1 & E).
      apply bind_Ok in E. destruct E as (v1 & p8 & Hv1 & E).
      unfold ret in E. injection E as -> -> <-.
      rewrite (bind_Ok_eq _ _ _ _ _ _ (IH _ _ _ _ Hk1 HPk)). eauto.
  - (* Ref *)
    unfold readRef in H. unfold skipRef.
    apply bind_Ok in H. destruct H as (h & p2 & Hh & H).
    apply bind_Ok in H. destruct H as (t & p3 & Ht & H).
    apply bind_Ok in H. destruct H as (ht & p4 & Hht & H).
    unfold ret in H. injection H as _ <-.
    rewrite (bind_Ok_eq _ _ _ _ _ _ (readHash_skipHash _ _ _ _ Hh)).
    rewrite (bind_Ok_eq _ _ _ _ _ _ (readTypeF_skip _ _ _ _ _ Ht)).
    rewrite (bind_Ok_eq _ _ _ _ _ _ Hht). reflexivity.
  - (* Set *)
    apply bind_Ok in H. destruct H as (level & p2 & Hl & H).
    rewrite (bind_Ok_eq _ _ _ _ _ _ Hl).
    destruct (0 <? level)%N.
    + apply bind_Ok in H. destruct H as (s & p3 & Hs & H).
      unfold ret in H. injection H as <- <-.
      eapply readMetaSequence_skip; eassumption.
    + apply bind_Ok in H. destruct H as (s & p3 & Hs & H).
      unfold ret in H. injection H as <- <-.
      unfold readSetLeafSequence, readValueSequence in Hs.
      apply bind_Ok in Hs. destruct Hs as (d & p4 & Hd & Hs).
      unfold ret in Hs. injection Hs as <- <-.
      apply bind_Ok in Hd. destruct Hd as (count & p5 & Hc & Hd).
      unfold skipSetLeafSequence, skipValueSequence.
      rewrite (bind_Ok_eq _ _ _ _ _ _ Hc).
      simpl in Hv. apply forallb_Forall in Hv.
      eapply repeatM_timesM; [|exact Hd|exact Hv].
      intros b0 p0 a0 q0 E HP. eauto.
  - (* Struct *)
    unfold readStruct in H. unfold skipStruct.
    apply bind_Ok in H. destruct H as (name & p2 & Hname & H).
    apply bind_Ok in H. destruct H as (count & p3 & Hc & H).
    apply bind_Ok in H. destruct H as (fields & p4 & Hf & H).
    unfold ret in H. injection H as <- <-.
    rewrite (bind_Ok_eq _ _ _ _ _ _ (readString_skipString _ _ _ _ Hname)).
    rewrite (bind_Ok_eq _ _ _ _ _ _ Hc).
    simpl in Hv. apply forallb_Forall in Hv.
    rewrite List.Forall_map in Hv.
    eapply repeatM_timesM; [|exact Hf|exact Hv].
    intros b0 p0 [n0 v0] q0 E HP. simpl in HP.
    apply bind_Ok in E. destruct E as (n1 & p7 & Hn1 & E).
    apply bind_Ok in E. destruct E as (v1 & p8 & Hv1 & E).
    unfold ret in E. injection E as -> -> <-.
    rewrite (bind_Ok_eq _ _ _ _ _ _ (readString_skipString _ _ _ _ Hn1)).
    eauto.
  - (* Type *)
    apply bind_Ok in H. destruct H as (t & p2 & Ht & H).
    unfold ret in H. injection H as _ <-.
    eapply readTypeF_skip; eassumption.
Qed.

(** The same for the entry points: a value that [readValue] decodes
    without a meta-sequence tuple in it is skipped over the same bytes. *)
Lemma readValue_skipValue b p v q :
  readValue false b p = Ok (v, q) -> noTuples v = true ->
  skipValue false b p = Ok (tt, q).
Proof. unfold readValue, skipValue. apply readValueF_skip. Qed.

(** Hence the encodings that [readValue] decodes whole, and without a
    tuple, are field values the Struct operations handle. *)
Lemma regular_of_readValue e v :
  readValue false e 0 = Ok (v, length e) -> noTuples v = true -> regular e.
Proof.
  intros H Hv. split; [eapply readValue_skipValue; eassumption|].
  exists v. exact H.
Qed.

(** ** The structs the constructor builds are well-formed *)

Lemma NewStruct_Ok_inv enum name (data : gmap string EncodedValue) s :
  NewStruct enum name data = Ok s ->
  exists values,
    Forall2 (fun n v => data !! n = Some v) (sortStrings enum) values /\
    buff s = encodeStruct name (combine (sortStrings enum) values).
Proof.
  intros H. unfold NewStruct in H.
  apply bindR_Ok in H. destruct H as ([] & _ & H).
  apply bindR_Ok in H. destruct H as ([] & _ & H).
  apply bindR_Ok in H. destruct H as (values & Hv & H).
  apply lookupValues_Ok in Hv.
  unfold newStruct in H.
  rewrite writeFields_encode in H by (eapply Forall2_length; eauto).
  simpl in H. injection H as <-.
  exists values. split; [exact Hv|]. simpl.
  unfold encodeStruct. rewrite length_combine.
  rewrite <- (Forall2_length _ _ _ Hv), Nat.min_id.
  rewrite <- !app_assoc. reflexivity.
Qed.

(** A struct built by [NewStruct] from values the decoder delimits is
    well-formed in the sense of [isStruct]. *)
Lemma NewStruct_isStruct enum name (data : gmap string EncodedValue) s :
  enum ≡ₚ (map_to_list data).*1 ->
  NewStruct enum name data = Ok s ->
  goLen (String.length name) ->
  goLen (S (length enum)) ->
  (forall n v, data !! n = Some v -> goLen (String.length n) /\ regular v) ->
  exists fs, isStruct s name fs /\
             forall n v, In (n, v) fs <-> data !! n = Some v.
Proof.
  intros Hperm H Hname Hcount Hdata.
  destruct (NewStruct_Ok_inv _ _ _ _ H) as (values & Hv & Hb).
  assert (Hfst : map fst (combine (sortStrings enum) values)
                 = sortStrings enum).
  { clear -Hv. induction Hv; simpl; congruence. }
  exists (combine (sortStrings enum) values).
  assert (Hmem : forall n v, In (n, v) (combine (sortStrings enum) values)
                             -> data !! n = Some v).
  { clear -Hv. induction Hv as [|n' v' ns vs E Hv IH]; simpl;
      intros n v Hin; [destruct Hin|].
    destruct Hin as [Heq|Hin]; [congruence|auto]. }
  split; [split; [exact Hb|]; split; [exact Hname|]; split; [|split]|].
  - rewrite length_combine, <- (Forall2_length _ _ _ Hv), Nat.min_id.
    assert (E : length (sortStrings enum) = length enum)
      by (apply Permutation_length, sortStrings_Permutation).
    rewrite E. exact Hcount.
  - apply List.Forall_forall. intros [n v] Hin. apply Hdata. auto.
  - rewrite Hfst. apply sortStrings_ascending.
    rewrite Hperm. apply NoDup_fst_map_to_list.
  - intros n v. split; [apply Hmem|]. intros E.
    assert (Hn : In n (sortStrings enum)).
    { rewrite <- list_elem_of_In, sortStrings_Permutation, Hperm.
      rewrite list_elem_of_fmap. exists (n, v). split; [reflexivity|].
      apply elem_of_map_to_list. exact E. }
    clear -Hn Hv E.
    induction Hv as [|n' v' ns vs E' Hv IH]; simpl in *; [destruct Hn|].
    destruct Hn as [->|Hn]; [left; congruence|auto].
Qed.

(** * Further properties *)

(** ** Reading a struct back *)

Lemma isStruct_count s name fs :
  isStruct s name fs -> goLen (length fs).
Proof. intros (_ & _ & H & _). unfold goLen in *. lia. Qed.

Lemma lookupField_In n v fs :
  ascending (map fst fs) -> (lookupField n fs = Some v <-> In (n, v) fs).
Proof.
  induction fs as [|[m x] fs IH]; intros Hs; simpl.
  - split; [discriminate|tauto].
  - apply (proj1 (ascending_cons m x fs)) in Hs. destruct Hs as [Ha Hs].
    destruct (String.eqb m n) eqn:E.
    + apply String.eqb_eq in E. subst m. split.
      * intros [= ->]. left. reflexivity.
      * intros [[= ->]|Hin]; [reflexivity|].
        exfalso. unfold allAfter in Ha.
        rewrite List.Forall_forall in Ha. specialize (Ha _ Hin). simpl in Ha.
        rewrite ltb_irrefl in Ha. discriminate.
    + rewrite (IH Hs). split; [tauto|].
      intros [[= -> ->]|Hin]; [|exact Hin].
      rewrite String.eqb_refl in E. discriminate.
Qed.

Lemma lookupField_None n fs :
  lookupField n fs = None <-> ~ In n (map fst fs).
Proof.
  induction fs as [|[m x] fs IH]; simpl.
  - tauto.
  - destruct (String.eqb m n) eqn:E.
    + apply String.eqb_eq in E. split; [discriminate|]. intros H. tauto.
    + apply String.eqb_neq in E. rewrite IH. tauto.
Qed.

(** X1.  Let [s] be the struct [name] with well-formed fields [fs].
    [s.MaybeGet(n)] never panics: it returns the value [v] with [found]
    set exactly when [(n, v)] is a field of [s], and [(nil, false)] exactly
    when no field is called [n].  [s.Get(n)] returns the same value when
    the field exists and panics when it does not. *)
Theorem MaybeGet_Get_lookup s name fs n :
  isStruct s name fs ->
  (exists r, MaybeGet s n = Ok r) /\
  (forall v, MaybeGet s n = Ok (Some v) <-> In (n, v) fs) /\
  (MaybeGet s n = Ok None <-> ~ In n (map fst fs)) /\
  (forall v, Get s n = Ok v <-> In (n, v) fs) /\
  (Get s n = Panic <-> ~ In n (map fst fs)).
Proof.
  intros Hs. pose proof (isStruct_count _ _ _ Hs) as Hc.
  destruct Hs as (Hb & Hname & _ & Hok & Hasc).
  assert (HM : MaybeGet s n = Ok (lookupField n fs)).
  { apply (MaybeGet_spec s name fs n Hb Hname Hc); [|exact Hasc].
    eapply List.Forall_impl; [apply fieldOk_fieldOkFor|exact Hok]. }
  unfold Get. rewrite HM. cbn [bindR].
  split; [eauto|]. split; [|split; [|split]].
  - intros v. rewrite <- (lookupField_In n v fs Hasc).
    split; [intros [= E]; exact E|intros ->; reflexivity].
  - rewrite <- lookupField_None.
    split; [intros [= E]; exact E|intros ->; reflexivity].
  - intros v. rewrite <- (lookupField_In n v fs Hasc).
    destruct (lookupField n fs); split; intros H;
      try discriminate; congruence.
  - rewrite <- lookupField_None.
    destruct (lookupField n fs); split; intros H;
      try discriminate; reflexivity.
Qed.

Lemma header_at name count rest :
  goLen (String.length name) -> (count < 2 ^ 64)%N ->
  forall B, B = structHeader name count ++ rest ->
  skipKind B 0 = Ok (tt, 1) /\
  readString B 1 = Ok (name, 1 + length (writeString name)) /\
  readCount B (1 + length (writeString name))
  = Ok (count, length (structHeader name count)).
Proof.
  intros Hname Hc B ->. split; [reflexivity|]. split.
  - apply (readString_at _ (writeKind StructKind) name
             (writeCount count ++ rest)); [|reflexivity|exact Hname].
    unfold structHeader. rewrite <- !app_assoc. reflexivity.
  - replace (length (structHeader name count))
      with (1 + length (writeString name) + length (writeCount count))
      by (unfold structHeader; rewrite !length_app; simpl; lia).
    apply (readCount_at _ (writeKind StructKind ++ writeString name) count rest);
      [|rewrite length_app; reflexivity|exact Hc].
    unfold structHeader. rewrite <- !app_assoc. reflexivity.
Qed.

Lemma iterBody_at B pre m x rest p :
  B = pre ++ writeString m ++ x ++ rest -> p = length pre ->
  goLen (String.length m) -> readable x ->
  (let* n := readString in let* v := readValueBytes in ret (n, v)) B p
  = Ok ((m, x), p + length (writeString m) + length x).
Proof.
  intros HB Hp Hm Hx.
  erewrite bind_Ok_eq by (eapply (readString_at _ pre m); eassumption).
  erewrite bind_Ok_eq
    by (eapply (readValueBytes_at _ (pre ++ writeString m) x rest);
        [subst B; frame|subst p; frame|exact Hx]).
  reflexivity.
Qed.

Lemma iterLoop_spec fs : forall B pre rest p,
  B = pre ++ encodeFields fs ++ rest -> p = length pre ->
  Forall fieldOk fs ->
  repeatM (length fs)
    (let* n := readString in let* v := readValueBytes in ret (n, v)) B p
  = Ok (fs, p + length (encodeFields fs)).
Proof.
  induction fs as [|[m x] fs IH]; intros B pre rest p HB Hp Hok.
  - simpl. unfold ret. rewrite Nat.add_0_r. reflexivity.
  - inversion Hok as [|? ? [Hm [_ Hx]] Hok']; subst. simpl in Hm, Hx.
    cbn [length repeatM].
    erewrite bind_Ok_eq
      by (eapply (iterBody_at _ pre m x (encodeFields fs ++ rest));
          [frame|reflexivity|exact Hm|exact Hx]).
    erewrite bind_Ok_eq
      by (eapply (IH _ (pre ++ writeString m ++ x) rest);
          [frame|frame|exact Hok']).
    unfold ret. cbn [encodeFields]. rewrite !length_app. do 2 f_equal. lia.
Qed.

Lemma decoderSkipToFields_at s name fs :
  buff s = encodeStruct name fs ->
  goLen (String.length name) -> goLen (length fs) ->
  decoderSkipToFields (buff s) 0
  = Ok (N.of_nat (length fs), length (structHeader name (N.of_nat (length fs)))).
Proof.
  intros Hb Hname Hc. rewrite Hb, encodeStruct_header.
  apply decoderSkipToFields_spec; [exact Hname|apply goLen_count; exact Hc].
Qed.

(** X2.  Let [s] be the struct [name] with well-formed fields [fs].
    [s.Name()] is [name], [s.Len()] is the number of fields, [s.Empty()]
    holds exactly when there is none, and [s.IterFields(cb)] calls [cb]
    once for every field, with its name and its value, in ascending order
    of the names. *)
Theorem Name_Len_IterFields_read_back s name fs :
  isStruct s name fs ->
  Name s = Ok name /\
  Len s = Ok (Z.of_nat (length fs)) /\
  Empty s = Ok (match fs with [] => true | _ :: _ => false end) /\
  IterFields s = Ok fs /\
  ascending (map fst fs).
Proof.
  intros Hs. pose proof (isStruct_count _ _ _ Hs) as Hc.
  destruct Hs as (Hb & Hname & _ & Hok & Hasc).
  destruct (header_at name (N.of_nat (length fs)) (encodeFields fs) Hname
              (goLen_count _ Hc) (buff s)) as (Hk & Hn & Hcnt).
  { rewrite Hb. apply encodeStruct_header. }
  pose proof (Len_spec s name fs Hb Hname Hc) as HL.
  split; [|split; [exact HL|split; [|split; [|exact Hasc]]]].
  - unfold Name. eapply run_Ok. unfold bind. rewrite Hk. exact Hn.
  - unfold Empty. rewrite HL. cbn [bindR]. f_equal.
    destruct fs; [reflexivity|]. simpl length.
    apply Z.eqb_neq. lia.
  - unfold IterFields. eapply run_Ok.
    erewrite bind_Ok_eq by (eapply decoderSkipToFields_at; eassumption).
    rewrite Nat2N.id.
    apply (iterLoop_spec fs _ (structHeader name (N.of_nat (length fs))) []);
      [|reflexivity|exact Hok].
    rewrite Hb, encodeStruct_header, app_nil_r. reflexivity.
Qed.

Lemma walkLoop_spec fs : forall B pre rest p,
  B = pre ++ encodeFields fs ++ rest -> p = length pre ->
  Forall fieldOk fs ->
  repeatM (length fs) (skipString ;;; readValueBytes) B p
  = Ok (map snd fs, p + length (encodeFields fs)).
Proof.
  induction fs as [|[m x] fs IH]; intros B pre rest p HB Hp Hok.
  - simpl. unfold ret. rewrite Nat.add_0_r. reflexivity.
  - inversion Hok as [|? ? [Hm [_ Hx]] Hok']; subst. simpl in Hm, Hx.
    cbn [length repeatM map snd].
    assert (Hbody : (skipString ;;; readValueBytes)
                      (pre ++ encodeFields ((m, x) :: fs) ++ rest) (length pre)
                    = Ok (x, length pre + length (writeString m) + length x)).
    { erewrite bind_Ok_eq
        by (eapply (skipString_at _ pre m); [frame|reflexivity|exact Hm]).
      eapply (readValueBytes_at _ (pre ++ writeString m) x
                (encodeFields fs ++ rest)); [frame|frame|exact Hx]. }
    erewrite bind_Ok_eq by exact Hbody.
    erewrite bind_Ok_eq
      by (eapply (IH _ (pre ++ writeString m ++ x) rest);
          [frame|frame|exact Hok']).
    unfold ret. cbn [encodeFields]. rewrite !length_app. do 2 f_equal. lia.
Qed.

Lemma partsLoop_spec fs : forall B pre rest p,
  B = pre ++ encodeFields fs ++ rest -> p = length pre ->
  Forall fieldOk fs ->
  repeatM (length fs)
    (let* n := readString in
     let* v := readValueBytes in
     ret [partFieldName n; partFieldValue v]) B p
  = Ok (map (fun f => [partFieldName (fst f); partFieldValue (snd f)]) fs,
        p + length (encodeFields fs)).
Proof.
  induction fs as [|[m x] fs IH]; intros B pre rest p HB Hp Hok.
  - simpl. unfold ret. rewrite Nat.add_0_r. reflexivity.
  - inversion Hok as [|? ? [Hm [_ Hx]] Hok']; subst. simpl in Hm, Hx.
    cbn [length repeatM map fst snd].
    assert (Hbody : (let* n := readString in
                     let* v := readValueBytes in
                     ret [partFieldName n; partFieldValue v])
                      (pre ++ encodeFields ((m, x) :: fs) ++ rest) (length pre)
                    = Ok ([partFieldName m; partFieldValue x],
                          length pre + length (writeString m) + length x)).
    { erewrite bind_Ok_eq
        by (eapply (readString_at _ pre m); [frame|reflexivity|exact Hm]).
      erewrite bind_Ok_eq
        by (eapply (readValueBytes_at _ (pre ++ writeString m) x
                      (encodeFields fs ++ rest)); [frame|frame|exact Hx]).
      reflexivity. }
    erewrite bind_Ok_eq by exact Hbody.
    erewrite bind_Ok_eq
      by (eapply (IH _ (pre ++ writeString m ++ x) rest);
          [frame|frame|exact Hok']).
    unfold ret. cbn [encodeFields]. rewrite !length_app. do 2 f_equal. lia.
Qed.


(** X3.  Let [s] be the struct [name] with well-formed fields [fs].
    [s.WalkValues(cb)] calls [cb] with the values of the fields, one call
    per field in field order.  [s.iterParts(cbs)] reports the name, then the
    number of fields, then every field as its name followed by its value,
    and then the end; the count it reports is the number of field pairs
    that follow. *)
Theorem WalkValues_iterParts_visit_fields s name fs :
  isStruct s name fs ->
  WalkValues s = Ok (map snd fs) /\
  iterParts s = Ok (partsOf name fs).
Proof.
  intros Hs. pose proof (isStruct_count _ _ _ Hs) as Hc.
  destruct Hs as (Hb & Hname & _ & Hok & Hasc).
  assert (HB : buff s = structHeader name (N.of_nat (length fs))
                        ++ encodeFields fs ++ [])
    by (rewrite Hb, encodeStruct_header, app_nil_r; reflexivity).
  split.
  - unfold WalkValues. eapply run_Ok.
    erewrite bind_Ok_eq by (eapply decoderSkipToFields_at; eassumption).
    rewrite Nat2N.id.
    apply (walkLoop_spec fs _ (structHeader name (N.of_nat (length fs))) []);
      [exact HB|reflexivity|exact Hok].
  - destruct (header_at name (N.of_nat (length fs)) (encodeFields fs) Hname
                (goLen_count _ Hc) (buff s)) as (Hk & Hn & Hcnt).
    { rewrite Hb. apply encodeStruct_header. }
    unfold iterParts. eapply run_Ok.
    erewrite bind_Ok_eq by exact Hk.
    erewrite bind_Ok_eq by exact Hn.
    erewrite bind_Ok_eq by exact Hcnt.
    rewrite Nat2N.id.
    erewrite bind_Ok_eq
      by (apply (partsLoop_spec fs _ (structHeader name (N.of_nat (length fs))) []);
          [exact HB|reflexivity|exact Hok]).
    unfold ret, partsOf. rewrite flat_map_concat_map. reflexivity.
Qed.


(** ** Structs as values *)

Lemma readKind_at B pre k rest :
  B = pre ++ writeKind k ++ rest ->
  readKind B (length pre) = Ok (Some k, S (length pre)).
Proof.
  intros ->. unfold readKind, bind, readUint8, writeKind. simpl app.
  rewrite nth_error_middle. unfold ret. destruct k; reflexivity.
Qed.

Lemma skipValueF_at f B pre x rest p :
  B = pre ++ x ++ rest -> p = length pre -> regular x -> fuelFor x <= f ->
  skipValueF false f B p = Ok (tt, p + length x).
Proof.
  intros -> -> [Hs _] Hf. unfold skipValue in Hs.
  destruct (sim_skipValueF pre rest false (fuelFor x) f Hf _ _ _ _ Hs)
    as ([] & E & _).
  rewrite Nat.add_0_r in E. exact E.
Qed.

Lemma readValueF_at f B pre x rest p :
  B = pre ++ x ++ rest -> p = length pre -> readable x -> fuelFor x <= f ->
  exists v, readValueF false f B p = Ok (v, p + length x).
Proof.
  intros -> -> [v Hr] Hf. unfold readValue in Hr.
  destruct (sim_readValueF pre rest false (fuelFor x) f Hf _ _ _ _ Hr)
    as (v' & E & _).
  rewrite Nat.add_0_r in E. eauto.
Qed.

Lemma skipFields_spec (sk : Dec unit) B fs : forall pre rest p,
  B = pre ++ encodeFields fs ++ rest -> p = length pre ->
  Forall fieldOk fs ->
  (forall pre' x rest', B = pre' ++ x ++ rest' -> length pre < length pre' ->
     regular x -> sk B (length pre') = Ok (tt, length pre' + length x)) ->
  timesM (length fs) (skipString ;;; sk) B p
  = Ok (tt, p + length (encodeFields fs)).
Proof.
  induction fs as [|[m x] fs IH]; intros pre rest p HB Hp Hok Hsk.
  - simpl. unfold ret. rewrite Nat.add_0_r. reflexivity.
  - inversion Hok as [|? ? [Hm Hx] Hok']; subst. simpl in Hm, Hx.
    cbn [length timesM].
    pose proof (writeCount_length (N.of_nat (String.length m))) as Hw.
    assert (Hlen : length pre < length (pre ++ writeString m)).
    { unfold writeString. rewrite !length_app. lia. }
    assert (Hbody : (skipString ;;; sk)
                      (pre ++ encodeFields ((m, x) :: fs) ++ rest) (length pre)
                    = Ok (tt, length (pre ++ writeString m ++ x))).
    { erewrite bind_Ok_eq
        by (eapply (skipString_at _ pre m); [frame|reflexivity|exact Hm]).
      replace (length pre + length (writeString m))
        with (length (pre ++ writeString m)) by (rewrite length_app; lia).
      rewrite (Hsk (pre ++ writeString m) x (encodeFields fs ++ rest));
        [|frame|exact Hlen|exact Hx].
      rewrite !length_app. do 2 f_equal. lia. }
    erewrite bind_Ok_eq by exact Hbody.
    rewrite (IH (pre ++ writeString m ++ x) rest _ ltac:(frame) eq_refl Hok').
    + cbn [encodeFields]. rewrite !length_app. do 2 f_equal. lia.
    + intros pre' x' rest' HB' Hlt Hx'.
      apply (Hsk pre' x' rest'); [exact HB'| |exact Hx'].
      rewrite !length_app in Hlt. lia.
Qed.

Lemma readFields_spec (rv : Dec Value) B fs : forall pre rest p,
  B = pre ++ encodeFields fs ++ rest -> p = length pre ->
  Forall fieldOk fs ->
  (forall pre' x rest', B = pre' ++ x ++ rest' -> length pre < length pre' ->
     readable x -> exists v, rv B (length pre') = Ok (v, length pre' + length x)) ->
  exists l,
    repeatM (length fs)
      (let* n := readString in let* v := rv in ret (n, v)) B p
    = Ok (l, p + length (encodeFields fs)).
Proof.
  induction fs as [|[m x] fs IH]; intros pre rest p HB Hp Hok Hrv.
  - simpl. unfold ret. rewrite Nat.add_0_r. eauto.
  - inversion Hok as [|? ? [Hm [_ Hx]] Hok']; subst. simpl in Hm, Hx.
    cbn [length repeatM].
    pose proof (writeCount_length (N.of_nat (String.length m))) as Hw.
    assert (Hlen : length pre < length (pre ++ writeString m)).
    { unfold writeString. rewrite !length_app. lia. }
    destruct (Hrv (pre ++ writeString m) x (encodeFields fs ++ rest))
      as [v Hv]; [frame|exact Hlen|exact Hx|].
    assert (Hbody : (let* n := readString in let* v := rv in ret (n, v))
                      (pre ++ encodeFields ((m, x) :: fs) ++ rest) (length pre)
                    = Ok ((m, v), length (pre ++ writeString m ++ x))).
    { erewrite bind_Ok_eq
        by (eapply (readString_at _ pre m); [frame|reflexivity|exact Hm]).
      replace (length pre + length (writeString m))
        with (length (pre ++ writeString m)) by (rewrite length_app; lia).
      erewrite bind_Ok_eq by exact Hv.
      unfold ret. rewrite !length_app. do 2 f_equal. lia. }
    erewrite bind_Ok_eq by exact Hbody.
    destruct (IH (pre ++ writeString m ++ x) rest _ ltac:(frame) eq_refl Hok')
      as [l Hl].
    + intros pre' x' rest' HB' Hlt Hx'.
      apply (Hrv pre' x' rest'); [exact HB'| |exact Hx'].
      rewrite !length_app in Hlt. lia.
    + erewrite bind_Ok_eq by exact Hl.
      unfold ret. cbn [encodeFields]. rewrite !length_app.
      eexists. do 2 f_equal. lia.
Qed.

Lemma structHeader_length name count :
  length (structHeader name count)
  = 1 + length (writeString name) + length (writeCount count).
Proof. unfold structHeader. rewrite !length_app. simpl. lia. Qed.

Lemma fuel_of_part (B pre x rest : list byte) :
  B = pre ++ x ++ rest -> 0 < length pre -> fuelFor x <= length B.
Proof. intros -> H. unfold fuelFor. rewrite !length_app. lia. Qed.

(** X4.  The buffer of a struct is itself an encoded value that both
    [skipValue] and [readValue] go over from its first to its last byte:
    whatever the name and however many well-formed fields, in any order.
    So a struct can be the value of a field of another struct. *)
Theorem struct_buffer_is_a_value name fs :
  goLen (String.length name) -> goLen (length fs) -> Forall fieldOk fs ->
  regular (encodeStruct name fs).
Proof.
  intros Hname Hc Hok.
  set (E := encodeStruct name fs).
  assert (HE : E = structHeader name (N.of_nat (length fs))
                   ++ encodeFields fs ++ [])
    by (unfold E; rewrite encodeStruct_header, app_nil_r; reflexivity).
  assert (HE0 : E = [] ++ writeKind StructKind
                    ++ (writeString name ++ writeCount (N.of_nat (length fs))
                        ++ encodeFields fs)) by reflexivity.
  destruct (header_at name (N.of_nat (length fs)) (encodeFields fs) Hname
              (goLen_count _ Hc) E) as (_ & Hn & Hcnt).
  { unfold E. apply encodeStruct_header. }
  assert (Hlen : length E = length (structHeader name (N.of_nat (length fs)))
                            + length (encodeFields fs)).
  { rewrite HE at 1. rewrite !length_app. simpl. lia. }
  split; [|unfold readable].
  - unfold skipValue, fuelFor. cbn [skipValueF].
    erewrite bind_Ok_eq by (apply (readKind_at E [] StructKind _ HE0)).
    unfold skipStruct.
    erewrite bind_Ok_eq
      by (eapply readString_skipString; exact Hn).
    erewrite bind_Ok_eq by exact Hcnt.
    rewrite Nat2N.id.
    rewrite (skipFields_spec _ E fs (structHeader name (N.of_nat (length fs)))
               [] _ HE eq_refl Hok).
    + rewrite Hlen. reflexivity.
    + intros pre' x rest' HB' Hlt Hx.
      eapply skipValueF_at; [exact HB'|reflexivity|exact Hx|].
      eapply fuel_of_part; [exact HB'|lia].
  - unfold readValue, fuelFor. cbn [readValueF].
    erewrite bind_Ok_eq by (apply (readKind_at E [] StructKind _ HE0)).
    unfold readStruct.
    erewrite bind_Ok_eq by exact Hn.
    erewrite bind_Ok_eq by exact Hcnt.
    rewrite Nat2N.id.
    destruct (readFields_spec (readValueF false (length E)) E fs
                (structHeader name (N.of_nat (length fs))) [] _ HE eq_refl Hok)
      as [l Hl].
    + intros pre' x rest' HB' Hlt Hx.
      eapply readValueF_at; [exact HB'|reflexivity|exact Hx|].
      eapply fuel_of_part; [exact HB'|lia].
    + erewrite bind_Ok_eq by exact Hl.
      unfold ret. rewrite Hlen. eauto.
Qed.

Lemma skipValue_at validating B pre x rest :
  B = pre ++ x ++ rest ->
  skipValue validating x 0 = Ok (tt, length x) ->
  skipValue validating B (length pre) = Ok (tt, length pre + length x).
Proof.
  intros -> Hs. unfold skipValue in *.
  destruct (sim_skipValueF pre rest validating (fuelFor x)
              (fuelFor (pre ++ x ++ rest))
              ltac:(unfold fuelFor; rewrite !length_app; lia)
              _ _ _ _ Hs) as ([] & E & _).
  rewrite Nat.add_0_r in E. exact E.
Qed.

Lemma skipFields_by validating B fs : forall pre rest p,
  B = pre ++ encodeFields fs ++ rest -> p = length pre ->
  Forall (skippable validating) fs ->
  timesM (length fs) (skipString ;;; skipValue validating) B p
  = Ok (tt, p + length (encodeFields fs)).
Proof.
  induction fs as [|[m x] fs IH]; intros pre rest p HB Hp Hok.
  - simpl. unfold ret. rewrite Nat.add_0_r. reflexivity.
  - inversion Hok as [|? ? [Hm Hx] Hok']; subst. simpl in Hm, Hx.
    cbn [length timesM].
    pose proof (writeCount_length (N.of_nat (String.length m))) as Hw.
    assert (Hbody : (skipString ;;; skipValue validating)
                      (pre ++ encodeFields ((m, x) :: fs) ++ rest) (length pre)
                    = Ok (tt, length (pre ++ writeString m ++ x))).
    { erewrite bind_Ok_eq
        by (eapply (skipString_at _ pre m); [frame|reflexivity|exact Hm]).
      replace (length pre + length (writeString m))
        with (length (pre ++ writeString m)) by (rewrite length_app; lia).
      rewrite (skipValue_at validating _ (pre ++ writeString m) x
                 (encodeFields fs ++ rest)); [|frame|exact Hx].
      rewrite !length_app. do 2 f_equal. lia. }
    erewrite bind_Ok_eq by exact Hbody.
    rewrite (IH (pre ++ writeString m ++ x) rest _ ltac:(frame) eq_refl Hok').
    cbn [encodeFields]. rewrite !length_app. do 2 f_equal. lia.
Qed.

Lemma fieldOk_skippable f : fieldOk f -> skippable false f.
Proof. intros [Hn [Hs _]]. split; assumption. Qed.

(** X5.  [readStruct] reads back what [Struct.writeTo] writes, as far as
    the decoder at hand can skip the field values.  Let the bytes of a
    struct sit anywhere in a span, with the cursor at their first byte, and
    let the decoder, validating or not, be one whose [skipValue] passes
    over each field value from its first byte to its last (for a decoder
    that does not validate, every well-formed field value is such a
    value).  Then [readStruct] returns the struct with exactly those bytes
    and leaves the cursor right behind them; [skipStruct] moves the cursor
    the same way. *)
Theorem readStruct_reads_back_written_struct validating B pre name fs rest :
  B = pre ++ encodeStruct name fs ++ rest ->
  goLen (String.length name) -> goLen (length fs) ->
  Forall (skippable validating) fs ->
  readStructD validating B (length pre)
  = Ok (mkStruct (encodeStruct name fs),
        length pre + length (encodeStruct name fs)) /\
  skipStructD validating B (length pre)
  = Ok (tt, length pre + length (encodeStruct name fs)).
Proof.
  intros HB Hname Hc Hok.
  assert (Hskip : skipStructD validating B (length pre)
                  = Ok (tt, length pre + length (encodeStruct name fs))).
  { unfold skipStructD.
    erewrite bind_Ok_eq by reflexivity.
    erewrite bind_Ok_eq
      by (eapply (skipString_at _ (pre ++ writeKind StructKind) name
                    (writeCount (N.of_nat (length fs)) ++ encodeFields fs ++ rest));
          [subst B; unfold encodeStruct; rewrite <- !app_assoc; reflexivity
          |rewrite length_app; simpl; lia|exact Hname]).
    erewrite bind_Ok_eq
      by (eapply (readCount_at _ (pre ++ writeKind StructKind ++ writeString name)
                    (N.of_nat (length fs)) (encodeFields fs ++ rest));
          [subst B; unfold encodeStruct; rewrite <- !app_assoc; reflexivity
          |rewrite !length_app; simpl; lia
          |apply goLen_count; exact Hc]).
    rewrite Nat2N.id.
    rewrite (skipFields_by validating B fs
               (pre ++ structHeader name (N.of_nat (length fs))) rest).
    - rewrite encodeStruct_header, !length_app, structHeader_length.
      do 2 f_equal. lia.
    - subst B. rewrite encodeStruct_header, <- !app_assoc. reflexivity.
    - rewrite length_app, structHeader_length. lia.
    - exact Hok. }
  split; [|exact Hskip].
  unfold readStructD, pos.
  erewrite bind_Ok_eq by reflexivity.
  erewrite bind_Ok_eq by exact Hskip.
  erewrite bind_Ok_eq
    by (eapply (sliceFrom_at _ pre (encodeStruct name fs) rest);
        [exact HB|reflexivity]).
  reflexivity.
Qed.

(** ** Templates and field lists *)

Lemma verifyFieldName_cases n :
  (IsValidStructFieldName n = true /\ verifyFieldName n = Ok tt) \/
  (IsValidStructFieldName n = false /\ verifyFieldName n = Panic).
Proof.
  unfold verifyFieldName. destruct (IsValidStructFieldName n); [left|right]; auto.
Qed.

Lemma ascending_cons_iff a l :
  ascending (a :: l) <->
  match l with
  | [] => True
  | b :: _ => strictlyBefore a b /\ ascending l
  end.
Proof.
  unfold ascending. split.
  - intros H. inversion H as [|? ? Hs Hall]; subst.
    destruct l as [|b l]; [exact I|].
    inversion Hall; subst. split; assumption.
  - destruct l as [|b l].
    + intros _. repeat constructor.
    + intros [Hab Hs]. constructor; [exact Hs|].
      constructor; [exact Hab|].
      inversion Hs as [|? ? _ Hall]; subst.
      eapply List.Forall_impl; [|exact Hall].
      intros c Hc. eapply strictlyBefore_trans; eassumption.
Qed.

Lemma templateLoop_spec names : forall prev,
  (validNames names /\ ascending (prev :: names) ->
   templateLoop prev names = Ok tt) /\
  (~ (validNames names /\ ascending (prev :: names)) ->
   templateLoop prev names = Panic).
Proof.
  unfold validNames.
  induction names as [|n names IH]; intros prev; simpl.
  - split; [reflexivity|]. intros H. exfalso. apply H.
    split; [constructor|]. apply ascending_cons_iff. exact I.
  - destruct (IH n) as [IHok IHbad].
    destruct (verifyFieldName_cases n) as [[Ev ->]|[Ev ->]]; cbn [bindR].
    + destruct (String.ltb prev n) eqn:El.
      * split.
        -- intros [Hv Ha]. apply IHok. inversion Hv; subst.
           apply ascending_cons_iff in Ha. tauto.
        -- intros Hbad. apply IHbad. intros [Hv Ha]. apply Hbad.
           split; [constructor; assumption|].
           apply ascending_cons_iff. split; assumption.
      * split; [|reflexivity].
        intros [_ Ha]. apply ascending_cons_iff in Ha.
        destruct Ha as [Ha _]. unfold strictlyBefore in Ha. congruence.
    + split; [|reflexivity].
      intros [Hv _]. inversion Hv; subst. congruence.
Qed.

Lemma verifyFieldsFrom_spec names : forall prev,
  (validNames names /\ ascending (prev :: names) ->
   verifyFieldsFrom (Some prev) names = Ok tt) /\
  (~ (validNames names /\ ascending (prev :: names)) ->
   verifyFieldsFrom (Some prev) names = Panic).
Proof.
  unfold validNames.
  induction names as [|n names IH]; intros prev; simpl.
  - split; [reflexivity|]. intros H. exfalso. apply H.
    split; [constructor|]. apply ascending_cons_iff. exact I.
  - destruct (IH n) as [IHok IHbad].
    destruct (verifyFieldName_cases n) as [[Ev ->]|[Ev ->]]; cbn [bindR].
    + destruct (String.ltb prev n) eqn:El; cbn [negb].
      * split.
        -- intros [Hv Ha]. apply IHok. inversion Hv; subst.
           apply ascending_cons_iff in Ha. tauto.
        -- intros Hbad. apply IHbad. intros [Hv Ha]. apply Hbad.
           split; [constructor; assumption|].
           apply ascending_cons_iff. split; assumption.
      * split; [|reflexivity].
        intros [_ Ha]. apply ascending_cons_iff in Ha.
        destruct Ha as [Ha _]. unfold strictlyBefore in Ha. congruence.
    + split; [|reflexivity].
      intros [Hv _]. inversion Hv; subst. congruence.
Qed.

Lemma ascending_tail a l : ascending (a :: l) -> ascending l.
Proof. unfold ascending. intros H. inversion H; assumption. Qed.

(** X6.  [MakeStructTemplate(name, fieldNames)] returns the template with
    that name and those field names when the name is empty or a valid
    name, every field name is valid and the field names are in strictly
    ascending order, so without repetition; in every other case it
    panics.  [verifyFields] accepts exactly the same lists of field
    names. *)
Theorem MakeStructTemplate_accepts_sorted_valid_names name fieldNames :
  let accepted :=
    verifyStructName name = Ok tt /\
    validNames fieldNames /\ ascending fieldNames in
  (accepted ->
   MakeStructTemplate name fieldNames = Ok (mkStructTemplate name fieldNames)) /\
  (~ accepted -> MakeStructTemplate name fieldNames = Panic) /\
  (validNames fieldNames /\ ascending fieldNames ->
   verifyFields fieldNames = Ok tt) /\
  (~ (validNames fieldNames /\ ascending fieldNames) ->
   verifyFields fieldNames = Panic).
Proof.
  cbv zeta. unfold MakeStructTemplate, verifyFields, validNames.
  assert (Hname : verifyStructName name = Ok tt \/ verifyStructName name = Panic).
  { unfold verifyStructName, verifyFieldName.
    destruct (String.eqb name ""); [left; reflexivity|].
    destruct (IsValidStructFieldName name); auto. }
  destruct fieldNames as [|n0 rest].
  - split; [|split; [|split]].
    + intros (-> & _). reflexivity.
    + intros Hbad. destruct Hname as [E|E]; rewrite E; [|reflexivity].
      exfalso. apply Hbad. split; [exact E|split; constructor].
    + reflexivity.
    + intros Hbad. exfalso. apply Hbad. split; constructor.
  - destruct (templateLoop_spec rest n0) as [Tok Tbad].
    destruct (verifyFieldsFrom_spec rest n0) as [Vok Vbad].
    unfold validNames in *. cbn [verifyFieldsFrom].
    split; [|split; [|split]].
    + intros (-> & Hv & Ha). cbn [bindR]. inversion Hv as [|? ? Hv0 Hv']; subst.
      unfold verifyFieldName at 1. rewrite Hv0. cbn [bindR].
      rewrite Tok by tauto. reflexivity.
    + intros Hbad. destruct Hname as [E|E]; rewrite E; [|reflexivity].
      cbn [bindR].
      destruct (verifyFieldName_cases n0) as [[Ev ->]|[Ev ->]];
        [|reflexivity]. cbn [bindR].
      rewrite Tbad; [reflexivity|].
      intros [Hv Ha]. apply Hbad.
      split; [exact E|split; [constructor; assumption|exact Ha]].
    + intros (Hv & Ha). inversion Hv as [|? ? Hv0 Hv']; subst.
      unfold verifyFieldName at 1. rewrite Hv0. cbn [bindR].
      apply Vok. tauto.
    + intros Hbad.
      destruct (verifyFieldName_cases n0) as [[Ev ->]|[Ev ->]];
        [|reflexivity]. cbn [bindR].
      apply Vbad. intros [Hv Ha]. apply Hbad.
      split; [constructor; assumption|exact Ha].
Qed.

Lemma templateLoop_Ok_inv names : forall prev,
  templateLoop prev names = Ok tt ->
  validNames names /\ ascending (prev :: names).
Proof.
  unfold validNames.
  induction names as [|n names IH]; intros prev H; simpl in H.
  - split; [constructor|]. apply ascending_cons_iff. exact I.
  - destruct (verifyFieldName_cases n) as [[Ev E]|[Ev E]];
      rewrite E in H; cbn [bindR] in H; [|discriminate].
    destruct (String.ltb prev n) eqn:El; [|discriminate].
    destruct (IH n H) as [Hv Ha].
    split; [constructor; assumption|].
    apply ascending_cons_iff. split; assumption.
Qed.

Lemma MakeStructTemplate_Ok_inv name fieldNames st :
  MakeStructTemplate name fieldNames = Ok st ->
  st = mkStructTemplate name fieldNames /\
  verifyStructName name = Ok tt /\
  validNames fieldNames /\ ascending fieldNames.
Proof.
  unfold MakeStructTemplate. intros H.
  apply bindR_Ok in H. destruct H as ([] & Hn & H).
  destruct fieldNames as [|n0 rest].
  - injection H as <-. repeat split; try assumption; constructor.
  - apply bindR_Ok in H. destruct H as ([] & H0 & H).
    apply bindR_Ok in H. destruct H as ([] & Hl & H).
    injection H as <-.
    apply templateLoop_Ok_inv in Hl. destruct Hl as [Hv Ha].
    repeat split; try assumption.
    constructor; [|exact Hv].
    unfold verifyFieldName in H0.
    destruct (IsValidStructFieldName n0); [reflexivity|discriminate].
Qed.

Lemma ascending_Sorted_le l : ascending l -> Sorted String.le l.
Proof.
  unfold ascending. intros H. apply StronglySorted_Sorted.
  induction H as [|x xs Hs IH Hx]; constructor; [exact IH|].
  eapply List.Forall_impl; [|exact Hx].
  intros y Hy. apply ltb_le_ne in Hy. tauto.
Qed.

Lemma sortStrings_of_ascending enum names :
  enum ≡ₚ names -> ascending names -> sortStrings enum = names.
Proof.
  intros Hp Ha. unfold sortStrings.
  apply (Sorted_unique String.le); try apply _.
  - apply Sorted_merge_sort; apply _.
  - apply ascending_Sorted_le. exact Ha.
  - rewrite merge_sort_Permutation. exact Hp.
Qed.

Lemma ascending_NoDup l : ascending l -> NoDup l.
Proof.
  unfold ascending. intros H.
  induction H as [|x xs Hs IH Hx]; constructor; [|exact IH].
  intros Hin. apply list_elem_of_In in Hin.
  rewrite List.Forall_forall in Hx. apply Hx in Hin.
  exact (strictlyBefore_irrefl _ Hin).
Qed.

Lemma lookupValues_insert_fresh (data : gmap string EncodedValue) n v names :
  ~ In n names ->
  lookupValues (<[n := v]> data) names = lookupValues data names.
Proof.
  induction names as [|m names IH]; intros Hn; simpl; [reflexivity|].
  rewrite lookup_insert_ne by (intros ->; apply Hn; left; reflexivity).
  rewrite IH by (intros Hin; apply Hn; right; exact Hin).
  reflexivity.
Qed.

Lemma lookupValues_combine names : forall values,
  NoDup names -> length names = length values ->
  lookupValues (list_to_map (combine names values)) names = Ok values.
Proof.
  induction names as [|n names IH]; intros values Hnd Hlen;
    destruct values as [|v values]; try discriminate; simpl.
  - reflexivity.
  - apply NoDup_cons in Hnd. destruct Hnd as [Hn Hnd].
    rewrite lookup_insert_eq.
    rewrite lookupValues_insert_fresh
      by (intros Hin; apply Hn; apply list_elem_of_In; exact Hin).
    rewrite IH by (try assumption; simpl in Hlen; lia).
    reflexivity.
Qed.

(** X7.  Let [st] be a template that [MakeStructTemplate] returned for
    [name] and [fieldNames].  For as many values as there are field names,
    [st.NewStruct(values)] returns the struct with the [i]-th value under
    the [i]-th field name, with the same bytes as [NewStruct] gives for the
    mapping that pairs them, whatever the order in which the Go map
    enumerates its keys.  For any other number of values it panics. *)
Theorem TemplateNewStruct_agrees_with_NewStruct name fieldNames st values :
  MakeStructTemplate name fieldNames = Ok st ->
  (length values = length fieldNames ->
   TemplateNewStruct st values
   = Ok (mkStruct (encodeStruct name (combine fieldNames values))) /\
   forall enum, enum ≡ₚ fieldNames ->
     NewStruct enum name (list_to_map (combine fieldNames values))
     = TemplateNewStruct st values) /\
  (length values <> length fieldNames ->
   TemplateNewStruct st values = Panic).
Proof.
  intros H. apply MakeStructTemplate_Ok_inv in H.
  destruct H as (-> & Hn & Hv & Ha).
  unfold TemplateNewStruct. cbn [templateName templateFieldNames].
  split.
  - intros Hlen.
    replace (length fieldNames =? length values) with true
      by (symmetry; apply Nat.eqb_eq; lia).
    assert (Hnew : newStruct name fieldNames values
                   = Ok (mkStruct (encodeStruct name (combine fieldNames values)))).
    { unfold newStruct. rewrite writeFields_encode by lia. cbn [bindR].
      unfold encodeStruct. rewrite length_combine.
      replace (length fieldNames `min` length values) with (length fieldNames)
        by lia.
      rewrite <- !app_assoc. reflexivity. }
    split; [exact Hnew|].
    intros enum Hp. unfold NewStruct. rewrite Hn. cbn [bindR].
    rewrite (verifyFieldNames_perm _ _ Hp).
    rewrite (proj2 (verifyFieldNames_Ok fieldNames) Hv). cbn [bindR].
    rewrite (sortStrings_of_ascending enum fieldNames Hp Ha).
    rewrite lookupValues_combine by (try apply ascending_NoDup; auto).
    cbn [bindR]. reflexivity.
  - intros Hlen.
    replace (length fieldNames =? length values) with false
      by (symmetry; apply Nat.eqb_neq; lia).
    reflexivity.
Qed.

(** ** The algebra of [Set] and [Delete] *)

Lemma allAfter_lookup n fs : allAfter n fs -> lookupField n fs = None.
Proof. intros H. apply absent_lookup, allAfter_absent, H. Qed.

Lemma allAfter_lookup_before k n fs :
  String.ltb k n = true -> allAfter n fs -> lookupField k fs = None.
Proof.
  intros Hk Ha. apply allAfter_lookup.
  eapply List.Forall_impl; [|exact Ha].
  intros f Hf. simpl in *. eapply ltb_trans; eassumption.
Qed.

(** Two field lists in ascending order that agree on every lookup are the
    same list. *)
Lemma ascending_ext fs : forall gs,
  ascending (map fst fs) -> ascending (map fst gs) ->
  (forall k, lookupField k fs = lookupField k gs) -> fs = gs.
Proof.
  induction fs as [|[m x] fs IH]; intros gs Hf Hg Hl.
  - destruct gs as [|[m' x'] gs]; [reflexivity|].
    specialize (Hl m'). simpl in Hl. rewrite String.eqb_refl in Hl. discriminate.
  - destruct gs as [|[m' x'] gs].
    + specialize (Hl m). simpl in Hl. rewrite String.eqb_refl in Hl. discriminate.
    + apply (proj1 (ascending_cons m x fs)) in Hf. destruct Hf as [Haf Hf].
      apply (proj1 (ascending_cons m' x' gs)) in Hg. destruct Hg as [Hag Hg].
      assert (Hm : m = m').
      { destruct (String.eqb m m') eqn:Eq; [apply String.eqb_eq; exact Eq|].
        destruct (String.ltb m m') eqn:H; [|apply (ltb_total m m' Eq) in H].
        - exfalso. specialize (Hl m). simpl in Hl.
          rewrite String.eqb_refl in Hl.
          rewrite (ltb_eqb_sym _ _ H) in Hl.
          rewrite (allAfter_lookup_before m m' gs H Hag) in Hl. discriminate.
        - exfalso. specialize (Hl m'). simpl in Hl.
          rewrite String.eqb_refl in Hl.
          rewrite (ltb_eqb_sym _ _ H) in Hl.
          rewrite (allAfter_lookup_before m' m fs H Haf) in Hl. discriminate. }
      subst m'.
      assert (Hx : x = x').
      { specialize (Hl m). simpl in Hl. rewrite String.eqb_refl in Hl.
        congruence. }
      subst x'. f_equal. apply IH; [exact Hf|exact Hg|].
      intros k. specialize (Hl k). simpl in Hl.
      destruct (String.eqb m k) eqn:E; [|exact Hl].
      apply String.eqb_eq in E. subst k.
      rewrite (allAfter_lookup m fs Haf), (allAfter_lookup m gs Hag).
      reflexivity.
Qed.

Lemma deleteField_allAfter m n fs :
  allAfter m fs -> allAfter m (deleteField n fs).
Proof.
  unfold allAfter. induction fs as [|[k x] fs IH]; intros H; simpl.
  - constructor.
  - inversion H; subst. destruct (String.eqb n k); [auto|].
    constructor; auto.
Qed.

Lemma deleteField_ascending n fs :
  ascending (map fst fs) -> ascending (map fst (deleteField n fs)).
Proof.
  induction fs as [|[m x] fs IH]; intros Hs; simpl; [exact Hs|].
  apply (proj1 (ascending_cons m x fs)) in Hs. destruct Hs as [Ha Hs].
  destruct (String.eqb n m); [auto|].
  apply (proj2 (ascending_cons m x (deleteField n fs))).
  split; [apply deleteField_allAfter; exact Ha|auto].
Qed.

Lemma hasField_setField n v fs : hasField n (setField n v fs) = true.
Proof. unfold hasField. rewrite lookup_setField. reflexivity. Qed.

Lemma hasField_absent n fs : hasField n fs = false -> lookupField n fs = None.
Proof. unfold hasField. destruct (lookupField n fs); [discriminate|reflexivity]. Qed.

Lemma lookup_ext_deleteField n fs :
  ascending (map fst fs) -> lookupField n fs = None -> deleteField n fs = fs.
Proof.
  intros Ha Hl. apply ascending_ext; [apply deleteField_ascending|..]; auto.
  intros k. rewrite lookup_deleteField.
  destruct (String.eqb k n) eqn:E; [|reflexivity].
  apply String.eqb_eq in E. subst. symmetry. exact Hl.
Qed.

Lemma eqb_neq_sym (a b : string) : a <> b -> String.eqb a b = false.
Proof. intros H. apply String.eqb_neq. exact H. Qed.

(** What [Set] and [Delete] return, on the fields. *)
Lemma StructSet_spec s name fs n v :
  isStruct s name fs -> IsValidStructFieldName n = true ->
  StructSet s n v = Ok (mkStruct (encodeStruct name (setField n v fs))).
Proof.
  intros Hs Hv. unfold StructSet, verifyFieldName. rewrite Hv. cbn [bindR].
  apply set_spec. exact Hs.
Qed.

Lemma Delete_spec s name fs n :
  isStruct s name fs ->
  exists s', Delete s n = Ok s' /\
             buff s' = encodeStruct name (deleteField n fs).
Proof.
  intros (Hb & Hname & Hcount & Hok & Hasc).
  assert (Hc : (N.of_nat (length fs) < 2 ^ 64)%N)
    by (apply goLen_count; unfold goLen in *; lia).
  pose proof (deleteField_length n fs Hasc) as Hlen.
  destruct (deleteLoop_spec n fs (buff s)
              (structHeader name (N.of_nat (length fs))) []
              (length (structHeader name (N.of_nat (length fs))))
              (structHeader name (N.of_nat (length fs) + 2 ^ 64 - 1)) [] false)
    as [q Hq].
  { rewrite Hb, encodeStruct_header, app_nil_r. reflexivity. }
  { reflexivity. }
  { exact Hok. }
  simpl encodeFields in Hq. rewrite app_nil_r in Hq.
  rewrite deleteLoopSpec_eq in Hq. simpl in Hq.
  destruct (header_at name (N.of_nat (length fs)) (encodeFields fs) Hname Hc
              (buff s)) as (Hk & Hn & Hcnt).
  { rewrite Hb. apply encodeStruct_header. }
  assert (Hcopy : copyString (buff s) 1
                  = Ok (writeString name, 1 + length (writeString name))).
  { eapply (copyString_at _ (writeKind StructKind) name);
      [rewrite Hb; reflexivity|reflexivity|exact Hname]. }
  assert (Hrun : Delete s n
    = Ok (if hasField n fs
          then mkStruct (structHeader name (N.of_nat (length fs) + 2 ^ 64 - 1)
                         ++ encodeFields (deleteField n fs))
          else s)).
  { unfold Delete. eapply run_Ok.
    erewrite bind_Ok_eq by exact Hk.
    erewrite bind_Ok_eq by exact Hcopy.
    erewrite bind_Ok_eq by exact Hcnt.
    rewrite Nat2N.id.
    replace ((writeKind StructKind ++ writeString name)
             ++ writeCount (N.of_nat (length fs) + 2 ^ 64 - 1))
      with (structHeader name (N.of_nat (length fs) + 2 ^ 64 - 1))
      by (unfold structHeader; rewrite <- app_assoc; reflexivity).
    erewrite bind_Ok_eq by exact Hq.
    destruct (hasField n fs); unfold ret; reflexivity. }
  rewrite Hrun. eexists. split; [reflexivity|].
  destruct (hasField n fs) eqn:Ehas.
  - cbn [buff]. rewrite encodeStruct_header. f_equal.
    unfold structHeader. do 2 f_equal.
    rewrite writeCount_wrap by lia. f_equal. lia.
  - rewrite Hb. f_equal. symmetry.
    apply lookup_ext_deleteField; [exact Hasc|].
    apply hasField_absent. exact Ehas.
Qed.

Lemma setField_isStruct s name fs n v :
  isStruct s name fs -> fieldOk (n, v) ->
  goLen (S (S (length fs))) ->
  isStruct (mkStruct (encodeStruct name (setField n v fs))) name
           (setField n v fs).
Proof.
  intros (Hb & Hname & Hcount & Hok & Hasc) Hnv Hroom.
  split; [reflexivity|]. split; [exact Hname|]. split.
  - rewrite (setField_length n v fs Hasc). unfold goLen in *.
    destruct (hasField n fs); lia.
  - split; [apply setField_fieldOk; assumption|apply setField_ascending; exact Hasc].
Qed.

Lemma deleteField_isStruct s' name fs n :
  buff s' = encodeStruct name (deleteField n fs) ->
  goLen (String.length name) -> goLen (S (length fs)) -> fieldsOk fs ->
  isStruct s' name (deleteField n fs).
Proof.
  intros Hb Hname Hcount [Hok Hasc].
  split; [exact Hb|]. split; [exact Hname|]. split.
  - pose proof (deleteField_length n fs Hasc). unfold goLen in *.
    destruct (hasField n fs); lia.
  - split; [apply deleteField_fieldOk; exact Hok
           |apply deleteField_ascending; exact Hasc].
Qed.

Lemma deleteField_setField n v fs :
  ascending (map fst fs) -> deleteField n (setField n v fs) = deleteField n fs.
Proof.
  intros Ha. apply ascending_ext.
  - apply deleteField_ascending, setField_ascending, Ha.
  - apply deleteField_ascending, Ha.
  - intros k. rewrite !lookup_deleteField.
    destruct (String.eqb k n) eqn:E; [reflexivity|].
    apply lookup_setField_other. apply String.eqb_neq. exact E.
Qed.

Lemma setField_setField n v w fs :
  ascending (map fst fs) -> setField n w (setField n v fs) = setField n w fs.
Proof.
  intros Ha. apply ascending_ext.
  - apply setField_ascending, setField_ascending, Ha.
  - apply setField_ascending, Ha.
  - intros k. destruct (String.eqb k n) eqn:E.
    + apply String.eqb_eq in E. subst k. rewrite !lookup_setField. reflexivity.
    + apply String.eqb_neq in E.
      rewrite !lookup_setField_other by exact E. reflexivity.
Qed.

Lemma setField_comm n m v w fs :
  n <> m -> ascending (map fst fs) ->
  setField m w (setField n v fs) = setField n v (setField m w fs).
Proof.
  intros Hnm Ha. apply ascending_ext.
  - apply setField_ascending, setField_ascending, Ha.
  - apply setField_ascending, setField_ascending, Ha.
  - intros k. destruct (String.eqb k n) eqn:En.
    + apply String.eqb_eq in En. subst k.
      rewrite lookup_setField_other by exact Hnm.
      rewrite !lookup_setField. reflexivity.
    + apply String.eqb_neq in En.
      rewrite (lookup_setField_other k n v) by exact En.
      destruct (String.eqb k m) eqn:Em.
      * apply String.eqb_eq in Em. subst k. rewrite !lookup_setField. reflexivity.
      * apply String.eqb_neq in Em.
        rewrite !lookup_setField_other by assumption. reflexivity.
Qed.

Lemma setField_deleteField n v fs :
  ascending (map fst fs) -> lookupField n fs = Some v ->
  setField n v (deleteField n fs) = fs.
Proof.
  intros Ha Hl. apply ascending_ext.
  - apply setField_ascending, deleteField_ascending, Ha.
  - exact Ha.
  - intros k. destruct (String.eqb k n) eqn:E.
    + apply String.eqb_eq in E. subst k. rewrite lookup_setField. auto.
    + rewrite lookup_setField_other by (apply String.eqb_neq; exact E).
      rewrite lookup_deleteField, E. reflexivity.
Qed.

Lemma Struct_eq (s1 s2 : Struct) : buff s1 = buff s2 -> s1 = s2.
Proof. destruct s1, s2. simpl. intros ->. reflexivity. Qed.

(** X8.  Let [s] be a struct with well-formed fields, [n] a valid field
    name and [v] an encoded value.  [s.Set(n, v).Delete(n)] has the bytes
    of [s.Delete(n)]; when [s] has no field [n] these are the bytes of [s]
    itself, so deleting a field that was just added gives [s] back. *)
Theorem Set_then_Delete_undoes_the_insert s name fs n v :
  isStruct s name fs ->
  IsValidStructFieldName n = true ->
  goLen (String.length n) -> regular v -> goLen (S (S (length fs))) ->
  exists s1 s2 s3,
    StructSet s n v = Ok s1 /\
    Delete s1 n = Ok s2 /\
    Delete s n = Ok s3 /\
    buff s2 = buff s3 /\
    (hasField n fs = false -> buff s2 = buff s).
Proof.
  intros Hs Hvalid Hn Hv Hroom.
  pose proof (setField_isStruct s name fs n v Hs (conj Hn Hv) Hroom) as Hs1.
  destruct (Delete_spec _ _ _ n Hs1) as (s2 & H2 & Hb2).
  destruct (Delete_spec _ _ _ n Hs) as (s3 & H3 & Hb3).
  pose proof Hs as (Hb & _ & _ & _ & Hasc).
  exists (mkStruct (encodeStruct name (setField n v fs))), s2, s3.
  split; [apply StructSet_spec; assumption|].
  split; [exact H2|]. split; [exact H3|].
  rewrite deleteField_setField in Hb2 by exact Hasc.
  split; [congruence|].
  intros Ehas. rewrite Hb2, Hb. f_equal.
  apply lookup_ext_deleteField; [exact Hasc|apply hasField_absent; exact Ehas].
Qed.

(** X9.  Let [s] be a struct with well-formed fields, [n] a valid field
    name, [v] a well-formed encoded value (one over which [skipValue] and
    [readValue] both pass from its first byte to its last, so no chunked
    collection) and [w] any encoded value.  Setting [n] twice keeps the
    last value only: [s.Set(n, v).Set(n, w)] is [s.Set(n, w)], the same
    bytes. *)
Theorem Set_last_write_wins s name fs n v w :
  isStruct s name fs ->
  IsValidStructFieldName n = true ->
  goLen (String.length n) -> regular v -> goLen (S (S (length fs))) ->
  exists s1 s2,
    StructSet s n v = Ok s1 /\
    StructSet s1 n w = Ok s2 /\
    StructSet s n w = Ok s2.
Proof.
  intros Hs Hvalid Hn Hv Hroom.
  pose proof (setField_isStruct s name fs n v Hs (conj Hn Hv) Hroom) as Hs1.
  pose proof Hs as (_ & _ & _ & _ & Hasc).
  eexists. eexists.
  split; [apply StructSet_spec; eassumption|].
  split; [apply StructSet_spec; eassumption|].
  rewrite setField_setField by exact Hasc.
  apply StructSet_spec; assumption.
Qed.

(** X10.  Let [s] be a struct with well-formed fields, [n] and [m] two
    different valid field names and [v], [w] well-formed encoded values
    (over each, [skipValue] and [readValue] both pass from its first byte
    to its last, so neither is a chunked collection).  The order of the
    two updates does not matter: [s.Set(n, v).Set(m, w)] and
    [s.Set(m, w).Set(n, v)] are the same struct, byte for byte. *)
Theorem Set_of_different_fields_commutes s name fs n m v w :
  isStruct s name fs ->
  n <> m ->
  IsValidStructFieldName n = true -> IsValidStructFieldName m = true ->
  goLen (String.length n) -> goLen (String.length m) ->
  regular v -> regular w -> goLen (S (S (length fs))) ->
  exists s1 s2 s12,
    StructSet s n v = Ok s1 /\
    StructSet s m w = Ok s2 /\
    StructSet s1 m w = Ok s12 /\
    StructSet s2 n v = Ok s12.
Proof.
  intros Hs Hnm Hvn Hvm Hn Hm Hv Hw Hroom.
  pose proof (setField_isStruct s name fs n v Hs (conj Hn Hv) Hroom) as Hs1.
  pose proof (setField_isStruct s name fs m w Hs (conj Hm Hw) Hroom) as Hs2.
  pose proof Hs as (_ & _ & _ & _ & Hasc).
  eexists. eexists. eexists.
  split; [apply StructSet_spec; eassumption|].
  split; [apply StructSet_spec; eassumption|].
  split; [apply StructSet_spec; eassumption|].
  rewrite setField_comm by assumption.
  apply StructSet_spec; assumption.
Qed.

(** X11.  Let [s] be a struct with well-formed fields.  [s.Delete(n)]
    never panics.  In the struct it returns no field is called [n], every
    other name reads as it does in [s], and deleting [n] once more returns
    that struct unchanged. *)
Theorem Delete_removes_only_that_field s name fs n :
  isStruct s name fs ->
  exists s',
    Delete s n = Ok s' /\
    MaybeGet s' n = Ok None /\
    (forall k, k <> n -> MaybeGet s' k = MaybeGet s k) /\
    Delete s' n = Ok s'.
Proof.
  intros Hs. destruct (Delete_spec _ _ _ n Hs) as (s' & H1 & Hb1).
  pose proof Hs as (Hb & Hname & Hcount & [Hok Hasc]).
  pose proof (deleteField_isStruct s' name fs n Hb1 Hname Hcount (conj Hok Hasc))
    as Hs'.
  pose proof (isStruct_count _ _ _ Hs) as Hc.
  pose proof (isStruct_count _ _ _ Hs') as Hc'.
  destruct Hs' as (_ & _ & Hcount' & [Hok' Hasc']).
  assert (HM : forall k, MaybeGet s' k = Ok (lookupField k (deleteField n fs))).
  { intros k. apply (MaybeGet_spec s' name _ k Hb1 Hname Hc'); [|exact Hasc'].
    eapply List.Forall_impl; [apply fieldOk_fieldOkFor|exact Hok']. }
  assert (HM0 : forall k, MaybeGet s k = Ok (lookupField k fs)).
  { intros k. apply (MaybeGet_spec s name _ k Hb Hname Hc); [|exact Hasc].
    eapply List.Forall_impl; [apply fieldOk_fieldOkFor|exact Hok]. }
  exists s'. split; [exact H1|]. split; [|split].
  - rewrite HM, lookup_deleteField, String.eqb_refl. reflexivity.
  - intros k Hk. rewrite HM, HM0, lookup_deleteField.
    rewrite (eqb_neq_sym _ _ Hk). reflexivity.
  - destruct (Delete_spec s' name (deleteField n fs) n) as (s'' & H2 & Hb2).
    { repeat split; assumption. }
    rewrite H2. f_equal. apply Struct_eq. rewrite Hb2, Hb1. f_equal.
    apply lookup_ext_deleteField; [exact Hasc'|].
    rewrite lookup_deleteField, String.eqb_refl. reflexivity.
Qed.

(** X12.  Let [s] be a struct with well-formed fields in which the field
    [n], a valid name, has the value [v].  Deleting the field and setting
    it again to [v] gives back the bytes of [s]. *)
Theorem Delete_then_Set_restores s name fs n v :
  isStruct s name fs ->
  IsValidStructFieldName n = true ->
  In (n, v) fs ->
  exists s1 s2,
    Delete s n = Ok s1 /\
    StructSet s1 n v = Ok s2 /\
    buff s2 = buff s.
Proof.
  intros Hs Hvalid Hin.
  destruct (Delete_spec _ _ _ n Hs) as (s1 & H1 & Hb1).
  pose proof Hs as (Hb & Hname & Hcount & [Hok Hasc]).
  pose proof (deleteField_isStruct s1 name fs n Hb1 Hname Hcount (conj Hok Hasc))
    as Hs1.
  exists s1. eexists. split; [exact H1|].
  split; [apply (StructSet_spec s1 name _ n v Hs1 Hvalid)|].
  cbn [buff]. rewrite Hb. f_equal.
  apply setField_deleteField; [exact Hasc|].
  apply lookupField_In; assumption.
Qed.

(** X13.  [Set] and [Delete] keep a struct well-formed.  Let [s] be the
    struct [name] with well-formed fields.  [s.Set(n, v)] panics when [n]
    is not a valid field name; when it is, the result is again the struct
    [name] with well-formed fields: names in strictly ascending order
    without repetition, every value its own bytes.  The same holds of the
    result of [s.Delete(n)], for any [n]. *)
Theorem Set_Delete_keep_fields_sorted s name fs n v :
  isStruct s name fs ->
  (IsValidStructFieldName n = false -> StructSet s n v = Panic) /\
  (IsValidStructFieldName n = true ->
   goLen (String.length n) -> regular v -> goLen (S (S (length fs))) ->
   exists s', StructSet s n v = Ok s' /\
              isStruct s' name (setField n v fs) /\
              ascending (map fst (setField n v fs))) /\
  (exists s', Delete s n = Ok s' /\
              isStruct s' name (deleteField n fs) /\
              ascending (map fst (deleteField n fs))).
Proof.
  intros Hs. pose proof Hs as (Hb & Hname & Hcount & [Hok Hasc]).
  split; [|split].
  - intros E. unfold StructSet, verifyFieldName. rewrite E. reflexivity.
  - intros Hvalid Hn Hv Hroom. eexists.
    split; [apply StructSet_spec; eassumption|].
    split; [apply (setField_isStruct s name fs n v Hs (conj Hn Hv) Hroom)|].
    apply setField_ascending. exact Hasc.
  - destruct (Delete_spec _ _ _ n Hs) as (s' & H1 & Hb1).
    exists s'. split; [exact H1|].
    split; [apply deleteField_isStruct; [assumption..|split; assumption]|].
    apply deleteField_ascending. exact Hasc.
Qed.

(** ** Construction against lookup, [Set] and [Delete] *)

Lemma keys_length (data : gmap string EncodedValue) enum :
  enum ≡ₚ (map_to_list data).*1 -> length enum = size data.
Proof.
  intros Hp. rewrite (Permutation_length Hp), length_fmap.
  apply length_map_to_list.
Qed.

Lemma NewStruct_fields enum name (data : gmap string EncodedValue) s :
  enum ≡ₚ (map_to_list data).*1 ->
  NewStruct enum name data = Ok s ->
  goLen (String.length name) ->
  goLen (S (length enum)) ->
  (forall n v, data !! n = Some v -> goLen (String.length n) /\ regular v) ->
  exists fs, isStruct s name fs /\
             (forall k, lookupField k fs = data !! k) /\
             length fs = length enum.
Proof.
  intros Hperm H Hname Hcount Hdata.
  destruct (NewStruct_isStruct enum name data s Hperm H Hname Hcount Hdata)
    as (fs & Hs & Hin).
  pose proof Hs as (_ & _ & _ & [_ Hasc]).
  exists fs. split; [exact Hs|]. split.
  - intros k. destruct (data !! k) as [v|] eqn:E.
    + apply lookupField_In; [exact Hasc|]. apply Hin. exact E.
    + destruct (lookupField k fs) as [v'|] eqn:E'; [|reflexivity].
      apply lookupField_In in E'; [|exact Hasc].
      apply Hin in E'. congruence.
  - rewrite (keys_length data enum Hperm).
    rewrite <- (length_map_to_list data).
    apply Permutation_length. apply NoDup_Permutation.
    + apply (NoDup_fmap_1 fst). apply ascending_NoDup. exact Hasc.
    + apply NoDup_map_to_list.
    + intros [k v]. rewrite elem_of_map_to_list, list_elem_of_In. apply Hin.
Qed.

Lemma NewStruct_Ok_valid enum name (data : gmap string EncodedValue) s :
  NewStruct enum name data = Ok s ->
  verifyStructName name = Ok tt /\ validNames enum.
Proof.
  unfold NewStruct. intros H.
  apply bindR_Ok in H. destruct H as ([] & Hn & H).
  apply bindR_Ok in H. destruct H as ([] & Hv & _).
  split; [exact Hn|]. apply verifyFieldNames_Ok. exact Hv.
Qed.

Lemma NewStruct_Ok enum name (data : gmap string EncodedValue) :
  enum ≡ₚ (map_to_list data).*1 ->
  verifyStructName name = Ok tt -> validNames enum ->
  exists s, NewStruct enum name data = Ok s.
Proof.
  intros Hperm Hn Hv. unfold NewStruct. rewrite Hn. cbn [bindR].
  rewrite (proj2 (verifyFieldNames_Ok enum) Hv). cbn [bindR].
  destruct (lookupValues_total data (sortStrings enum)) as [values Hl].
  { apply List.Forall_forall. intros k Hk.
    apply list_elem_of_In in Hk.
    rewrite sortStrings_Permutation, Hperm in Hk.
    apply list_elem_of_fmap in Hk. destruct Hk as ([k' v] & -> & Hk).
    apply elem_of_map_to_list in Hk. eauto. }
  rewrite Hl. cbn [bindR]. unfold newStruct.
  rewrite writeFields_encode
    by (eapply Forall2_length; apply lookupValues_Ok; exact Hl).
  cbn [bindR]. eauto.
Qed.

(** X14.  A struct reads back the mapping it was built from.  Let
    [NewStruct(name, data)] return [s], for values that are well-formed
    encodings.  Then [s.MaybeGet(k)] is [data[k]] for every [k], found or
    not as in the Go map, [s.Len()] is the number of entries of [data] and
    [s.Name()] is [name]. *)
Theorem NewStruct_reads_back_its_mapping enum name
  (data : gmap string EncodedValue) s :
  enum ≡ₚ (map_to_list data).*1 ->
  NewStruct enum name data = Ok s ->
  goLen (String.length name) ->
  goLen (S (length enum)) ->
  (forall n v, data !! n = Some v -> goLen (String.length n) /\ regular v) ->
  (forall k, MaybeGet s k = Ok (data !! k)) /\
  Len s = Ok (Z.of_nat (size data)) /\
  Name s = Ok name.
Proof.
  intros Hperm H Hname Hcount Hdata.
  destruct (NewStruct_fields enum name data s Hperm H Hname Hcount Hdata)
    as (fs & Hs & Hl & Hlen).
  pose proof (isStruct_count _ _ _ Hs) as Hc.
  pose proof Hs as (Hb & _ & _ & [Hok Hasc]).
  split; [|split].
  - intros k. rewrite <- Hl.
    apply (MaybeGet_spec s name fs k Hb Hname Hc); [|exact Hasc].
    eapply List.Forall_impl; [apply fieldOk_fieldOkFor|exact Hok].
  - rewrite (Len_spec s name fs Hb Hname Hc).
    rewrite Hlen, (keys_length data enum Hperm). reflexivity.
  - destruct (header_at name (N.of_nat (length fs)) (encodeFields fs) Hname
                (goLen_count _ Hc) (buff s)) as (Hk & Hn & _).
    { rewrite Hb. apply encodeStruct_header. }
    unfold Name. eapply run_Ok. erewrite bind_Ok_eq by exact Hk. exact Hn.
Qed.

Lemma validNames_perm l1 l2 : l1 ≡ₚ l2 -> validNames l1 -> validNames l2.
Proof. unfold validNames. intros Hp H. rewrite <- Hp. exact H. Qed.

(** X15.  [Set] and [Delete] agree with building the struct anew, on
    well-formed values.  Let [NewStruct(name, data)] return [s], and let
    every value of [data], and [v], be a well-formed encoding: one over
    which [skipValue] and [readValue] both pass from its first byte to its
    last, so no chunked collection.  For a valid name [n], [s.Set(n, v)]
    is the struct that [NewStruct] builds from [data] with [n] mapped to
    [v], and [s.Delete(n)] is the one it builds from [data] without [n]:
    the same bytes, whatever the enumeration orders of the maps. *)
Theorem Set_Delete_agree_with_NewStruct enum enumSet enumDel name
  (data : gmap string EncodedValue) s n v :
  enum ≡ₚ (map_to_list data).*1 ->
  enumSet ≡ₚ (map_to_list (<[n := v]> data)).*1 ->
  enumDel ≡ₚ (map_to_list (delete n data)).*1 ->
  NewStruct enum name data = Ok s ->
  goLen (String.length name) ->
  goLen (S (S (length enum))) ->
  (forall n v, data !! n = Some v -> goLen (String.length n) /\ regular v) ->
  IsValidStructFieldName n = true ->
  goLen (String.length n) -> regular v ->
  StructSet s n v = NewStruct enumSet name (<[n := v]> data) /\
  Delete s n = NewStruct enumDel name (delete n data).
Proof.
  intros Hperm HpS HpD H Hname Hroom Hdata Hvalid Hn Hv.
  assert (Hcount : goLen (S (length enum))) by (unfold goLen in *; lia).
  destruct (NewStruct_fields enum name data s Hperm H Hname Hcount Hdata)
    as (fs & Hs & Hl & Hlen).
  destruct (NewStruct_Ok_valid _ _ _ _ H) as [Hvn Hve].
  pose proof Hs as (Hb & _ & _ & [Hok Hasc]).
  assert (HkeysS : forall k, In k enumSet -> k = n \/ In k enum).
  { intros k Hk. apply list_elem_of_In in Hk. rewrite HpS in Hk.
    apply list_elem_of_fmap in Hk. destruct Hk as ([k' x] & -> & Hk).
    apply elem_of_map_to_list in Hk. simpl.
    destruct (decide (k' = n)) as [->|Hne]; [left; reflexivity|right].
    rewrite lookup_insert_ne in Hk by congruence.
    apply list_elem_of_In. rewrite Hperm. apply list_elem_of_fmap.
    exists (k', x). split; [reflexivity|]. apply elem_of_map_to_list. exact Hk. }
  assert (HkeysD : forall k, In k enumDel -> In k enum).
  { intros k Hk. apply list_elem_of_In in Hk. rewrite HpD in Hk.
    apply list_elem_of_fmap in Hk. destruct Hk as ([k' x] & -> & Hk).
    apply elem_of_map_to_list in Hk. simpl.
    apply lookup_delete_Some in Hk. destruct Hk as [_ Hk].
    apply list_elem_of_In. rewrite Hperm. apply list_elem_of_fmap.
    exists (k', x). split; [reflexivity|]. apply elem_of_map_to_list. exact Hk. }
  unfold validNames in Hve. rewrite List.Forall_forall in Hve.
  split.
  - destruct (NewStruct_Ok enumSet name (<[n := v]> data) HpS Hvn) as [s' H'].
    { apply List.Forall_forall. intros k Hk.
      destruct (HkeysS k Hk) as [->|Hin]; [exact Hvalid|auto]. }
    destruct (NewStruct_fields enumSet name _ s' HpS H' Hname) as (fs' & Hs' & Hl' & _).
    { rewrite (keys_length _ _ HpS). rewrite (keys_length _ _ Hperm) in Hroom.
      assert (Hsz : size (<[n := v]> data) <= S (size data))
        by (rewrite map_size_insert; case_match; simpl; lia).
      unfold goLen in *. lia. }
    { intros k x Hk. destruct (decide (k = n)) as [->|Hne].
      - rewrite lookup_insert_eq in Hk. injection Hk as <-. split; assumption.
      - rewrite lookup_insert_ne in Hk by congruence. apply Hdata. exact Hk. }
    rewrite H', (StructSet_spec s name fs n v Hs Hvalid). f_equal.
    apply Struct_eq. cbn [buff].
    destruct Hs' as (Hb' & _ & _ & [_ Hasc']). rewrite Hb'. f_equal.
    apply ascending_ext; [apply setField_ascending; exact Hasc|exact Hasc'|].
    intros k. rewrite Hl'. destruct (decide (k = n)) as [->|Hne].
    + rewrite lookup_setField, lookup_insert_eq. reflexivity.
    + rewrite lookup_setField_other by exact Hne.
      rewrite lookup_insert_ne by congruence. apply Hl.
  - destruct (NewStruct_Ok enumDel name (delete n data) HpD Hvn) as [s' H'].
    { apply List.Forall_forall. intros k Hk. auto. }
    destruct (NewStruct_fields enumDel name _ s' HpD H' Hname) as (fs' & Hs' & Hl' & _).
    { rewrite (keys_length _ _ HpD). rewrite (keys_length _ _ Hperm) in Hroom.
      assert (Hsz : size (delete n data) <= size data)
        by (rewrite map_size_delete; case_match; simpl; lia).
      unfold goLen in *. lia. }
    { intros k x Hk. apply lookup_delete_Some in Hk. apply Hdata. tauto. }
    destruct (Delete_spec s name fs n Hs) as (s1 & H1 & Hb1).
    rewrite H', H1. f_equal. apply Struct_eq. rewrite Hb1.
    destruct Hs' as (Hb' & _ & _ & [_ Hasc']). rewrite Hb'. f_equal.
    apply ascending_ext; [apply deleteField_ascending; exact Hasc|exact Hasc'|].
    intros k. rewrite Hl', lookup_deleteField.
    destruct (String.eqb k n) eqn:E.
    + apply String.eqb_eq in E. subst k. rewrite lookup_delete_eq. reflexivity.
    + apply String.eqb_neq in E. rewrite lookup_delete_ne by congruence.
      apply Hl.
Qed.

(** X16.  [NewStruct(name, data)] returns a struct when [name] is empty
    or a valid name and every key of [data] is a valid field name, and
    panics in every other case; it never fails for another reason. *)
Theorem NewStruct_panics_exactly_on_invalid_names enum name
  (data : gmap string EncodedValue) :
  enum ≡ₚ (map_to_list data).*1 ->
  let accepted :=
    (name = ""%string \/ IsValidStructFieldName name = true) /\
    validNames enum in
  (accepted -> exists s, NewStruct enum name data = Ok s) /\
  (~ accepted -> NewStruct enum name data = Panic).
Proof.
  intros Hperm. cbv zeta.
  assert (Hname : (verifyStructName name = Ok tt /\
                   (name = ""%string \/ IsValidStructFieldName name = true)) \/
                  (verifyStructName name = Panic /\
                   ~ (name = ""%string \/ IsValidStructFieldName name = true))).
  { unfold verifyStructName, verifyFieldName.
    destruct (String.eqb name "") eqn:E.
    - apply String.eqb_eq in E. left. auto.
    - apply String.eqb_neq in E.
      destruct (IsValidStructFieldName name); [left; auto|right].
      split; [reflexivity|]. intros [H|H]; [contradiction|discriminate]. }
  split.
  - intros [Hok Hv]. destruct Hname as [[Hn _]|[_ Hbad]].
    + apply NewStruct_Ok; assumption.
    + contradiction.
  - intros Hbad. unfold NewStruct.
    destruct Hname as [[Hn Hok]|[Hn _]]; rewrite Hn; [|reflexivity].
    cbn [bindR].
    destruct (verifyFieldNames_cases enum) as [Hv|Hv]; rewrite Hv;
      [|reflexivity].
    exfalso. apply Hbad. split; [exact Hok|].
    apply verifyFieldNames_Ok. exact Hv.
Qed.

(** ** The diff against the merge of the field lists *)

Lemma mergeFields_nil_l fs2 : mergeFields [] fs2 = ([], ([], fs2)).
Proof. destruct fs2; reflexivity. Qed.

Lemma mergeFields_nil_r fs1 : mergeFields fs1 [] = ([], (fs1, [])).
Proof. destruct fs1 as [|[n v] r]; reflexivity. Qed.

Lemma mergeFields_cons n1 v1 r1 n2 v2 r2 :
  mergeFields ((n1, v1) :: r1) ((n2, v2) :: r2)
  = if String.eqb n1 n2 then
      let '(ev, rest) := mergeFields r1 r2 in
      ((if Equals v1 v2 then [] else [modified n1 v2 v1]) ++ ev, rest)
    else if String.ltb n1 n2 then
      let '(ev, rest) := mergeFields r1 ((n2, v2) :: r2) in
      (added (n1, v1) :: ev, rest)
    else
      let '(ev, rest) := mergeFields ((n1, v1) :: r1) r2 in
      (removed (n2, v2) :: ev, rest).
Proof. reflexivity. Qed.

Lemma ltb_empty a : String.ltb a "" = false.
Proof. destruct a; reflexivity. Qed.

Lemma ltb_nonempty a b : String.ltb a b = true -> b <> ""%string.
Proof. intros H ->. rewrite ltb_empty in H. discriminate. Qed.

Lemma diffSide_start b pre fs :
  b = pre ++ encodeFields fs -> diffSide b (length pre) "" fs.
Proof. intros ->. left. split; [reflexivity|]. exists pre. auto. Qed.

Lemma diffSide_pending b pre m x r :
  b = pre ++ x ++ encodeFields r -> m <> ""%string ->
  diffSide b (length pre) m ((m, x) :: r).
Proof.
  intros -> Hm. right. split; [exact Hm|]. exists pre, x, r. auto.
Qed.

Lemma nextName_side b p fn m x r :
  diffSide b p fn ((m, x) :: r) -> goLen (String.length m) ->
  exists pre, nextName fn b p = Ok (m, length pre) /\
              b = pre ++ x ++ encodeFields r.
Proof.
  intros [[-> (pre & -> & ->)]|[Hne (pre & x' & r' & Hfs & -> & ->)]] Hm.
  - exists (pre ++ writeString m). split.
    + unfold nextName. cbn [String.eqb].
      rewrite (readString_at _ pre m (x ++ encodeFields r) (length pre));
        [|frame|reflexivity|exact Hm].
      rewrite length_app. reflexivity.
    + frame.
  - injection Hfs as <- <- <-. exists pre. split; [|reflexivity].
    unfold nextName. rewrite (eqb_neq_sym _ _ Hne). reflexivity.
Qed.

Lemma value_side b pre x r :
  b = pre ++ x ++ encodeFields r -> readable x ->
  readValueBytes b (length pre) = Ok (x, length (pre ++ x)) /\
  diffSide b (length (pre ++ x)) "" r.
Proof.
  intros Hb Hx. split.
  - rewrite (readValueBytes_at b pre x (encodeFields r) (length pre) Hb eq_refl Hx).
    rewrite length_app. reflexivity.
  - apply diffSide_start. rewrite Hb, <- app_assoc. reflexivity.
Qed.

Lemma collect_eq delivered c : collect delivered c = (true, delivered ++ [c]).
Proof. reflexivity. Qed.

Lemma diffMerge_spec : forall fuel fs1 fs2 b1 b2 p1 p2 fn1 fn2 sink,
  length fs1 + length fs2 <= fuel ->
  Forall fieldOk fs1 -> Forall fieldOk fs2 ->
  diffSide b1 p1 fn1 fs1 -> diffSide b2 p2 fn2 fs2 ->
  exists p1' p2' fn1' fn2',
    diffMerge (list ValueChanged) collect fuel b1 b2 p1 p2
      (length fs1) (length fs2) fn1 fn2 sink
    = Ok (FellThrough (list ValueChanged) p1' p2'
            (length (fst (leftOver fs1 fs2))) (length (snd (leftOver fs1 fs2)))
            fn1' fn2' (sink ++ fst (mergeFields fs1 fs2))) /\
    diffSide b1 p1' fn1' (fst (leftOver fs1 fs2)) /\
    diffSide b2 p2' fn2' (snd (leftOver fs1 fs2)).
Proof.
  unfold leftOver.
  induction fuel as [|fuel IH];
    intros fs1 fs2 b1 b2 p1 p2 fn1 fn2 sink Hfuel Hok1 Hok2 Hs1 Hs2.
  - destruct fs1; [|simpl in Hfuel; lia]. destruct fs2; [|simpl in Hfuel; lia].
    exists p1, p2, fn1, fn2. simpl. rewrite app_nil_r. auto.
  - destruct fs1 as [|[n1 v1] t1].
    { exists p1, p2, fn1, fn2. rewrite mergeFields_nil_l.
      simpl. rewrite app_nil_r. auto. }
    destruct fs2 as [|[n2 v2] t2].
    { exists p1, p2, fn1, fn2. rewrite mergeFields_nil_r.
      simpl. rewrite app_nil_r. auto. }
    inversion Hok1 as [|? ? [Hn1 [_ Hv1]] Hok1']; subst.
    inversion Hok2 as [|? ? [Hn2 [_ Hv2]] Hok2']; subst.
    simpl in Hn1, Hv1, Hn2, Hv2.
    destruct (nextName_side _ _ _ _ _ _ Hs1 Hn1) as (pre1 & Hnn1 & Hb1).
    destruct (nextName_side _ _ _ _ _ _ Hs2 Hn2) as (pre2 & Hnn2 & Hb2).
    destruct (value_side b1 pre1 v1 t1 Hb1 Hv1) as [Hrv1 Hs1'].
    destruct (value_side b2 pre2 v2 t2 Hb2 Hv2) as [Hrv2 Hs2'].
    rewrite mergeFields_cons.
    cbn [length diffMerge]. rewrite Hnn1. cbn [bindR]. rewrite Hnn2. cbn [bindR].
    simpl in Hfuel.
    destruct (String.eqb n1 n2) eqn:Eeq.
    + rewrite Hrv1. cbn [bindR]. rewrite Hrv2. cbn [bindR].
      destruct (Equals v1 v2) eqn:Ev.
      * destruct (IH t1 t2 b1 b2 (length (pre1 ++ v1)) (length (pre2 ++ v2))
                    ""%string ""%string sink ltac:(lia) Hok1' Hok2' Hs1' Hs2')
          as (q1 & q2 & g1 & g2 & Hrun & Hr1 & Hr2).
        destruct (mergeFields t1 t2) as [ev [rest1 rest2]].
        exists q1, q2, g1, g2. simpl in *. auto.
      * rewrite collect_eq.
        destruct (IH t1 t2 b1 b2 (length (pre1 ++ v1)) (length (pre2 ++ v2))
                    ""%string ""%string
                    (sink ++ [mkValueChanged DiffChangeModified n1 (Some v2) (Some v1)])
                    ltac:(lia) Hok1' Hok2' Hs1' Hs2')
          as (q1 & q2 & g1 & g2 & Hrun & Hr1 & Hr2).
        destruct (mergeFields t1 t2) as [ev [rest1 rest2]].
        exists q1, q2, g1, g2. simpl in *. rewrite <- app_assoc in Hrun. auto.
    + destruct (String.ltb n1 n2) eqn:Elt.
      * rewrite Hrv1. cbn [bindR]. rewrite collect_eq.
        assert (Hs2k : diffSide b2 (length pre2) n2 ((n2, v2) :: t2))
          by (apply diffSide_pending; [exact Hb2|eapply ltb_nonempty; exact Elt]).
        destruct (IH t1 ((n2, v2) :: t2) b1 b2 (length (pre1 ++ v1)) (length pre2)
                    ""%string n2
                    (sink ++ [mkValueChanged DiffChangeAdded n1 None (Some v1)])
                    ltac:(simpl; lia) Hok1' Hok2 Hs1' Hs2k)
          as (q1 & q2 & g1 & g2 & Hrun & Hr1 & Hr2).
        destruct (mergeFields t1 ((n2, v2) :: t2)) as [ev [rest1 rest2]].
        exists q1, q2, g1, g2. simpl in *. rewrite <- app_assoc in Hrun. auto.
      * rewrite Hrv2. cbn [bindR]. rewrite collect_eq.
        pose proof (ltb_total n1 n2 Eeq Elt) as Egt.
        assert (Hs1k : diffSide b1 (length pre1) n1 ((n1, v1) :: t1))
          by (apply diffSide_pending; [exact Hb1|eapply ltb_nonempty; exact Egt]).
        destruct (IH ((n1, v1) :: t1) t2 b1 b2 (length pre1) (length (pre2 ++ v2))
                    n1 ""%string
                    (sink ++ [mkValueChanged DiffChangeRemoved n2 (Some v2) None])
                    ltac:(simpl; lia) Hok1 Hok2' Hs1k Hs2')
          as (q1 & q2 & g1 & g2 & Hrun & Hr1 & Hr2).
        destruct (mergeFields ((n1, v1) :: t1) t2) as [ev [rest1 rest2]].
        exists q1, q2, g1, g2. simpl in *. rewrite <- app_assoc in Hrun. auto.
Qed.

Lemma diffRest_spec mk rest b p fn sink :
  length rest <= 1 -> Forall fieldOk rest -> diffSide b p fn rest ->
  diffRest (list ValueChanged) collect mk (length rest) b p fn sink
  = Ok (true, sink ++ map (fun f => mk (fst f) (snd f)) rest).
Proof.
  intros Hlen Hok Hs. destruct rest as [|[m x] rest].
  - simpl. rewrite app_nil_r. reflexivity.
  - destruct rest; [|simpl in Hlen; lia].
    inversion Hok as [|? ? [Hm [_ Hx]] _]; subst. simpl in Hm, Hx.
    destruct (nextName_side _ _ _ _ _ _ Hs Hm) as (pre & Hnn & Hb).
    destruct (value_side b pre x [] Hb Hx) as [Hrv _].
    cbn [length diffRest]. rewrite Hnn. cbn [bindR]. rewrite Hrv. cbn [bindR].
    rewrite collect_eq. reflexivity.
Qed.

Lemma mergeFields_same fs : mergeFields fs fs = ([], ([], [])).
Proof.
  induction fs as [|[n v] fs IH]; [reflexivity|].
  rewrite mergeFields_cons, String.eqb_refl, IH.
  unfold Equals. rewrite bool_decide_eq_true_2 by reflexivity. reflexivity.
Qed.

Lemma IterFields_spec s name fs :
  isStruct s name fs -> IterFields s = Ok fs.
Proof.
  intros Hs. pose proof (isStruct_count _ _ _ Hs) as Hc.
  destruct Hs as (Hb & Hname & _ & Hok & Hasc).
  unfold IterFields. eapply run_Ok.
  erewrite bind_Ok_eq by (eapply decoderSkipToFields_at; eassumption).
  rewrite Nat2N.id.
  apply (iterLoop_spec fs _ (structHeader name (N.of_nat (length fs))) []);
    [|reflexivity|exact Hok].
  rewrite Hb, encodeStruct_header, app_nil_r. reflexivity.
Qed.

Lemma Diff_collect_spec s last name1 fs1 name2 fs2 :
  isStruct s name1 fs1 -> isStruct last name2 fs2 ->
  length (fst (leftOver fs1 fs2)) <= 1 ->
  length (snd (leftOver fs1 fs2)) <= 1 ->
  Diff (list ValueChanged) collect s last [] = Ok (changesBetween fs1 fs2).
Proof.
  intros Hs1 Hs2 Hl1 Hl2. unfold Diff.
  destruct (StructEquals s last) eqn:Eeq.
  - unfold StructEquals in Eeq. apply bool_decide_eq_true_1 in Eeq.
    apply Struct_eq in Eeq. subst last.
    pose proof (IterFields_spec _ _ _ Hs1) as H1.
    pose proof (IterFields_spec _ _ _ Hs2) as H2.
    assert (fs1 = fs2) by congruence. subst fs2.
    unfold changesBetween. rewrite mergeFields_same. reflexivity.
  - pose proof (isStruct_count _ _ _ Hs1) as Hc1.
    pose proof (isStruct_count _ _ _ Hs2) as Hc2.
    destruct Hs1 as (Hb1 & Hname1 & _ & Hok1 & _).
    destruct Hs2 as (Hb2 & Hname2 & _ & Hok2 & _).
    rewrite (decoderSkipToFields_at s name1 fs1 Hb1 Hname1 Hc1). cbn [bindR].
    rewrite (decoderSkipToFields_at last name2 fs2 Hb2 Hname2 Hc2). cbn [bindR].
    rewrite !Nat2N.id.
    destruct (diffMerge_spec (length fs1 + length fs2) fs1 fs2 (buff s) (buff last)
                (length (structHeader name1 (N.of_nat (length fs1))))
                (length (structHeader name2 (N.of_nat (length fs2))))
                ""%string ""%string [] (le_n _) Hok1 Hok2)
      as (q1 & q2 & g1 & g2 & Hrun & Hr1 & Hr2).
    { apply diffSide_start. rewrite Hb1. apply encodeStruct_header. }
    { apply diffSide_start. rewrite Hb2. apply encodeStruct_header. }
    rewrite Hrun. cbn [bindR].
    assert (Hrest1 : Forall fieldOk (fst (leftOver fs1 fs2)) /\
                     Forall fieldOk (snd (leftOver fs1 fs2))).
    { unfold leftOver. clear -Hok1 Hok2.
      revert fs2 Hok2. induction Hok1 as [|[n1 v1] t1 H1 Hok1 IH1]; intros fs2 Hok2.
      - rewrite mergeFields_nil_l. simpl. auto.
      - induction Hok2 as [|[n2 v2] t2 H2 Hok2 IH2].
        + rewrite mergeFields_nil_r. simpl. auto.
        + rewrite mergeFields_cons.
          destruct (String.eqb n1 n2).
          * specialize (IH1 t2 Hok2).
            destruct (mergeFields t1 t2) as [ev [r1 r2]]. exact IH1.
          * destruct (String.ltb n1 n2).
            -- specialize (IH1 ((n2, v2) :: t2) ltac:(constructor; assumption)).
               destruct (mergeFields t1 ((n2, v2) :: t2)) as [ev [r1 r2]].
               exact IH1.
            -- destruct (mergeFields ((n1, v1) :: t1) t2) as [ev [r1 r2]].
               exact IH2. }
    destruct Hrest1 as [Hrok1 Hrok2].
    rewrite (diffRest_spec _ _ _ _ _ _ Hl1 Hrok1 Hr1). cbn [bindR].
    rewrite (diffRest_spec _ _ _ _ _ _ Hl2 Hrok2 Hr2). cbn [bindR].
    unfold changesBetween, leftOver.
    destruct (mergeFields fs1 fs2) as [ev [r1 r2]]. simpl.
    rewrite <- app_assoc. reflexivity.
Qed.

(** *** The merge of two field lists, name by name *)

Lemma changesBetween_nil_l fs2 : changesBetween [] fs2 = map removed fs2.
Proof. unfold changesBetween. rewrite mergeFields_nil_l. reflexivity. Qed.

Lemma changesBetween_nil_r fs1 : changesBetween fs1 [] = map added fs1.
Proof.
  unfold changesBetween. rewrite mergeFields_nil_r. simpl.
  apply app_nil_r.
Qed.

Lemma changesBetween_cons n1 v1 r1 n2 v2 r2 :
  changesBetween ((n1, v1) :: r1) ((n2, v2) :: r2)
  = if String.eqb n1 n2 then
      (if Equals v1 v2 then [] else [modified n1 v2 v1])
      ++ changesBetween r1 r2
    else if String.ltb n1 n2 then
      added (n1, v1) :: changesBetween r1 ((n2, v2) :: r2)
    else
      removed (n2, v2) :: changesBetween ((n1, v1) :: r1) r2.
Proof.
  unfold changesBetween. rewrite mergeFields_cons.
  destruct (String.eqb n1 n2).
  - destruct (mergeFields r1 r2) as [ev [a b]].
    rewrite <- app_assoc. reflexivity.
  - destruct (String.ltb n1 n2).
    + destruct (mergeFields r1 ((n2, v2) :: r2)) as [ev [a b]]. reflexivity.
    + destruct (mergeFields ((n1, v1) :: r1) r2) as [ev [a b]]. reflexivity.
Qed.

(** An induction that follows the merge. *)
Lemma merge_ind (P : list (string * EncodedValue) ->
                     list (string * EncodedValue) -> Prop) :
  (forall fs2, P [] fs2) ->
  (forall fs1, P fs1 []) ->
  (forall n1 v1 r1 n2 v2 r2,
     (String.eqb n1 n2 = true -> P r1 r2) ->
     (String.eqb n1 n2 = false -> String.ltb n1 n2 = true ->
      P r1 ((n2, v2) :: r2)) ->
     (String.eqb n1 n2 = false -> String.ltb n1 n2 = false ->
      P ((n1, v1) :: r1) r2) ->
     P ((n1, v1) :: r1) ((n2, v2) :: r2)) ->
  forall fs1 fs2, P fs1 fs2.
Proof.
  intros Hl Hr Hc fs1.
  induction fs1 as [|[n1 v1] r1 IH1]; [exact Hl|].
  intros fs2. induction fs2 as [|[n2 v2] r2 IH2]; [apply Hr|].
  apply Hc; intros; auto.
Qed.

Lemma changes_keys : forall fs1 fs2 c,
  In c (changesBetween fs1 fs2) ->
  In (Key c) (map fst fs1) \/ In (Key c) (map fst fs2).
Proof.
  apply (merge_ind (fun fs1 fs2 => forall c,
           In c (changesBetween fs1 fs2) ->
           In (Key c) (map fst fs1) \/ In (Key c) (map fst fs2))).
  - intros fs2 c. rewrite changesBetween_nil_l.
    intros H. apply in_map_iff in H. destruct H as ([k v] & <- & Hin).
    right. apply in_map_iff. exists (k, v). auto.
  - intros fs1 c. rewrite changesBetween_nil_r.
    intros H. apply in_map_iff in H. destruct H as ([k v] & <- & Hin).
    left. apply in_map_iff. exists (k, v). auto.
  - intros n1 v1 r1 n2 v2 r2 IHe IHl IHg c. rewrite changesBetween_cons.
    destruct (String.eqb n1 n2) eqn:Ee.
    + intros H. apply in_app_or in H. destruct H as [H|H].
      * destruct (Equals v1 v2); [destruct H|].
        destruct H as [<-|[]]. left. left. reflexivity.
      * destruct (IHe eq_refl c H) as [H'|H']; [left|right]; right; exact H'.
    + destruct (String.ltb n1 n2) eqn:El.
      * intros [<-|H]; [left; left; reflexivity|].
        destruct (IHl eq_refl eq_refl c H) as [H'|H']; [left; right|right];
          exact H'.
      * intros [<-|H]; [right; left; reflexivity|].
        destruct (IHg eq_refl eq_refl c H) as [H'|H']; [left|right; right];
          exact H'.
Qed.

Lemma allAfter_names n fs k :
  allAfter n fs -> In k (map fst fs) -> String.ltb n k = true.
Proof.
  intros Ha Hin. apply in_map_iff in Hin. destruct Hin as (f & <- & Hin).
  unfold allAfter in Ha. rewrite List.Forall_forall in Ha. auto.
Qed.

Lemma changes_after n fs1 fs2 c :
  allAfter n fs1 -> allAfter n fs2 ->
  In c (changesBetween fs1 fs2) -> String.ltb n (Key c) = true.
Proof.
  intros H1 H2 Hin.
  destruct (changes_keys _ _ _ Hin) as [H|H];
    [apply (allAfter_names n fs1 _ H1 H)|apply (allAfter_names n fs2 _ H2 H)].
Qed.

Lemma allAfter_cons n m x fs :
  String.ltb n m = true -> allAfter m fs -> allAfter n ((m, x) :: fs).
Proof.
  intros Hnm Ha. constructor; [exact Hnm|].
  eapply allAfter_trans; eassumption.
Qed.

Lemma changeAt_head_eq n v1 r1 v2 r2 :
  changeAt ((n, v1) :: r1) ((n, v2) :: r2) n
  = if Equals v1 v2 then None else Some (modified n v2 v1).
Proof. unfold changeAt. simpl. rewrite String.eqb_refl. reflexivity. Qed.

Lemma lookup_cons_ne m x r k :
  String.eqb m k = false -> lookupField k ((m, x) :: r) = lookupField k r.
Proof. intros E. simpl. rewrite E. reflexivity. Qed.

Lemma changesBetween_at : forall fs1 fs2,
  ascending (map fst fs1) -> ascending (map fst fs2) ->
  forall c, In c (changesBetween fs1 fs2) <->
            changeAt fs1 fs2 (Key c) = Some c.
Proof.
  apply (merge_ind (fun fs1 fs2 =>
           ascending (map fst fs1) -> ascending (map fst fs2) ->
           forall c, In c (changesBetween fs1 fs2) <->
                     changeAt fs1 fs2 (Key c) = Some c)).
  - intros fs2 _ Ha c. rewrite changesBetween_nil_l. unfold changeAt. simpl.
    split.
    + intros H. apply in_map_iff in H. destruct H as ([k v] & <- & Hin).
      simpl. rewrite (proj2 (lookupField_In k v fs2 Ha) Hin). reflexivity.
    + destruct (lookupField (Key c) fs2) as [v|] eqn:E; [|discriminate].
      intros [= <-]. apply in_map_iff. exists (Key c, v).
      split; [reflexivity|]. apply lookupField_In; assumption.
  - intros fs1 Ha _ c. rewrite changesBetween_nil_r. unfold changeAt.
    split.
    + intros H. apply in_map_iff in H. destruct H as ([k v] & <- & Hin).
      simpl. rewrite (proj2 (lookupField_In k v fs1 Ha) Hin). reflexivity.
    + destruct (lookupField (Key c) fs1) as [v|] eqn:E; simpl;
        [|discriminate].
      intros [= <-]. apply in_map_iff. exists (Key c, v).
      split; [reflexivity|]. apply lookupField_In; assumption.
  - intros n1 v1 r1 n2 v2 r2 IHe IHl IHg Ha1 Ha2 c.
    pose proof Ha1 as Ha1'. pose proof Ha2 as Ha2'.
    apply (proj1 (ascending_cons n1 v1 r1)) in Ha1. destruct Ha1 as [Hf1 Hs1].
    apply (proj1 (ascending_cons n2 v2 r2)) in Ha2. destruct Ha2 as [Hf2 Hs2].
    rewrite changesBetween_cons.
    destruct (String.eqb n1 n2) eqn:Ee.
    + apply String.eqb_eq in Ee. subst n2. specialize (IHe eq_refl Hs1 Hs2 c).
      destruct (String.eqb n1 (Key c)) eqn:Ek.
      * apply String.eqb_eq in Ek. rewrite <- Ek. rewrite changeAt_head_eq.
        split.
        -- intros H. apply in_app_or in H. destruct H as [H|H].
           ++ destruct (Equals v1 v2); [destruct H|].
              destruct H as [<-|[]]. reflexivity.
           ++ apply (changes_after n1) in H; [|assumption..].
              rewrite <- Ek, ltb_irrefl in H. discriminate.
        -- destruct (Equals v1 v2); [discriminate|].
           intros [= <-]. apply in_or_app. left. left. reflexivity.
      * unfold changeAt. rewrite !lookup_cons_ne by exact Ek.
        fold (changeAt r1 r2 (Key c)). rewrite <- IHe. split.
        -- intros H. apply in_app_or in H. destruct H as [H|H]; [|exact H].
           destruct (Equals v1 v2); [destruct H|].
           destruct H as [<-|[]]. simpl in Ek.
           rewrite String.eqb_refl in Ek. discriminate.
        -- intros H. apply in_or_app. right. exact H.
    + destruct (String.ltb n1 n2) eqn:El.
      * specialize (IHl eq_refl eq_refl Hs1 Ha2' c).
        destruct (String.eqb n1 (Key c)) eqn:Ek.
        -- apply String.eqb_eq in Ek. rewrite <- Ek. unfold changeAt.
           rewrite (allAfter_lookup n1 ((n2, v2) :: r2)
                      (allAfter_cons n1 n2 v2 r2 El Hf2)).
           simpl lookupField. rewrite String.eqb_refl.
           split.
           ++ intros [<-|H]; [reflexivity|].
              apply (changes_after n1) in H;
                [|assumption|apply allAfter_cons; assumption].
              rewrite <- Ek, ltb_irrefl in H. discriminate.
           ++ intros [= <-]. left. reflexivity.
        -- unfold changeAt. rewrite (lookup_cons_ne n1 v1 r1) by exact Ek.
           fold (changeAt r1 ((n2, v2) :: r2) (Key c)). rewrite <- IHl.
           split.
           ++ intros [<-|H]; [|exact H].
              simpl in Ek. rewrite String.eqb_refl in Ek. discriminate.
           ++ intros H. right. exact H.
      * pose proof (ltb_total n1 n2 Ee El) as Eg.
        specialize (IHg eq_refl eq_refl Ha1' Hs2 c).
        destruct (String.eqb n2 (Key c)) eqn:Ek.
        -- apply String.eqb_eq in Ek. rewrite <- Ek. unfold changeAt.
           rewrite (allAfter_lookup n2 ((n1, v1) :: r1)
                      (allAfter_cons n2 n1 v1 r1 Eg Hf1)).
           simpl lookupField. rewrite String.eqb_refl.
           split.
           ++ intros [<-|H]; [reflexivity|].
              apply (changes_after n2) in H;
                [|apply allAfter_cons; assumption|assumption].
              rewrite <- Ek, ltb_irrefl in H. discriminate.
           ++ intros [= <-]. left. reflexivity.
        -- unfold changeAt. rewrite (lookup_cons_ne n2 v2 r2) by exact Ek.
           fold (changeAt ((n1, v1) :: r1) r2 (Key c)). rewrite <- IHg.
           split.
           ++ intros [<-|H]; [|exact H].
              simpl in Ek. rewrite String.eqb_refl in Ek. discriminate.
           ++ intros H. right. exact H.
Qed.

Lemma changesBetween_ascending : forall fs1 fs2,
  ascending (map fst fs1) -> ascending (map fst fs2) ->
  ascending (map Key (changesBetween fs1 fs2)).
Proof.
  assert (Hmap : forall (g : string * EncodedValue -> ValueChanged) fs,
            (forall f, Key (g f) = fst f) ->
            map Key (map g fs) = map fst fs).
  { intros g fs Hg. rewrite map_map. apply map_ext. exact Hg. }
  assert (Hhead : forall n cs,
            (forall c, In c cs -> String.ltb n (Key c) = true) ->
            Forall (strictlyBefore n) (map Key cs)).
  { intros n cs H. apply List.Forall_forall. intros k Hk.
    apply in_map_iff in Hk. destruct Hk as (c & <- & Hc). apply H. exact Hc. }
  apply (merge_ind (fun fs1 fs2 =>
           ascending (map fst fs1) -> ascending (map fst fs2) ->
           ascending (map Key (changesBetween fs1 fs2)))).
  - intros fs2 _ Ha. rewrite changesBetween_nil_l, Hmap; auto.
  - intros fs1 Ha _. rewrite changesBetween_nil_r, Hmap; auto.
  - intros n1 v1 r1 n2 v2 r2 IHe IHl IHg Ha1 Ha2.
    pose proof Ha1 as Ha1'. pose proof Ha2 as Ha2'.
    apply (proj1 (ascending_cons n1 v1 r1)) in Ha1. destruct Ha1 as [Hf1 Hs1].
    apply (proj1 (ascending_cons n2 v2 r2)) in Ha2. destruct Ha2 as [Hf2 Hs2].
    rewrite changesBetween_cons.
    destruct (String.eqb n1 n2) eqn:Ee.
    + apply String.eqb_eq in Ee. subst n2.
      destruct (Equals v1 v2); simpl; [exact (IHe eq_refl Hs1 Hs2)|].
      constructor; [exact (IHe eq_refl Hs1 Hs2)|]. apply Hhead. intros c Hc.
      exact (changes_after n1 r1 r2 c Hf1 Hf2 Hc).
    + destruct (String.ltb n1 n2) eqn:El; simpl.
      * constructor; [exact (IHl eq_refl eq_refl Hs1 Ha2')|].
        apply Hhead. intros c Hc.
        eapply (changes_after n1); [| |exact Hc];
          [assumption|apply allAfter_cons; assumption].
      * pose proof (ltb_total n1 n2 Ee El) as Eg.
        constructor; [exact (IHg eq_refl eq_refl Ha1' Hs2)|].
        apply Hhead. intros c Hc.
        eapply (changes_after n2); [| |exact Hc];
          [apply allAfter_cons; assumption|assumption].
Qed.


Lemma Equals_refl v : Equals v v = true.
Proof. unfold Equals. apply bool_decide_eq_true_2. reflexivity. Qed.

Lemma merge_setField_new n v fs :
  ascending (map fst fs) ->
  snd (leftOver (setField n v fs) fs) = [] /\
  length (fst (leftOver (setField n v fs) fs)) <= 1 /\
  changesBetween (setField n v fs) fs
  = match lookupField n fs with
    | None => [added (n, v)]
    | Some old => if Equals v old then [] else [modified n old v]
    end.
Proof.
  unfold leftOver, changesBetween.
  induction fs as [|[m x] r IH]; intros Ha.
  - simpl. auto.
  - apply (proj1 (ascending_cons m x r)) in Ha. destruct Ha as [Haft Ha].
    cbn [setField lookupField].
    destruct (String.eqb n m) eqn:Enm.
    + apply String.eqb_eq in Enm. subst m.
      rewrite mergeFields_cons, !String.eqb_refl, mergeFields_same.
      simpl. rewrite !app_nil_r. auto.
    + rewrite String.eqb_sym, Enm.
      destruct (String.ltb n m) eqn:Elt.
      * rewrite mergeFields_cons, Enm, Elt, mergeFields_same. simpl.
        rewrite (allAfter_lookup_before n m r Elt Haft). auto.
      * rewrite mergeFields_cons, String.eqb_refl, Equals_refl.
        specialize (IH Ha).
        destruct (mergeFields (setField n v r) r) as [ev [r1 r2]].
        simpl in *. exact IH.
Qed.

Lemma merge_setField_old n v fs :
  ascending (map fst fs) ->
  fst (leftOver fs (setField n v fs)) = [] /\
  length (snd (leftOver fs (setField n v fs))) <= 1 /\
  changesBetween fs (setField n v fs)
  = match lookupField n fs with
    | None => [removed (n, v)]
    | Some old => if Equals old v then [] else [modified n v old]
    end.
Proof.
  unfold leftOver, changesBetween.
  induction fs as [|[m x] r IH]; intros Ha.
  - simpl. auto.
  - apply (proj1 (ascending_cons m x r)) in Ha. destruct Ha as [Haft Ha].
    cbn [setField lookupField].
    destruct (String.eqb n m) eqn:Enm.
    + apply String.eqb_eq in Enm. subst m.
      rewrite mergeFields_cons, !String.eqb_refl, mergeFields_same.
      simpl. rewrite !app_nil_r. auto.
    + rewrite String.eqb_sym, Enm.
      destruct (String.ltb n m) eqn:Elt.
      * rewrite mergeFields_cons, String.eqb_sym, Enm, (ltb_asym _ _ Elt),
          mergeFields_same. simpl.
        rewrite (allAfter_lookup_before n m r Elt Haft). auto.
      * rewrite mergeFields_cons, String.eqb_refl, Equals_refl.
        specialize (IH Ha).
        destruct (mergeFields r (setField n v r)) as [ev [r1 r2]].
        simpl in *. exact IH.
Qed.

(** X18.  Diffing a struct against itself after one [Set] reports that
    field and nothing else.  Let [s] be a struct with well-formed fields,
    [n] a valid field name and [v] a well-formed encoded value (over the
    field values and [v], [skipValue] and [readValue] both pass from the
    first byte to the last, so none is a chunked collection).  Let [s'] be
    [s.Set(n, v)] and let every change be delivered.  [s'.Diff(s)] emits
    one event: added, with [v], when [s] has no field [n]; modified, with
    the old value and [v], when it has one with another value; and no
    event when the value was [v] already.  [s.Diff(s')] emits the mirror
    image: removed, or modified with the two values swapped. *)
Theorem Diff_after_Set_reports_that_field s name fs n v :
  isStruct s name fs ->
  IsValidStructFieldName n = true ->
  goLen (String.length n) -> regular v -> goLen (S (S (length fs))) ->
  exists s',
    StructSet s n v = Ok s' /\
    Diff (list ValueChanged) collect s' s []
    = Ok (match lookupField n fs with
          | None => [added (n, v)]
          | Some old => if Equals v old then [] else [modified n old v]
          end) /\
    Diff (list ValueChanged) collect s s' []
    = Ok (match lookupField n fs with
          | None => [removed (n, v)]
          | Some old => if Equals old v then [] else [modified n v old]
          end).
Proof.
  intros Hs Hvalid Hn Hv Hroom.
  pose proof (setField_isStruct s name fs n v Hs (conj Hn Hv) Hroom) as Hs'.
  pose proof Hs as (_ & _ & _ & _ & Hasc).
  destruct (merge_setField_new n v fs Hasc) as (Hn2 & Hn1 & Hnew).
  destruct (merge_setField_old n v fs Hasc) as (Ho1 & Ho2 & Hold).
  eexists. split; [apply StructSet_spec; eassumption|]. split.
  - transitivity (Ok (A := list ValueChanged) (changesBetween (setField n v fs) fs));
      [|f_equal; exact Hnew].
    apply (Diff_collect_spec _ _ name _ name _ Hs' Hs); [exact Hn1|].
    rewrite Hn2. simpl. lia.
  - transitivity (Ok (A := list ValueChanged) (changesBetween fs (setField n v fs)));
      [|f_equal; exact Hold].
    apply (Diff_collect_spec _ _ name _ name _ Hs Hs'); [|exact Ho2].
    rewrite Ho1. simpl. lia.
Qed.

(** ** Equality of structs *)

Lemma Name_spec s name fs : isStruct s name fs -> Name s = Ok name.
Proof.
  intros Hs. pose proof (isStruct_count _ _ _ Hs) as Hc.
  destruct Hs as (Hb & Hname & _ & Hok & Hasc).
  destruct (header_at name (N.of_nat (length fs)) (encodeFields fs) Hname
              (goLen_count _ Hc) (buff s)) as (Hk & Hn & _).
  { rewrite Hb. apply encodeStruct_header. }
  unfold Name. eapply run_Ok. erewrite bind_Ok_eq by exact Hk. exact Hn.
Qed.

(** X19.  Two structs with well-formed fields are [Equals], that is have
    the same bytes, exactly when they have the same name and the same
    fields with the same values. *)
Theorem StructEquals_iff_same_name_and_fields s1 name1 fs1 s2 name2 fs2 :
  isStruct s1 name1 fs1 -> isStruct s2 name2 fs2 ->
  (StructEquals s1 s2 = true <-> name1 = name2 /\ fs1 = fs2).
Proof.
  intros H1 H2. unfold StructEquals. rewrite bool_decide_eq_true. split.
  - intros E. apply Struct_eq in E. subst s2.
    pose proof (Name_spec _ _ _ H1) as N1.
    pose proof (Name_spec _ _ _ H2) as N2.
    pose proof (IterFields_spec _ _ _ H1) as I1.
    pose proof (IterFields_spec _ _ _ H2) as I2.
    split; congruence.
  - intros [-> ->].
    destruct H1 as (-> & _). destruct H2 as (-> & _). reflexivity.
Qed.

(** X20.  [NewStruct] is injective.  When it returns the same struct for
    two names and two mappings whose values are well-formed encodings, the
    names are the same and so are the mappings. *)
Theorem NewStruct_injective enum1 enum2 name1 name2
  (data1 data2 : gmap string EncodedValue) s :
  enum1 ≡ₚ (map_to_list data1).*1 ->
  enum2 ≡ₚ (map_to_list data2).*1 ->
  NewStruct enum1 name1 data1 = Ok s ->
  NewStruct enum2 name2 data2 = Ok s ->
  goLen (String.length name1) -> goLen (String.length name2) ->
  goLen (S (length enum1)) -> goLen (S (length enum2)) ->
  (forall n v, data1 !! n = Some v -> goLen (String.length n) /\ regular v) ->
  (forall n v, data2 !! n = Some v -> goLen (String.length n) /\ regular v) ->
  name1 = name2 /\ data1 = data2.
Proof.
  intros Hp1 Hp2 H1 H2 Hn1 Hn2 Hc1 Hc2 Hd1 Hd2.
  destruct (NewStruct_fields enum1 name1 data1 s Hp1 H1 Hn1 Hc1 Hd1)
    as (fs1 & Hs1 & Hl1 & _).
  destruct (NewStruct_fields enum2 name2 data2 s Hp2 H2 Hn2 Hc2 Hd2)
    as (fs2 & Hs2 & Hl2 & _).
  pose proof (Name_spec _ _ _ Hs1) as N1.
  pose proof (Name_spec _ _ _ Hs2) as N2.
  pose proof (IterFields_spec _ _ _ Hs1) as I1.
  pose proof (IterFields_spec _ _ _ Hs2) as I2.
  assert (fs1 = fs2) by congruence. subst fs2.
  split; [congruence|].
  apply map_eq. intros k. rewrite <- Hl1, <- Hl2. reflexivity.
Qed.

(** ** The skip path, where it agrees with the read path *)

(** X21.  Without validation, [skipValue] stops exactly where [readValue]
    stops on every encoding that [readValue] decodes to a value without
    meta-sequence tuples: booleans, numbers, strings, leaf blobs, lists,
    sets and maps, refs, types, structs, however nested. *)
Theorem skipValue_follows_readValue_without_tuples b p v q :
  readValue false b p = Ok (v, q) -> noTuples v = true ->
  skipValue false b p = Ok (tt, q).
Proof. apply readValue_skipValue. Qed.

(** X22.  Without validation, [skipType] stops exactly where [readType]
    stops on every type descriptor that [readType] decodes.  With
    validation, [skipType] first reads and validates the type, so it panics
    whenever [readType] does; but it then skips one more type descriptor
    from where the read stopped, so it never stops where [readType]
    stops. *)
Theorem skipType_against_readType b p :
  (forall t q, readType false b p = Ok (t, q) ->
               skipType false b p = Ok (tt, q)) /\
  (readType true b p = Panic -> skipType true b p = Panic) /\
  (forall t q q', readType true b p = Ok (t, q) ->
                  skipType true b p = Ok (tt, q') -> q < q').
Proof.
  unfold readType, skipType. split; [|split].
  - intros t q. apply readTypeF_skip.
  - intros H. unfold skipTypeF, bind. rewrite H. reflexivity.
  - intros t q q' H. unfold skipTypeF, bind. rewrite H. unfold ret.
    intros Hs.
    apply (progress_skipTypeInnerF b (fuelFor b) q q') in Hs; [tauto|].
    unfold fuelFor. lia.
Qed.

(** ** Decoding inside a larger span *)

Section LocalityOfValues.

Variables pre post : list byte.

Local Abbreviation shifted := (movedBy (shiftValue (length pre))).

Lemma asRef_shiftValue d v : asRef (shiftValue d v) = asRef v.
Proof. destruct v; reflexivity. Qed.

Lemma Forall2_movedBy {A} (f : A -> A) xs xs' :
  Forall2 (movedBy f) xs xs' -> xs' = map f xs.
Proof.
  induction 1 as [|x x' xs xs' Hx _ IH]; simpl; [reflexivity|].
  unfold movedBy in Hx. congruence.
Qed.

Lemma sim_metaSequence_shift (rv rv' : Dec Value) k level :
  Sim shifted pre post rv rv' ->
  Sim (movedBy (shiftSeq (length pre))) pre post
    (readMetaSequence rv k level) (readMetaSequence rv' k level).
Proof.
  intros Hrv. unfold readMetaSequence.
  apply sim_bind_eq; [apply sim_readCount|]. intros count.
  eapply sim_bind.
  - apply (sim_repeatM pre post (movedBy (shiftTuple (length pre)))).
    unfold readMetaTuple.
    eapply sim_bind; [exact Hrv|]. intros ref ref' ->.
    rewrite asRef_shiftValue.
    destruct (asRef ref); [|apply sim_panic].
    eapply sim_bind; [exact Hrv|]. intros v v' ->.
    rewrite asRef_shiftValue.
    apply sim_bind_eq; [apply sim_readCount|]. intros n.
    apply sim_ret. unfold movedBy. simpl.
    destruct (asRef v); reflexivity.
  - intros ts ts' Hts. apply sim_ret.
    unfold movedBy. simpl. f_equal. apply Forall2_movedBy. exact Hts.
Qed.

Lemma sim_setLeaf_shift (rv rv' : Dec Value) :
  Sim shifted pre post rv rv' ->
  Sim (movedBy (shiftSeq (length pre))) pre post
    (readSetLeafSequence rv) (readSetLeafSequence rv').
Proof.
  intros Hrv. unfold readSetLeafSequence, readValueSequence.
  eapply sim_bind.
  - apply sim_bind_eq; [apply sim_readCount|]. intros count.
    apply sim_repeatM. exact Hrv.
  - intros d d' Hd. apply sim_ret.
    unfold movedBy. simpl. f_equal. apply Forall2_movedBy. exact Hd.
Qed.

Lemma sim_listLeaf_shift (sk sk' : Dec unit) :
  Sim eq pre post sk sk' ->
  Sim (movedBy (shiftSeq (length pre))) pre post
    (readListLeafSequence sk) (readListLeafSequence sk').
Proof.
  intros Hsk. unfold readListLeafSequence, readLazyValueOffsets.
  eapply sim_bind.
  - apply sim_bind_eq; [apply sim_readCount|]. intros count.
    apply (sim_repeatM pre post (movedBy (Nat.add (length pre)))).
    eapply sim_bind; [apply sim_pos|]. intros o o' ->.
    apply sim_bind_eq; [exact Hsk|]. intros _. apply sim_ret. reflexivity.
  - intros os os' Hos. eapply sim_bind; [apply sim_pos|]. intros o o' ->.
    apply sim_ret. unfold movedBy. simpl. f_equal.
    apply Forall2_movedBy. exact Hos.
Qed.

Lemma sim_mapLeaf_shift (rv rv' : Dec Value) :
  Sim shifted pre post rv rv' ->
  Sim (movedBy (shiftSeq (length pre))) pre post
    (readMapLeafSequence rv) (readMapLeafSequence rv').
Proof.
  intros Hrv. unfold readMapLeafSequence.
  apply sim_bind_eq; [apply sim_readCount|]. intros count.
  eapply sim_bind.
  - apply (sim_repeatM pre post
             (movedBy (fun kv : Value * Value =>
                         let '(k, v) := kv in
                         (shiftValue (length pre) k, shiftValue (length pre) v)))).
    eapply sim_bind; [exact Hrv|]. intros k k' ->.
    eapply sim_bind; [exact Hrv|]. intros v v' ->.
    apply sim_ret. reflexivity.
  - intros d d' Hd. apply sim_ret.
    unfold movedBy. simpl. f_equal. apply Forall2_movedBy. exact Hd.
Qed.

Lemma sim_struct_shift (rv rv' : Dec Value) :
  Sim shifted pre post rv rv' ->
  Sim shifted pre post (readStruct rv) (readStruct rv').
Proof.
  intros Hrv. unfold readStruct.
  apply sim_bind_eq; [apply sim_readString|]. intros name.
  apply sim_bind_eq; [apply sim_readCount|]. intros count.
  eapply sim_bind.
  - apply (sim_repeatM pre post
             (movedBy (fun nv : string * Value =>
                         (fst nv, shiftValue (length pre) (snd nv))))).
    apply sim_bind_eq; [apply sim_readString|]. intros n.
    eapply sim_bind; [exact Hrv|]. intros v v' ->.
    apply sim_ret. reflexivity.
  - intros d d' Hd. apply sim_ret. apply Forall2_movedBy in Hd. subst d'.
    unfold movedBy. simpl. rewrite !map_map. simpl. reflexivity.
Qed.

Lemma sim_wrap_shift (wrap : sequence -> Value) (m m' : Dec sequence) :
  (forall s, shiftValue (length pre) (wrap s)
             = wrap (shiftSeq (length pre) s)) ->
  Sim (movedBy (shiftSeq (length pre))) pre post m m' ->
  Sim shifted pre post (let* s := m in ret (wrap s))
                       (let* s := m' in ret (wrap s)).
Proof.
  intros Hw Hm. eapply sim_bind; [exact Hm|]. intros s s' ->.
  apply sim_ret. unfold movedBy. rewrite Hw. reflexivity.
Qed.

Lemma sim_readValueF_shift validating f : forall f', f <= f' ->
  Sim shifted pre post (readValueF validating f) (readValueF validating f').
Proof.
  induction f as [|f IH]; intros f' Hle.
  - apply sim_outOfFuel.
  - destruct f' as [|f']; [lia|]. simpl.
    assert (Hrv : Sim shifted pre post (readValueF validating f)
                    (readValueF validating f')) by (apply IH; lia).
    assert (Hsk : Sim eq pre post (skipValueF validating f)
                    (skipValueF validating f'))
      by (apply sim_skipValueF; lia).
    apply sim_bind_eq; [apply sim_readKind|]. intros k.
    destruct k as [[]|]; try apply sim_panic.
    + apply sim_bind_eq; [apply sim_readBool|]. intros b.
      apply sim_ret. reflexivity.
    + apply sim_bind_eq; [apply sim_readNumber|]. intros n.
      apply sim_ret. reflexivity.
    + apply sim_bind_eq; [apply sim_readString|]. intros s.
      apply sim_ret. reflexivity.
    + apply sim_bind_eq; [apply sim_readCount|]. intros level.
      destruct (0 <? level)%N.
      * apply sim_wrap_shift; [reflexivity|].
        apply sim_metaSequence_shift. exact Hrv.
      * apply sim_wrap_shift; [reflexivity|].
        unfold readBlobLeafSequence.
        apply sim_bind_eq; [apply sim_readBytes|]. intros d.
        apply sim_ret. reflexivity.
    + apply sim_bind_eq; [apply sim_readCount|]. intros level.
      destruct (0 <? level)%N.
      * apply sim_wrap_shift; [reflexivity|].
        apply sim_metaSequence_shift. exact Hrv.
      * apply sim_wrap_shift; [reflexivity|].
        apply sim_listLeaf_shift. exact Hsk.
    + apply sim_bind_eq; [apply sim_readCount|]. intros level.
      destruct (0 <? level)%N.
      * apply sim_wrap_shift; [reflexivity|].
        apply sim_metaSequence_shift. exact Hrv.
      * apply sim_wrap_shift; [reflexivity|].
        apply sim_mapLeaf_shift. exact Hrv.
    + unfold readRef.
      apply sim_bind_eq; [apply sim_readHash|]. intros h.
      apply sim_bind_eq; [apply sim_readTypeF; lia|]. intros t.
      apply sim_bind_eq; [apply sim_readCount|]. intros height.
      apply sim_ret. reflexivity.
    + apply sim_bind_eq; [apply sim_readCount|]. intros level.
      destruct (0 <? level)%N.
      * apply sim_wrap_shift; [reflexivity|].
        apply sim_metaSequence_shift. exact Hrv.
      * apply sim_wrap_shift; [reflexivity|].
        apply sim_setLeaf_shift. exact Hrv.
    + apply sim_struct_shift. exact Hrv.
    + apply sim_bind_eq; [apply sim_readTypeF; lia|]. intros t.
      apply sim_ret. reflexivity.
Qed.

End LocalityOfValues.

(** X23.  Decoding is local to the bytes it goes over.  When [readValue],
    [skipValue], [readType] or [skipType] succeeds on a span from [i] to
    [j], it succeeds on any span that holds those bytes at an offset,
    between the shifted positions and with the same result; the value that
    [readValue] returns is the same but for the offsets recorded in lazy
    list leaves, which are positions in the span and move by the offset. *)
Theorem decoding_is_local validating pre post e i j :
  (forall v, readValue validating e i = Ok (v, j) ->
   readValue validating (pre ++ e ++ post) (length pre + i)
   = Ok (shiftValue (length pre) v, length pre + j)) /\
  (skipValue validating e i = Ok (tt, j) ->
   skipValue validating (pre ++ e ++ post) (length pre + i)
   = Ok (tt, length pre + j)) /\
  (forall t, readType validating e i = Ok (t, j) ->
   readType validating (pre ++ e ++ post) (length pre + i)
   = Ok (t, length pre + j)) /\
  (skipType validating e i = Ok (tt, j) ->
   skipType validating (pre ++ e ++ post) (length pre + i)
   = Ok (tt, length pre + j)).
Proof.
  assert (Hf : fuelFor e <= fuelFor (pre ++ e ++ post))
    by (unfold fuelFor; rewrite !length_app; lia).
  unfold skipValue, readType, skipType, readValue.
  split; [|split; [|split]].
  - intros v H.
    destruct (sim_readValueF_shift pre post validating _ _ Hf _ _ _ _ H)
      as (v' & E & ->). exact E.
  - intros H.
    destruct (sim_skipValueF pre post validating _ _ Hf _ _ _ _ H)
      as ([] & E & _). exact E.
  - intros t H.
    destruct (sim_readTypeF pre post validating _ _ Hf _ _ _ _ H)
      as (t' & E & <-). exact E.
  - intros H.
    destruct (sim_skipTypeF pre post validating _ _ Hf _ _ _ _ H)
      as ([] & E & _). exact E.
Qed.

(** ** What a decoded value tells about its bytes *)

Lemma readKind_inv b p k p1 :
  readKind b p = Ok (k, p1) ->
  p1 = S p /\ exists c, nth_error b p = Some c /\ k = kindOfTag (Byte.to_N c).
Proof.
  unfold readKind, bind, readUint8, ret.
  destruct (nth_error b p) as [c|]; [|discriminate].
  intros [= <- <-]. eauto.
Qed.

(** Follows a successful run down to the value it returns. *)
Ltac kind_branch H :=
  repeat first
    [ progress (unfold ret in H); injection H as <- <-
    | apply bind_Ok in H; destruct H as (? & ? & _ & H)
    | match type of H with
      | (if ?c then _ else _) _ _ = _ => destruct c
      end ];
  reflexivity.

Lemma readValueF_kind validating f b p v q :
  readValueF validating (S f) b p = Ok (v, q) ->
  readKind b p = Ok (Some (kindOfValue v), S p).
Proof.
  cbn [readValueF]. intros H.
  apply bind_Ok in H. destruct H as (k & p1 & Hk & H).
  destruct (readKind_inv _ _ _ _ Hk) as (-> & _).
  rewrite Hk. do 2 f_equal.
  destruct k as [[]|]; try discriminate H;
    unfold readRef, readStruct in H; kind_branch H.
Qed.

(** X24.  The first byte of what [readValue] decodes is the tag of the
    kind of the value it returns, so no value has kind Value, Cycle or
    Union; [skipValue] accepts no other tags either.  Both consume at
    least that byte, which lies inside the span: neither returns at or
    past the end of the span, nor without moving the cursor. *)
Theorem readValue_kind_is_the_tag validating b p q :
  (forall v, readValue validating b p = Ok (v, q) ->
     (exists c, nth_error b p = Some c /\
                kindOfTag (Byte.to_N c) = Some (kindOfValue v)) /\
     p < q /\ p < length b) /\
  (skipValue validating b p = Ok (tt, q) ->
     (exists c k, nth_error b p = Some c /\
                  kindOfTag (Byte.to_N c) = Some k /\
                  k <> ValueKind /\ k <> CycleKind /\ k <> UnionKind) /\
     p < q /\ p < length b).
Proof.
  unfold readValue, skipValue, fuelFor. split.
  - intros v H. split.
    + apply readValueF_kind in H. apply readKind_inv in H.
      destruct H as (_ & c & Hc & E). eauto.
    + eapply progress_readValueF; [|exact H]. lia.
  - intros H. split.
    + cbn [skipValueF] in H.
      apply bind_Ok in H. destruct H as (k & p1 & Hk & H).
      apply readKind_inv in Hk. destruct Hk as (_ & c & Hc & ->).
      exists c. destruct (kindOfTag (Byte.to_N c)) as [k|]; [|discriminate H].
      exists k. split; [exact Hc|]. split; [reflexivity|].
      destruct k; try discriminate H; repeat split; discriminate.
    + eapply progress_skipValueF; [|exact H]. lia.
Qed.

(** ** Lazy list leaves *)

Lemma scanned_ascending (sk : Dec unit) b p os q :
  scannedFrom sk b p os q ->
  (forall p' q', p <= p' -> sk b p' = Ok (tt, q') -> p' < q' /\ p' < length b) ->
  p <= q /\ StronglySorted lt os /\
  Forall (fun o => p <= o /\ o < q /\ o < length b) os.
Proof.
  induction 1 as [p|p p' os q Hsk Hscan IH]; intros Hprog.
  - repeat split; [lia|constructor|constructor].
  - destruct (Hprog p p' (le_n _) Hsk) as [Hlt Hin].
    destruct IH as (Hle & Hsorted & Hall).
    { intros p0 q0 Hp0. apply Hprog. lia. }
    split; [lia|]. split.
    + constructor; [exact Hsorted|].
      eapply List.Forall_impl; [|exact Hall]. simpl. intros o Ho. lia.
    + constructor; [lia|].
      eapply List.Forall_impl; [|exact Hall]. simpl. intros o Ho. lia.
Qed.

Lemma readCount_forward b p n q : readCount b p = Ok (n, q) -> p <= q.
Proof.
  intros H. destruct (fuelSafe_readCount b 0 p (Nat.le_0_l _)) as [_ Hq].
  eapply Hq. exact H.
Qed.

(** X25.  When [readValue] decodes a flat list lazily, the offsets it
    records are strictly increasing positions of the span, each after the
    tag of the list and before the end offset, and the end offset is where
    the cursor is left: every element occupies at least one byte between
    its offset and the next. *)
Theorem lazy_list_offsets_ascend validating b p offsets e q :
  readValue validating b p = Ok (VList (listLazyLeafSequence offsets e), q) ->
  e = q /\
  StronglySorted lt offsets /\
  Forall (fun o => p < o /\ o < e /\ o < length b) offsets.
Proof.
  unfold readValue, fuelFor. intros H.
  pose proof (readValueF_kind _ _ _ _ _ _ H) as Hk. simpl kindOfValue in Hk.
  assert (Hin : p < length b).
  { destruct (readKind_inv _ _ _ _ Hk) as (_ & c & Hc & _).
    apply nth_error_Some. congruence. }
  cbn [readValueF] in H. unfold bind at 1 in H. rewrite Hk in H.
  apply bind_Ok in H. destruct H as (level & p2 & Hlevel & H).
  apply readCount_forward in Hlevel.
  destruct (0 <? level)%N.
  - apply bind_Ok in H. destruct H as (s & q' & Hs & H).
    unfold ret in H. injection H as -> _.
    unfold readMetaSequence in Hs.
    apply bind_Ok in Hs. destruct Hs as (? & ? & _ & Hs).
    apply bind_Ok in Hs. destruct Hs as (? & ? & _ & Hs).
    discriminate Hs.
  - apply bind_Ok in H. destruct H as (s & q' & Hs & H).
    unfold ret in H. injection H as -> ->.
    unfold readListLeafSequence, readLazyValueOffsets in Hs.
    apply bind_Ok in Hs. destruct Hs as (os & q1 & Hos & Hs).
    apply bind_Ok in Hs. destruct Hs as (e' & q2 & Hpos & Hs).
    unfold pos in Hpos. injection Hpos as <- <-.
    unfold ret in Hs. injection Hs as <- <- <-.
    apply bind_Ok in Hos. destruct Hos as (count & p3 & Hcount & Hos).
    apply readCount_forward in Hcount.
    apply repeat_offsets_scanned in Hos.
    destruct (scanned_ascending _ _ _ _ _ Hos) as (Hle & Hsorted & Hall).
    { intros p' q' Hp' Hsk. eapply progress_skipValueF; [|exact Hsk]. lia. }
    split; [reflexivity|]. split; [exact Hsorted|].
    eapply List.Forall_impl; [|exact Hall]. simpl. intros o Ho. lia.
Qed.

Lemma eager_then_lazy n : forall b p vs q,
  repeatM n (readValue false) b p = Ok (vs, q) ->
  Forall (fun v => noTuples v = true) vs ->
  exists os,
    repeatM n (let* o := pos in skipValue false ;;; ret o) b p = Ok (os, q) /\
    Forall2 (fun o v => exists q', readValue false b o = Ok (v, q')) os vs.
Proof.
  induction n as [|n IH]; intros b p vs q H Hall; simpl in *.
  - unfold ret in *. injection H as <- <-. exists []. split; [reflexivity|constructor].
  - apply bind_Ok in H. destruct H as (v & p1 & Hv & H).
    apply bind_Ok in H. destruct H as (vs' & p2 & Hvs & H).
    unfold ret in H. injection H as <- <-.
    inversion Hall as [|? ? Hnv Hall']; subst.
    destruct (IH _ _ _ _ Hvs Hall') as (os & Hos & Hrel).
    exists (p :: os). split.
    + assert (Hbody : (let* o := pos in skipValue false ;;; ret o) b p
                      = Ok (p, p1)).
      { unfold pos. erewrite bind_Ok_eq by reflexivity.
        erewrite bind_Ok_eq by (eapply readValue_skipValue; eassumption).
        reflexivity. }
      erewrite bind_Ok_eq by exact Hbody.
      erewrite bind_Ok_eq by exact Hos. reflexivity.
    + constructor; [eauto|exact Hrel].
Qed.

(** X26.  With a decoder that does not validate, a lazily decoded list
    holds the items an eager decode yields.  Let [readValueSequence] of
    such a decoder decode the elements of a flat sequence, as it does for
    a set, into values without meta-sequence tuples.  On the same bytes
    [readListLeafSequence] of such a decoder records one offset per
    element and ends at the same position, and [getItem] at an index
    returns the element that the eager decode has at that index, leaving
    the cursor where it was. *)
Theorem lazy_list_items_are_the_eager_items b p vs q :
  readValueSequence (readValue false) b p = Ok (vs, q) ->
  Forall (fun v => noTuples v = true) vs ->
  exists offsets,
    readListLeafSequence (skipValue false) b p
    = Ok (listLazyLeafSequence offsets q, q) /\
    length offsets = length vs /\
    forall idx v c, nth_error vs idx = Some v ->
                    getItem offsets idx b c = (Ok v, c).
Proof.
  unfold readValueSequence. intros H Hall.
  apply bind_Ok in H. destruct H as (count & p1 & Hcount & H).
  destruct (eager_then_lazy _ _ _ _ _ H Hall) as (os & Hos & Hrel).
  exists os. split; [|split].
  - unfold readListLeafSequence, readLazyValueOffsets.
    erewrite bind_Ok_eq
      by (erewrite bind_Ok_eq by exact Hcount; exact Hos).
    reflexivity.
  - eapply Forall2_length. exact Hrel.
  - intros idx v c Hv. unfold getItem. clear H Hos Hall Hcount.
    revert idx Hv. induction Hrel as [|o v0 os vs (q' & Hr) _ IH];
      intros idx Hv; destruct idx as [|idx]; simpl in *; try discriminate.
    + injection Hv as ->. rewrite Hr. reflexivity.
    + apply IH. exact Hv.
Qed.

(** ** Escaping is reversible *)

Lemma hexDigit_inj n m :
  (n < 16)%N -> (m < 16)%N -> hexDigit n = hexDigit m -> n = m.
Proof.
  intros Hn Hm.
  assert (En : In n [0;1;2;3;4;5;6;7;8;9;10;11;12;13;14;15]%N).
  { destruct n as [|p]; [left; reflexivity|].
    do 16 (destruct p as [p|p|]; try lia; simpl; auto 20). }
  assert (Em : In m [0;1;2;3;4;5;6;7;8;9;10;11;12;13;14;15]%N).
  { destruct m as [|p]; [left; reflexivity|].
    do 16 (destruct p as [p|p|]; try lia; simpl; auto 20). }
  simpl in En, Em.
  repeat (destruct En as [<-|En]);
    repeat (destruct Em as [<-|Em]);
    try reflexivity; try (vm_compute; discriminate); try contradiction.
Qed.

Lemma hex_pair_inj c1 c2 :
  hexDigit (N_of_ascii c1 / 16) = hexDigit (N_of_ascii c2 / 16) ->
  hexDigit (N_of_ascii c1 mod 16) = hexDigit (N_of_ascii c2 mod 16) ->
  c1 = c2.
Proof.
  intros Hhi Hlo.
  pose proof (N_of_ascii_bound c1) as B1.
  pose proof (N_of_ascii_bound c2) as B2.
  apply hexDigit_inj in Hhi;
    [|apply N.Div0.div_lt_upper_bound; exact B1
     |apply N.Div0.div_lt_upper_bound; exact B2].
  apply hexDigit_inj in Hlo; [|apply N.mod_lt; discriminate..].
  rewrite <- (ascii_N_embedding c1), <- (ascii_N_embedding c2). f_equal.
  rewrite (N.div_mod (N_of_ascii c1) 16), (N.div_mod (N_of_ascii c2) 16)
    by discriminate.
  rewrite Hhi, Hlo. reflexivity.
Qed.

Lemma hexUpper_app_inj s : forall s' R R',
  String.length s = String.length s' ->
  (hexUpper s ++ R)%string = (hexUpper s' ++ R')%string ->
  s = s' /\ R = R'.
Proof.
  induction s as [|c s IH]; intros [|c' s'] R R' Hlen H;
    try discriminate; simpl in *.
  - auto.
  - injection H as Hhi Hlo H. injection Hlen as Hlen.
    pose proof (hex_pair_inj c c' Hhi Hlo) as ->.
    destruct (IH s' R R' Hlen H) as [-> ->]. auto.
Qed.

Lemma length_append (s t : string) :
  String.length (s ++ t) = String.length s + String.length t.
Proof. induction s as [|c s IH]; simpl; [reflexivity|]. rewrite IH. reflexivity. Qed.

(** A step of the loop that takes a well-formed rune: the rune starts
    with the byte the step looked at, and that byte fixes its length. *)
Lemma nextRune_wellformed c0 rest s1 rest' :
  nextRune c0 rest = (s1, rest') ->
  String c0 rest = (s1 ++ rest')%string ->
  (exists t, s1 = String c0 t) /\ String.length s1 = runeLen c0.
Proof.
  unfold nextRune, runeLen.
  assert (Herr : forall r, String c0 rest <> (runeError ++ r)%string
                           \/ String.length r < String.length rest).
  { intros r.
    destruct (Nat.lt_ge_cases (String.length r) (String.length rest)) as [H|H];
      [right; exact H|left].
    intros E. apply (f_equal String.length) in E.
    rewrite length_append in E. simpl in E. lia. }
  assert (Hbad : forall r, String.length rest <= String.length r ->
                           String c0 rest <> (runeError ++ r)%string).
  { intros r Hr E. apply (f_equal String.length) in E.
    rewrite length_append in E. simpl in E. lia. }
  destruct (N_of_ascii c0 <? 128)%N.
  { intros [= <- <-] _. split; [eauto|reflexivity]. }
  destruct (N_of_ascii c0 <? 194)%N.
  { intros [= <- <-] E. exfalso. apply (Hbad rest (le_n _) E). }
  destruct (N_of_ascii c0 <? 224)%N.
  { destruct rest as [|c1 r1].
    - intros [= <- <-] E. exfalso. apply (Hbad ""%string (le_n _) E).
    - destruct (inRange 128 191 c1); intros [= <- <-] E.
      + split; [eauto|reflexivity].
      + exfalso. apply (Hbad _ (le_n _) E). }
  destruct (N_of_ascii c0 <? 240)%N.
  { destruct rest as [|c1 [|c2 r2]];
      try (intros [= <- <-] E; exfalso; apply (Hbad _ (le_n _) E)).
    match goal with |- context [inRange ?lo ?hi c1] =>
      destruct (inRange lo hi c1) end;
    destruct (inRange 128 191 c2); simpl;
      intros [= <- <-] E;
      try (exfalso; apply (Hbad _ (le_n _) E)).
    split; [eauto|reflexivity]. }
  destruct (N_of_ascii c0 <? 245)%N.
  { destruct rest as [|c1 [|c2 [|c3 r3]]];
      try (intros [= <- <-] E; exfalso; apply (Hbad _ (le_n _) E)).
    match goal with |- context [inRange ?lo ?hi c1] =>
      destruct (inRange lo hi c1) end;
    destruct (inRange 128 191 c2);
    destruct (inRange 128 191 c3); simpl;
      intros [= <- <-] E;
      try (exfalso; apply (Hbad _ (le_n _) E)).
    split; [eauto|reflexivity]. }
  intros [= <- <-] E. exfalso. apply (Hbad rest (le_n _) E).
Qed.

(** What the [encode] closure of [EscapeStructField] makes of a rune: the
    rune itself when it is one allowed character other than the marker,
    the marker and the hexadecimal form of its bytes otherwise. *)
Lemma escapeEncode_cases s1 p :
  runeLike s1 ->
  (forall c, p c = true -> tailFieldNamePattern c = true) ->
  (exists c, s1 = String c "" /\ String c "" <> escapeChar /\
             p c = true /\ escapeEncode s1 p = s1) \/
  escapeEncode s1 p = (escapeChar ++ hexUpper s1)%string.
Proof.
  intros Hr Hp. rewrite escapeEncode_eq.
  destruct (MatchString p s1 && negb (s1 =? escapeChar)%string) eqn:E;
    [|right; reflexivity].
  apply andb_true_iff in E. destruct E as [E Hq]. left.
  destruct Hr as [(c & -> & Hc)|[Hne Hhigh]].
  - exists c. unfold MatchString in E. simpl in E. rewrite orb_false_r in E.
    split; [reflexivity|]. split; [|split; [exact E|reflexivity]].
    apply negb_true_iff, String.eqb_neq in Hq. exact Hq.
  - unfold MatchString in E.
    rewrite (anyChar_high p s1) in E; [discriminate| |assumption].
    auto using tail_is_ascii.
Qed.

Lemma utf8Loop_fuel f1 : forall f2 input,
  String.length input <= f1 -> String.length input <= f2 ->
  utf8Loop f1 input = utf8Loop f2 input.
Proof.
  induction f1 as [|f1 IH]; intros f2 input H1 H2;
    destruct input as [|c0 rest]; destruct f2 as [|f2]; simpl in *;
    try reflexivity; try lia.
  destruct (nextRune c0 rest) as [s1 rest'] eqn:E.
  apply nextRune_spec in E. destruct E as [_ Hlen].
  f_equal. apply IH; lia.
Qed.

(** One step of the two loops on an input that starts with a well-formed
    rune. *)
Lemma escape_step c0 rest p :
  validUtf8 (String c0 rest) = true ->
  exists s1 rest',
    nextRune c0 rest = (s1, rest') /\
    String c0 rest = (s1 ++ rest')%string /\
    validUtf8 rest' = true /\
    String.length rest' <= String.length rest /\
    escapeFieldLoop (String.length (String c0 rest)) escapeEncode p
      (String c0 rest)
    = (escapeEncode s1 p
       ++ escapeFieldLoop (String.length rest') escapeEncode
            tailFieldNamePattern rest')%string.
Proof.
  unfold validUtf8. simpl.
  destruct (nextRune c0 rest) as [s1 rest'] eqn:E.
  intros H. apply andb_true_iff in H. destruct H as [Heq Hu].
  pose proof (nextRune_spec _ _ _ _ E) as [_ Hlen].
  exists s1, rest'. split; [reflexivity|].
  split; [apply String.eqb_eq; exact Heq|].
  split; [rewrite <- Hu; apply utf8Loop_fuel; lia|].
  split; [exact Hlen|].
  f_equal. apply escapeFieldLoop_fuel; lia.
Qed.

Lemma escape_inj n : forall a b p,
  String.length a <= n ->
  (forall c, p c = true -> tailFieldNamePattern c = true) ->
  validUtf8 a = true -> validUtf8 b = true ->
  escapeFieldLoop (String.length a) escapeEncode p a
  = escapeFieldLoop (String.length b) escapeEncode p b ->
  a = b.
Proof.
  induction n as [|n IH]; intros a b p Hn Hp Ha Hb H.
  - destruct a; [|simpl in Hn; lia].
    destruct b as [|b0 rb]; [reflexivity|].
    destruct (escape_step b0 rb p Hb)
      as (sb & rb' & Eb & Hsb & Hub & Hlb & Hstep).
    rewrite Hstep in H. simpl in H.
    pose proof (nextRune_spec _ _ _ _ Eb) as [Hrb _].
    destruct (escapeEncode_cases sb p Hrb Hp)
      as [(c & -> & _ & _ & Ec)|Ec]; rewrite Ec in H; discriminate H.
  - destruct a as [|a0 ra].
    { destruct b as [|b0 rb]; [reflexivity|].
      destruct (escape_step b0 rb p Hb)
        as (sb & rb' & Eb & Hsb & Hub & Hlb & Hstep).
      rewrite Hstep in H. simpl in H.
      pose proof (nextRune_spec _ _ _ _ Eb) as [Hrb _].
      destruct (escapeEncode_cases sb p Hrb Hp)
        as [(c & -> & _ & _ & Ec)|Ec]; rewrite Ec in H; discriminate H. }
    destruct (escape_step a0 ra p Ha)
      as (sa & ra' & Ea & Hsa & Hua & Hla & HstepA).
    pose proof (nextRune_spec _ _ _ _ Ea) as [Hra _].
    rewrite HstepA in H.
    destruct b as [|b0 rb].
    { simpl in H.
      destruct (escapeEncode_cases sa p Hra Hp)
        as [(c & -> & _ & _ & Ec)|Ec]; rewrite Ec in H; discriminate H. }
    destruct (escape_step b0 rb p Hb)
      as (sb & rb' & Eb & Hsb & Hub & Hlb & HstepB).
    pose proof (nextRune_spec _ _ _ _ Eb) as [Hrb _].
    rewrite HstepB in H.
    assert (Htail : forall c, tailFieldNamePattern c = true ->
                              tailFieldNamePattern c = true) by auto.
    simpl in Hn.
    destruct (escapeEncode_cases sa p Hra Hp)
      as [(ca & -> & Hqa & _ & Eca)|Eca];
      destruct (escapeEncode_cases sb p Hrb Hp)
        as [(cb & -> & Hqb & _ & Ecb)|Ecb];
      rewrite Eca, Ecb in H; unfold escapeChar in *; simpl in H.
    + injection H as -> H.
      rewrite Hsa, Hsb. f_equal.
      apply (IH ra' rb' tailFieldNamePattern); auto; lia.
    + injection H as -> _. congruence.
    + injection H as <- _. congruence.
    + injection H as H.
      destruct (nextRune_wellformed _ _ _ _ Ea Hsa) as [[ta Eta] Hlena].
      destruct (nextRune_wellformed _ _ _ _ Eb Hsb) as [[tb Etb] Hlenb].
      assert (E0 : a0 = b0).
      { rewrite Eta, Etb in H. simpl in H. injection H as Hhi Hlo _.
        apply hex_pair_inj; assumption. }
      subst b0.
      destruct (hexUpper_app_inj sa sb _ _ ltac:(congruence) H) as [-> Hrest].
      rewrite Hsa, Hsb. f_equal.
      apply (IH ra' rb' tailFieldNamePattern); auto; lia.
Qed.

Lemma literal_loop rest : forall fuel,
  String.length rest <= fuel ->
  allChars tailFieldNamePattern rest = true ->
  anyChar escapeRegex rest = false ->
  escapeFieldLoop fuel escapeEncode tailFieldNamePattern rest = rest.
Proof.
  induction rest as [|c rest IH]; intros fuel Hf Hall Hq;
    destruct fuel as [|fuel]; simpl in *; try reflexivity; try lia.
  apply andb_true_iff in Hall. destruct Hall as [Hc Hall].
  apply orb_false_iff in Hq. destruct Hq as [Hqc Hq].
  assert (Hne : (String c "" =? escapeChar)%string = false).
  { apply String.eqb_neq. unfold escapeChar. intros [= ->].
    vm_compute in Hqc. discriminate. }
  unfold nextRune. rewrite (tail_is_ascii c Hc).
  rewrite escapeEncode_eq. unfold MatchString.
  cbn [anyChar]. rewrite Hc, Hne. cbn [orb andb negb].
  cbn [String.append]. f_equal. apply IH; [lia|assumption..].
Qed.

(** [EscapeStructField] takes its shortcut only where the loop would
    return the input as well. *)
Lemma EscapeStructField_is_the_loop input :
  EscapeStructField input = escapeField input escapeEncode.
Proof.
  unfold EscapeStructField.
  destruct (negb (MatchString escapeRegex input) && IsValidStructFieldName input)
    eqn:E; [|reflexivity].
  apply andb_true_iff in E. destruct E as [Hq Hv].
  apply negb_true_iff in Hq. unfold MatchString in Hq.
  destruct input as [|c rest]; [discriminate|].
  simpl in Hv, Hq. apply andb_true_iff in Hv. destruct Hv as [Hc Hall].
  apply orb_false_iff in Hq. destruct Hq as [Hqc Hq].
  assert (Hne : (String c "" =? escapeChar)%string = false).
  { apply String.eqb_neq. unfold escapeChar. intros [= ->].
    vm_compute in Hqc. discriminate. }
  unfold escapeField. cbn [String.length escapeFieldLoop].
  unfold nextRune. rewrite (tail_is_ascii c (head_is_tail c Hc)).
  rewrite escapeEncode_eq. unfold MatchString.
  cbn [anyChar]. rewrite Hc, Hne. cbn [orb andb negb].
  cbn [String.append]. f_equal. symmetry. apply literal_loop; auto.
Qed.

(** X27.  [EscapeStructField] never maps two different inputs to the
    same name, as long as the inputs are well-formed UTF-8: the escaped
    name determines the input. *)
Theorem EscapeStructField_injective a b :
  validUtf8 a = true -> validUtf8 b = true ->
  EscapeStructField a = EscapeStructField b -> a = b.
Proof.
  intros Ha Hb H. rewrite !EscapeStructField_is_the_loop in H.
  unfold escapeField in H.
  apply (escape_inj (String.length a) a b headFieldNamePattern);
    auto using head_is_tail.
Qed.

End Codec.

(** * Concrete runs *)

(** C6 (counterexample).  The empty input is returned as the empty string,
    which is not a valid field name. *)
Lemma EscapeStructField_empty_not_valid :
  EscapeStructField "" = ""%string /\
  IsValidStructFieldName (EscapeStructField "") = false.
Proof. split; reflexivity. Qed.


(** Witness of [readMetaSequence_boundary_keys]: the interior node of
    [metaListExample], read from behind its tag and height. *)
Lemma readMetaSequence_boundary_keys_witness :
  exists count p0 tuples,
    readCount metaListExample 2 = Ok (count, p0) /\
    metaSequence ListKind 1
      [newMetaTuple (VRef (repeat x00 20) (PrimitiveType BoolKind) 0)
                    (newOrderedKey (VBool true)) 1]
      = metaSequence ListKind 1 tuples /\
    length tuples = N.to_nat count /\
    metaTuplesAt (readValueF acceptAll false 5) metaListExample p0 tuples 29.
Proof.
  apply (readMetaSequence_boundary_keys acceptAll false 5 ListKind 1%N
           metaListExample 2).
  vm_compute. reflexivity.
Defined.


(** Witness of [EscapeStructField_valid]: the input ["a b"]. *)
Lemma EscapeStructField_valid_witness :
  EscapeStructField "a b" = "aQ20b"%string /\
  IsValidStructFieldName (EscapeStructField "a b") = true.
Proof.
  split; [reflexivity|].
  apply (proj1 (EscapeStructField_valid "a b")). discriminate.
Defined.


Lemma regular_encTrue : regular acceptAll encTrue.
Proof. split; [|eexists]; vm_compute; reflexivity. Qed.

Lemma regular_encFalse : regular acceptAll encFalse.
Proof. split; [|eexists]; vm_compute; reflexivity. Qed.

Lemma structAB_isStruct : isStruct acceptAll structAB "" fieldsAB.
Proof.
  split; [vm_compute; reflexivity|].
  split; [vm_compute; reflexivity|].
  split; [vm_compute; reflexivity|].
  split.
  - repeat constructor; try (vm_compute; reflexivity);
      try apply regular_encTrue; try apply regular_encFalse;
      eexists; vm_compute; reflexivity.
  - repeat constructor.
Qed.

(** Witness of [Set_Get_Len]: setting the new field [c] of [structAB] to a
    chunked list, [metaListExample]. *)
Lemma Set_Get_Len_witness :
  exists s',
    StructSet acceptAll structAB "c" metaListExample = Ok s' /\
    Get acceptAll s' "c" = Ok metaListExample /\
    Len structAB = Ok (Z.of_nat (length fieldsAB)) /\
    Len s' = Ok (Z.of_nat (length fieldsAB)
                 + (if hasField "c" fieldsAB then 0 else 1))%Z /\
    buff s' = encodeStruct "" (setField "c" metaListExample fieldsAB) /\
    (regular acceptAll metaListExample ->
     forall k, k <> "c"%string ->
               MaybeGet acceptAll s' k = MaybeGet acceptAll structAB k).
Proof.
  apply (Set_Get_Len acceptAll structAB "" fieldsAB "c" metaListExample).
  - apply structAB_isStruct.
  - reflexivity.
  - vm_compute. reflexivity.
  - eexists. vm_compute. reflexivity.
Defined.

(** Witness of [Delete_absent_and_present]: [structAB] has no field [c]. *)
Lemma Delete_absent_and_present_witness :
  Delete acceptAll structAB "c" = Ok structAB.
Proof.
  apply (proj1 (Delete_absent_and_present acceptAll structAB "" fieldsAB "c"
                  structAB_isStruct)).
  reflexivity.
Defined.

(** Witness of [NewStruct_canonical]: the two enumerations of [dataAB]. *)
Lemma NewStruct_canonical_witness :
  NewStruct ["b"; "a"]%string "" dataAB = NewStruct ["a"; "b"]%string "" dataAB.
Proof.
  apply (NewStruct_canonical "" dataAB ["b"; "a"]%string ["a"; "b"]%string).
  - change ((map_to_list dataAB).*1) with ["a"; "b"]%string. apply perm_swap.
  - change ((map_to_list dataAB).*1) with ["a"; "b"]%string. reflexivity.
Defined.

(** ** Concrete runs of the further properties *)

Lemma fieldsAB_fieldOk : Forall (fieldOk acceptAll) fieldsAB.
Proof. destruct structAB_isStruct as (_ & _ & _ & H & _). exact H. Qed.

Lemma dataAB_values n v :
  dataAB !! n = Some v -> goLen (String.length n) /\ regular acceptAll v.
Proof.
  unfold dataAB. intros H.
  apply lookup_insert_Some in H. destruct H as [[<- <-]|[_ H]].
  { split; [vm_compute; reflexivity|apply regular_encTrue]. }
  apply lookup_insert_Some in H. destruct H as [[<- <-]|[_ H]].
  { split; [vm_compute; reflexivity|apply regular_encFalse]. }
  rewrite lookup_empty in H. discriminate.
Qed.

(** [structAB] with the field [c] set to [true]. *)
Lemma structABC_isStruct :
  isStruct acceptAll (mkStruct (encodeStruct "" (setField "c" encTrue fieldsAB)))
    "" (setField "c" encTrue fieldsAB).
Proof.
  apply (setField_isStruct acceptAll structAB "" fieldsAB "c" encTrue).
  - apply structAB_isStruct.
  - split; [vm_compute; reflexivity|apply regular_encTrue].
  - vm_compute. reflexivity.
Qed.

(** Witness of [MaybeGet_Get_lookup]: [structAB] has no field [c]. *)
Lemma MaybeGet_Get_lookup_witness :
  Get acceptAll structAB "c" = Panic <-> ~ In "c"%string (map fst fieldsAB).
Proof.
  exact (proj2 (proj2 (proj2 (proj2
    (MaybeGet_Get_lookup acceptAll structAB "" fieldsAB "c" structAB_isStruct))))).
Defined.

(** Witness of [Name_Len_IterFields_read_back]: the fields of [structAB]. *)
Lemma Name_Len_IterFields_read_back_witness :
  IterFields acceptAll structAB = Ok fieldsAB.
Proof.
  exact (proj1 (proj2 (proj2 (proj2
    (Name_Len_IterFields_read_back acceptAll structAB "" fieldsAB
       structAB_isStruct))))).
Defined.

(** Witness of [WalkValues_iterParts_visit_fields]: the values of
    [structAB]. *)
Lemma WalkValues_iterParts_visit_fields_witness :
  WalkValues acceptAll structAB = Ok [encTrue; encFalse].
Proof.
  exact (proj1 (WalkValues_iterParts_visit_fields acceptAll structAB ""
                  fieldsAB structAB_isStruct)).
Defined.

(** Witness of [struct_buffer_is_a_value]: the buffer of [structAB]. *)
Lemma struct_buffer_is_a_value_witness :
  regular acceptAll (encodeStruct "" fieldsAB).
Proof.
  apply (struct_buffer_is_a_value acceptAll "" fieldsAB).
  - vm_compute. reflexivity.
  - vm_compute. reflexivity.
  - apply fieldsAB_fieldOk.
Defined.

(** Witness of [readStruct_reads_back_written_struct]: [structAB] between
    two other bytes, read by a validating decoder. *)
Lemma readStruct_reads_back_written_struct_witness :
  readStructD acceptAll true ([x00] ++ encodeStruct "" fieldsAB ++ [x01])
    (length [x00])
  = Ok (mkStruct (encodeStruct "" fieldsAB),
        length [x00] + length (encodeStruct "" fieldsAB)) /\
  skipStructD acceptAll true ([x00] ++ encodeStruct "" fieldsAB ++ [x01])
    (length [x00])
  = Ok (tt, length [x00] + length (encodeStruct "" fieldsAB)).
Proof.
  apply (readStruct_reads_back_written_struct acceptAll true _ [x00] ""
           fieldsAB [x01]).
  - reflexivity.
  - vm_compute. reflexivity.
  - vm_compute. reflexivity.
  - repeat constructor; vm_compute; reflexivity.
Defined.

(** Witness of [MakeStructTemplate_accepts_sorted_valid_names]: the
    template of [structAB]. *)
Lemma MakeStructTemplate_accepts_sorted_valid_names_witness :
  MakeStructTemplate "" ["a"; "b"]%string
  = Ok (mkStructTemplate "" ["a"; "b"]%string).
Proof.
  apply (proj1 (MakeStructTemplate_accepts_sorted_valid_names ""
                  ["a"; "b"]%string)).
  split; [reflexivity|]. split; repeat constructor.
Defined.

(** Witness of [TemplateNewStruct_agrees_with_NewStruct]: [structAB] from
    its template. *)
Lemma TemplateNewStruct_agrees_with_NewStruct_witness :
  TemplateNewStruct (mkStructTemplate "" ["a"; "b"]%string) [encTrue; encFalse]
  = Ok (mkStruct (encodeStruct "" fieldsAB)).
Proof.
  apply (proj1 (TemplateNewStruct_agrees_with_NewStruct ""
                  ["a"; "b"]%string _ [encTrue; encFalse] eq_refl)).
  reflexivity.
Defined.

(** Witness of [Set_then_Delete_undoes_the_insert]: the new field [c] of
    [structAB]. *)
Lemma Set_then_Delete_undoes_the_insert_witness :
  exists s1 s2 s3,
    StructSet acceptAll structAB "c" encTrue = Ok s1 /\
    Delete acceptAll s1 "c" = Ok s2 /\
    Delete acceptAll structAB "c" = Ok s3 /\
    buff s2 = buff s3 /\
    (hasField "c" fieldsAB = false -> buff s2 = buff structAB).
Proof.
  apply (Set_then_Delete_undoes_the_insert acceptAll structAB "" fieldsAB "c"
           encTrue).
  - apply structAB_isStruct.
  - reflexivity.
  - vm_compute. reflexivity.
  - apply regular_encTrue.
  - vm_compute. reflexivity.
Defined.

(** Witness of [Set_last_write_wins]: [c] set to [true], then to
    [false]. *)
Lemma Set_last_write_wins_witness :
  exists s1 s2,
    StructSet acceptAll structAB "c" encTrue = Ok s1 /\
    StructSet acceptAll s1 "c" encFalse = Ok s2 /\
    StructSet acceptAll structAB "c" encFalse = Ok s2.
Proof.
  apply (Set_last_write_wins acceptAll structAB "" fieldsAB "c" encTrue encFalse).
  - apply structAB_isStruct.
  - reflexivity.
  - vm_compute. reflexivity.
  - apply regular_encTrue.
  - vm_compute. reflexivity.
Defined.

(** Witness of [Set_of_different_fields_commutes]: the fields [c] and
    [d]. *)
Lemma Set_of_different_fields_commutes_witness :
  exists s1 s2 s12,
    StructSet acceptAll structAB "c" encTrue = Ok s1 /\
    StructSet acceptAll structAB "d" encFalse = Ok s2 /\
    StructSet acceptAll s1 "d" encFalse = Ok s12 /\
    StructSet acceptAll s2 "c" encTrue = Ok s12.
Proof.
  apply (Set_of_different_fields_commutes acceptAll structAB "" fieldsAB
           "c" "d" encTrue encFalse).
  - apply structAB_isStruct.
  - discriminate.
  - reflexivity.
  - reflexivity.
  - vm_compute. reflexivity.
  - vm_compute. reflexivity.
  - apply regular_encTrue.
  - apply regular_encFalse.
  - vm_compute. reflexivity.
Defined.

(** Witness of [Delete_removes_only_that_field]: the field [a] of
    [structAB]. *)
Lemma Delete_removes_only_that_field_witness :
  exists s',
    Delete acceptAll structAB "a" = Ok s' /\
    MaybeGet acceptAll s' "a" = Ok None /\
    (forall k, k <> "a"%string ->
               MaybeGet acceptAll s' k = MaybeGet acceptAll structAB k) /\
    Delete acceptAll s' "a" = Ok s'.
Proof.
  apply (Delete_removes_only_that_field acceptAll structAB "" fieldsAB "a").
  apply structAB_isStruct.
Defined.

(** Witness of [Delete_then_Set_restores]: the field [a] of [structAB]. *)
Lemma Delete_then_Set_restores_witness :
  exists s1 s2,
    Delete acceptAll structAB "a" = Ok s1 /\
    StructSet acceptAll s1 "a" encTrue = Ok s2 /\
    buff s2 = buff structAB.
Proof.
  apply (Delete_then_Set_restores acceptAll structAB "" fieldsAB "a" encTrue).
  - apply structAB_isStruct.
  - reflexivity.
  - left. reflexivity.
Defined.

(** Witness of [Set_Delete_keep_fields_sorted]: deleting [a] from
    [structAB]. *)
Lemma Set_Delete_keep_fields_sorted_witness :
  exists s',
    Delete acceptAll structAB "a" = Ok s' /\
    isStruct acceptAll s' "" (deleteField "a" fieldsAB) /\
    ascending (map fst (deleteField "a" fieldsAB)).
Proof.
  apply (Set_Delete_keep_fields_sorted acceptAll structAB "" fieldsAB "a"
           encTrue).
  apply structAB_isStruct.
Defined.

(** Witness of [NewStruct_reads_back_its_mapping]: [structAB] and
    [dataAB]. *)
Lemma NewStruct_reads_back_its_mapping_witness :
  (forall k, MaybeGet acceptAll structAB k = Ok (dataAB !! k)) /\
  Len structAB = Ok (Z.of_nat (size dataAB)) /\
  Name structAB = Ok ""%string.
Proof.
  apply (NewStruct_reads_back_its_mapping acceptAll ["a"; "b"]%string ""
           dataAB structAB).
  - change ((map_to_list dataAB).*1) with ["a"; "b"]%string. reflexivity.
  - vm_compute. reflexivity.
  - vm_compute. reflexivity.
  - vm_compute. reflexivity.
  - apply dataAB_values.
Defined.

(** Witness of [Set_Delete_agree_with_NewStruct]: the new field [c]. *)
Lemma Set_Delete_agree_with_NewStruct_witness :
  StructSet acceptAll structAB "c" encTrue
  = NewStruct ["c"; "b"; "a"]%string "" (<["c"%string := encTrue]> dataAB) /\
  Delete acceptAll structAB "c"
  = NewStruct ["b"; "a"]%string "" (delete "c"%string dataAB).
Proof.
  apply (Set_Delete_agree_with_NewStruct acceptAll ["a"; "b"]%string
           ["c"; "b"; "a"]%string ["b"; "a"]%string "" dataAB structAB
           "c" encTrue).
  - change ((map_to_list dataAB).*1) with ["a"; "b"]%string. reflexivity.
  - change ((map_to_list (<["c"%string := encTrue]> dataAB)).*1)
      with ["c"; "a"; "b"]%string.
    apply perm_skip, perm_swap.
  - change ((map_to_list (delete "c"%string dataAB)).*1)
      with ["a"; "b"]%string.
    apply perm_swap.
  - vm_compute. reflexivity.
  - vm_compute. reflexivity.
  - vm_compute. reflexivity.
  - apply dataAB_values.
  - reflexivity.
  - vm_compute. reflexivity.
  - apply regular_encTrue.
Defined.

(** Witness of [NewStruct_panics_exactly_on_invalid_names]: the names of
    [dataAB] are valid. *)
Lemma NewStruct_panics_exactly_on_invalid_names_witness :
  exists s, NewStruct ["a"; "b"]%string "" dataAB = Ok s.
Proof.
  apply (proj1 (NewStruct_panics_exactly_on_invalid_names ["a"; "b"]%string ""
                  dataAB
                  ltac:(change ((map_to_list dataAB).*1) with ["a"; "b"]%string;
                        reflexivity))).
  split; [left; reflexivity|repeat constructor].
Defined.


(** Witness of [Diff_after_Set_reports_that_field]: the new field [c] of
    [structAB]. *)
Lemma Diff_after_Set_reports_that_field_witness :
  exists s',
    StructSet acceptAll structAB "c" encTrue = Ok s' /\
    Diff acceptAll (list ValueChanged) collect s' structAB []
    = Ok (match lookupField "c" fieldsAB with
          | None => [added ("c"%string, encTrue)]
          | Some old => if Equals encTrue old then []
                        else [modified "c" old encTrue]
          end) /\
    Diff acceptAll (list ValueChanged) collect structAB s' []
    = Ok (match lookupField "c" fieldsAB with
          | None => [removed ("c"%string, encTrue)]
          | Some old => if Equals old encTrue then []
                        else [modified "c" encTrue old]
          end).
Proof.
  apply (Diff_after_Set_reports_that_field acceptAll structAB "" fieldsAB "c"
           encTrue).
  - apply structAB_isStruct.
  - reflexivity.
  - vm_compute. reflexivity.
  - apply regular_encTrue.
  - vm_compute. reflexivity.
Defined.

(** Witness of [skipValue_follows_readValue_without_tuples]: the flat list
    [listLeafExample]. *)
Lemma skipValue_follows_readValue_without_tuples_witness :
  skipValue acceptAll false listLeafExample 0 = Ok (tt, 7).
Proof.
  apply (skipValue_follows_readValue_without_tuples acceptAll listLeafExample 0
           (VList (listLazyLeafSequence [3; 5] 7)) 7).
  - vm_compute. reflexivity.
  - reflexivity.
Defined.

(** Witness of [skipType_against_readType]: the union type of
    [siblingCycleExample]. *)
Lemma skipType_against_readType_witness :
  skipType acceptAll false siblingCycleExample 0 = Ok (tt, 9).
Proof.
  apply (proj1 (skipType_against_readType acceptAll siblingCycleExample 0)
           (CompoundType UnionKind [StructType 0 "A" []; TypeRef 0]) 9).
  vm_compute. reflexivity.
Defined.

(** Witness of [decoding_is_local]: [listLeafExample] behind one other
    byte; the offsets move by one. *)
Lemma decoding_is_local_witness :
  readValue acceptAll false ([x09] ++ listLeafExample ++ []) (length [x09] + 0)
  = Ok (shiftValue (length [x09]) (VList (listLazyLeafSequence [3; 5] 7)),
        length [x09] + 7).
Proof.
  apply (proj1 (decoding_is_local acceptAll false [x09] [] listLeafExample 0 7)).
  vm_compute. reflexivity.
Defined.

(** Witness of [readValue_kind_is_the_tag]: [listLeafExample] starts with
    the tag of a list. *)
Lemma readValue_kind_is_the_tag_witness :
  (exists c, nth_error listLeafExample 0 = Some c /\
             kindOfTag (Byte.to_N c)
             = Some (kindOfValue (VList (listLazyLeafSequence [3; 5] 7)))) /\
  0 < 7 /\ 0 < length listLeafExample.
Proof.
  apply (proj1 (readValue_kind_is_the_tag acceptAll false listLeafExample 0 7)).
  vm_compute. reflexivity.
Defined.

(** Witness of [lazy_list_offsets_ascend]: the offsets of
    [listLeafExample]. *)
Lemma lazy_list_offsets_ascend_witness :
  7 = 7 /\
  StronglySorted lt [3; 5] /\
  Forall (fun o => 0 < o /\ o < 7 /\ o < length listLeafExample) [3; 5].
Proof.
  apply (lazy_list_offsets_ascend acceptAll false listLeafExample 0 [3; 5] 7 7).
  vm_compute. reflexivity.
Defined.

(** Witness of [lazy_list_items_are_the_eager_items]: the two elements of
    [listLeafExample], read from behind its tag and height. *)
Lemma lazy_list_items_are_the_eager_items_witness :
  exists offsets,
    readListLeafSequence (skipValue acceptAll false) listLeafExample 2
    = Ok (listLazyLeafSequence offsets 7, 7) /\
    length offsets = length [VBool true; VBool false] /\
    forall idx v c, nth_error [VBool true; VBool false] idx = Some v ->
                    getItem acceptAll offsets idx listLeafExample c = (Ok v, c).
Proof.
  apply (lazy_list_items_are_the_eager_items acceptAll listLeafExample 2
           [VBool true; VBool false] 7).
  - vm_compute. reflexivity.
  - repeat constructor.
Defined.

(** Witness of [EscapeStructField_injective]: the input ["a b"]. *)
Lemma EscapeStructField_injective_witness : "a b"%string = "a b"%string.
Proof.
  apply (EscapeStructField_injective "a b" "a b"); reflexivity.
Defined.

(** Witness of [StructEquals_iff_same_name_and_fields]: [structAB] against
    itself. *)
Lemma StructEquals_iff_same_name_and_fields_witness :
  StructEquals structAB structAB = true <->
  ""%string = ""%string /\ fieldsAB = fieldsAB.
Proof.
  apply (StructEquals_iff_same_name_and_fields acceptAll structAB "" fieldsAB
           structAB "" fieldsAB).
  - apply structAB_isStruct.
  - apply structAB_isStruct.
Defined.

(** Witness of [NewStruct_injective]: [structAB] from two enumerations of
    [dataAB]. *)
Lemma NewStruct_injective_witness :
  ""%string = ""%string /\ dataAB = dataAB.
Proof.
  apply (NewStruct_injective acceptAll ["a"; "b"]%string ["b"; "a"]%string
           "" "" dataAB dataAB structAB).
  - change ((map_to_list dataAB).*1) with ["a"; "b"]%string. reflexivity.
  - change ((map_to_list dataAB).*1) with ["a"; "b"]%string. apply perm_swap.
  - vm_compute. reflexivity.
  - vm_compute. reflexivity.
  - vm_compute. reflexivity.
  - vm_compute. reflexivity.
  - vm_compute. reflexivity.
  - vm_compute. reflexivity.
  - apply dataAB_values.
  - apply dataAB_values.
Defined.
